(** * The live voice-call pipeline of the SLIM dashboard

    A shallow embedding of the voice-call code that exists in two copies:
    [frontend-react/src/pages/VoiceAgent.jsx] (below: module [VoiceAgent])
    and the stand-alone JalMitra [App.tsx] (below: module [App]).  The
    audio helpers ([decode], [encode], [decodeAudioData], [createPcmBlob])
    are taken from VoiceAgent.jsx, the only copy that carries them. *)

From Stdlib Require Import List Bool Arith NArith ZArith QArith Qround Qabs.
From Stdlib Require Import Qminmax Lia Lqa RelationClasses.
From Stdlib Require Import Strings.String Strings.Ascii Strings.Byte.
Import ListNotations.

Set Implicit Arguments.

(** [lia] is asked to handle div and mod on [N] and [Z]. *)
Ltac Zify.zify_post_hook ::= Z.to_euclidean_division_equations.

(* ================================================================== *)
(** * Results of JavaScript calls that may throw *)

Inductive Exn : Type :=
| InvalidCharacterError   (* atob on a malformed string *)
| RangeError              (* typed-array view over a misaligned length *)
| NotSupportedError       (* createBuffer with a zero length *)
| ThrownBy (what : string).

Inductive result (A : Type) : Type :=
| Ok (a : A)
| Throw (e : Exn).
Arguments Ok {A} a.
Arguments Throw {A} e.

Definition rbind {A B} (r : result A) (k : A -> result B) : result B :=
  match r with
  | Ok a => k a
  | Throw e => Throw e
  end.

Notation "'let*' x ':=' r 'in' k" := (rbind r (fun x => k))
  (at level 10, x name, r at level 100, k at level 200).

(* ================================================================== *)
(** * Base64: the platform's [btoa] / [atob] and the helpers over them *)

Module Base64.

Open Scope N_scope.

(** A JavaScript "binary string" is a string whose code units are all at
    most 255; [String.string] is exactly that.  [btoa] and [atob] throw on
    any larger code unit, which the type leaves out. *)

(** The base64 alphabet of RFC 4648 section 4, as an index -> character
    map and back. *)
Definition b64_char (n : N) : ascii :=
  if n <? 26 then ascii_of_N (65 + n)
  else if n <? 52 then ascii_of_N (97 + (n - 26))
  else if n <? 62 then ascii_of_N (48 + (n - 52))
  else if n =? 62 then "+"%char
  else "/"%char.

Definition b64_value (c : ascii) : option N :=
  let k := N_of_ascii c in
  if (65 <=? k) && (k <=? 90) then Some (k - 65)
  else if (97 <=? k) && (k <=? 122) then Some (k - 97 + 26)
  else if (48 <=? k) && (k <=? 57) then Some (k - 48 + 52)
  else if k =? 43 then Some 62
  else if k =? 47 then Some 63
  else None.

Definition pad : ascii := "="%char.

(** forgiving-base64 encode: three bytes give four characters, a last
    group of one or two bytes is padded with [=]. *)
Fixpoint btoa_units (l : list N) : list ascii :=
  match l with
  | [] => []
  | [a] => [b64_char (a / 4); b64_char ((a mod 4) * 16); pad; pad]
  | [a; b] =>
      [b64_char (a / 4); b64_char ((a mod 4) * 16 + b / 16);
       b64_char ((b mod 16) * 4); pad]
  | a :: b :: c :: rest =>
      b64_char (a / 4) :: b64_char ((a mod 4) * 16 + b / 16)
      :: b64_char ((b mod 16) * 4 + c / 64) :: b64_char (c mod 64)
      :: btoa_units rest
  end.

Definition btoa (binary : string) : string :=
  string_of_list_ascii
    (btoa_units (map N_of_ascii (list_ascii_of_string binary))).

(** forgiving-base64 decode, step by step as the HTML standard gives it. *)
Definition is_ascii_whitespace (c : ascii) : bool :=
  let k := N_of_ascii c in
  (k =? 9) || (k =? 10) || (k =? 12) || (k =? 13) || (k =? 32).

(** "If data ends with one or two U+003D (=) code points, remove them." *)
Fixpoint remove_trailing_pad (l : list ascii) : list ascii :=
  match l with
  | [] => []
  | c :: r =>
      match r with
      | [] => if Ascii.eqb c pad then [] else [c]
      | [d] => if Ascii.eqb c pad && Ascii.eqb d pad then []
               else c :: remove_trailing_pad r
      | _ => c :: remove_trailing_pad r
      end
  end.

(** The bit buffer of the standard, four characters at a time; a last
    group of two or three characters drops its 4 or 2 spare bits. *)
Fixpoint atob_units (l : list ascii) : option (list N) :=
  match l with
  | [] => Some []
  | [_] => None
  | [c1; c2] =>
      match b64_value c1, b64_value c2 with
      | Some v1, Some v2 => Some [v1 * 4 + v2 / 16]
      | _, _ => None
      end
  | [c1; c2; c3] =>
      match b64_value c1, b64_value c2, b64_value c3 with
      | Some v1, Some v2, Some v3 =>
          Some [v1 * 4 + v2 / 16; (v2 mod 16) * 16 + v3 / 4]
      | _, _, _ => None
      end
  | c1 :: c2 :: c3 :: c4 :: rest =>
      match b64_value c1, b64_value c2, b64_value c3, b64_value c4,
            atob_units rest with
      | Some v1, Some v2, Some v3, Some v4, Some bs =>
          Some (v1 * 4 + v2 / 16 :: (v2 mod 16) * 16 + v3 / 4
                :: (v3 mod 4) * 64 + v4 :: bs)
      | _, _, _, _, _ => None
      end
  end.

Definition atob (data : string) : result string :=
  let d := filter (fun c => negb (is_ascii_whitespace c))
                  (list_ascii_of_string data) in
  let d := if N.of_nat (List.length d) mod 4 =? 0
           then remove_trailing_pad d else d in
  if N.of_nat (List.length d) mod 4 =? 1 then Throw InvalidCharacterError
  else match atob_units d with
       | Some bs => Ok (string_of_list_ascii (map ascii_of_N bs))
       | None => Throw InvalidCharacterError
       end.

(** [String.fromCharCode(b)] for a byte, and [s.charCodeAt(i)] stored into
    a [Uint8Array] cell. *)
Definition fromCharCode (b : byte) : string :=
  String (ascii_of_byte b) EmptyString.

Definition charCode (c : ascii) : byte := byte_of_ascii c.

(** [function decode(base64)]: [atob], then the loop
    [bytes[i] = binaryString.charCodeAt(i)] over every index. *)
Definition decode (base64 : string) : result (list byte) :=
  let* binaryString := atob base64 in
  Ok (map charCode (list_ascii_of_string binaryString)).

(** [function encode(bytes)]: append one character per byte, then [btoa]. *)
Definition encode (bytes : list byte) : string :=
  let binary :=
    fold_left (fun binary b => (binary ++ fromCharCode b)%string)
              bytes EmptyString in
  btoa binary.

End Base64.

(* ================================================================== *)
(** * PCM16: [createPcmBlob] and [decodeAudioData] *)

Module Pcm.

Open Scope Z_scope.

(** Samples are the numbers a [Float32Array] can hold.  Every finite float
    is a rational, and the only arithmetic applied to a sample is a
    product or a quotient by the power of two 32768, which is exact in
    binary floating point; so [Q] carries the very values the code
    computes.  NaN and the infinities are left out. *)
Definition sample := Q.

(** Storing a number into an [Int16Array] cell (ECMAScript ToInt16): drop
    the fraction, reduce modulo 2^16, read the result as signed. *)
Definition truncate (x : Q) : Z := Z.quot (Qnum x) (Zpos (Qden x)).

Definition signed16 (u : Z) : Z :=
  let int16bit := u mod 65536 in
  if 32768 <=? int16bit then int16bit - 65536 else int16bit.

Definition ToInt16 (x : Q) : Z := signed16 (truncate x).

(** The bytes under a typed array, little endian. *)
Definition byte_of_Z (z : Z) : byte :=
  match Byte.of_N (Z.to_N (z mod 256)) with
  | Some b => b
  | None => x00
  end.

Definition Z_of_byte (b : byte) : Z := Z.of_N (Byte.to_N b).

(** [new Uint8Array(int16.buffer)] *)
Definition Uint8Array_of_Int16Array (int16 : list Z) : list byte :=
  flat_map (fun v => [byte_of_Z (v mod 65536); byte_of_Z ((v mod 65536) / 256)])
           int16.

(** [new Int16Array(data.buffer)]: throws on an odd byte length. *)
Fixpoint Int16Array_of_Uint8Array (data : list byte) : result (list Z) :=
  match data with
  | [] => Ok []
  | [_] => Throw RangeError
  | lo :: hi :: rest =>
      let* tl := Int16Array_of_Uint8Array rest in
      Ok (signed16 (Z_of_byte lo + 256 * Z_of_byte hi) :: tl)
  end.

Record AudioBuffer : Type := {
  numberOfChannels : nat;
  frames : nat;                       (* the buffer's [length] *)
  sampleRate : Z;
  channelData : list (list sample)
}.

(** [buffer.duration], in seconds *)
Definition duration (b : AudioBuffer) : Q :=
  inject_Z (Z.of_nat (frames b)) / inject_Z (sampleRate b).

(** The nominal ranges of [createBuffer].  They are the implementation's
    own; the Web Audio specification obliges every implementation to take
    up to 32 channels and the rates from 8000 to 96000 Hz.  The model is
    an implementation that takes what it must and nothing beyond: what a
    browser accepts outside these ranges is its choice.  The code asks for
    one channel at 24000 Hz. *)
Definition maxChannels : nat := 32.
Definition minSampleRate : Z := 8000.
Definition maxSampleRate : Z := 96000.

(** [ctx.createBuffer(numChannels, frameCount, sampleRate)]: a silent
    buffer; an argument that is zero, negative or outside its nominal
    range is refused. *)
Definition createBuffer (numChannels frameCount : nat) (rate : Z)
  : result AudioBuffer :=
  if (numChannels =? 0)%nat || (maxChannels <? numChannels)%nat
     || (frameCount =? 0)%nat
     || (rate <? minSampleRate) || (maxSampleRate <? rate)
  then Throw NotSupportedError
  else Ok {| numberOfChannels := numChannels;
             frames := frameCount;
             sampleRate := rate;
             channelData := repeat (repeat 0%Q frameCount) numChannels |}.

(** [function decodeAudioData(data, ctx, sampleRate, numChannels)].  The
    quotient [dataInt16.length / numChannels] reaches [createBuffer] as an
    unsigned long and bounds the loop, so its integer part is what counts. *)
Definition decodeAudioData (data : list byte) (rate : Z) (numChannels : nat)
  : result AudioBuffer :=
  let* dataInt16 := Int16Array_of_Uint8Array data in
  let frameCount := (List.length dataInt16 / numChannels)%nat in
  let* buffer := createBuffer numChannels frameCount rate in
  Ok {| numberOfChannels := numberOfChannels buffer;
        frames := frames buffer;
        sampleRate := sampleRate buffer;
        channelData :=
          map (fun channel =>
                 map (fun i =>
                        (inject_Z (nth (i * numChannels + channel)%nat dataInt16 0%Z)
                         / 32768)%Q)
                     (seq 0 frameCount))
              (seq 0 numChannels) |}.

Record Blob : Type := { data : string; mimeType : string }.

(** [function createPcmBlob(data)] *)
Definition createPcmBlob (samples : list sample) : Blob :=
  let int16 := map (fun x => ToInt16 (x * 32768)%Q) samples in
  {| data := Base64.encode (Uint8Array_of_Int16Array int16);
     mimeType := "audio/pcm;rate=16000"%string |}.

(** What the far end hears of a captured frame: the blob's payload run
    through [decode] and [decodeAudioData]. *)
Definition roundtrip (samples : list sample) : result AudioBuffer :=
  let* bytes := Base64.decode (data (createPcmBlob samples)) in
  decodeAudioData bytes 16000 1.

End Pcm.

(* ================================================================== *)
(** * The state of the call component and the platform it drives *)

Module Call.

Import Pcm.

Inductive CallStatus : Type := IDLE | CONNECTING | ACTIVE | ENDED | ERROR.

Definition CallStatus_eqb (a b : CallStatus) : bool :=
  match a, b with
  | IDLE, IDLE | CONNECTING, CONNECTING | ACTIVE, ACTIVE
  | ENDED, ENDED | ERROR, ERROR => true
  | _, _ => false
  end.

(** Platform objects.  Each carries an identity and, where the code guards
    a call on it, whether that call fails. *)
Record Session : Type := {
  session_id : nat;
  close_throws : bool        (* [session.close()] throws *)
}.

Record AudioContext : Type := {
  ctx_id : nat;
  ctx_sampleRate : Z;
  close_rejects : bool       (* the promise of [ctx.close()] rejects *)
}.

Record SourceNode : Type := {       (* an AudioBufferSourceNode *)
  node_id : nat;
  buffer : AudioBuffer;
  stop_throws : bool         (* [source.stop()] throws *)
}.

Inductive Role : Type := user | model.

Record TranscriptionEntry : Type := {
  role : Role;
  text : string;
  timestamp : Z              (* the field is named [time] in VoiceAgent.jsx *)
}.

Record TranscriptionBuffers : Type := {
  buf_user : string;
  buf_model : string
}.

(** Calls made on the platform, in the order they are made. *)
Inductive Effect : Type :=
| LiveConnect (s : Session)                    (* ai.live.connect(...) *)
| SessionClose (s : Session)                   (* session.close() *)
| SendRealtimeInput (s : Session) (media : Blob)
| SourceStart (n : SourceNode) (when : Q)      (* source.start(when) *)
| SourceStop (n : SourceNode)                  (* source.stop() *)
| ContextClose (c : AudioContext)              (* ctx.close() *)
| SetTimeoutIdle                 (* setTimeout(() => setStatus(IDLE), 1000) *)
| ConsoleError.

(** What is kept of the promises [ai.live.connect] has returned (App.tsx
    holds on to each as [sessionPromise]): which are fulfilled, which are
    rejected, and the [then] callbacks waiting on those that are pending,
    each of them the send of one blob.  A promise is known by the identity
    of the session it stands for. *)
Record SessionPromises : Type := {
  fulfilled : list nat;
  rejected : list nat;
  waiting : list (Session * Blob)
}.

(** The React state cells and refs of the component.  [error] and
    [isMutedRef] exist in VoiceAgent.jsx only, [transcriptionRef] in
    App.tsx only; [nodesCreated] counts the nodes handed out by
    [createBufferSource] and gives each new node its identity, and
    [promises] is the state of the session promises. *)
Record Component : Type := {
  status : CallStatus;
  transcriptions : list TranscriptionEntry;
  isMuted : bool;
  isModelSpeaking : bool;
  error : string;
  sessionRef : option Session;
  inputAudioCtxRef : option AudioContext;
  outputAudioCtxRef : option AudioContext;
  nextStartTimeRef : Q;
  sourcesRef : list SourceNode;
  isMutedRef : bool;
  transcriptionRef : TranscriptionBuffers;
  nodesCreated : nat;
  promises : SessionPromises
}.

(** The component as it is mounted. *)
Definition initial : Component :=
  {| status := IDLE; transcriptions := []; isMuted := false;
     isModelSpeaking := false; error := ""; sessionRef := None;
     inputAudioCtxRef := None; outputAudioCtxRef := None;
     nextStartTimeRef := 0; sourcesRef := []; isMutedRef := false;
     transcriptionRef := {| buf_user := ""; buf_model := "" |};
     nodesCreated := 0;
     promises := {| fulfilled := []; rejected := []; waiting := [] |} |}.

Definition set_status (v : CallStatus) (c : Component) : Component :=
  {| status := v;
     transcriptions := transcriptions c;
     isMuted := isMuted c;
     isModelSpeaking := isModelSpeaking c;
     error := error c;
     sessionRef := sessionRef c;
     inputAudioCtxRef := inputAudioCtxRef c;
     outputAudioCtxRef := outputAudioCtxRef c;
     nextStartTimeRef := nextStartTimeRef c;
     sourcesRef := sourcesRef c;
     isMutedRef := isMutedRef c;
     transcriptionRef := transcriptionRef c;
     nodesCreated := nodesCreated c;
     promises := promises c |}.

Definition set_transcriptions (v : list TranscriptionEntry) (c : Component) : Component :=
  {| status := status c;
     transcriptions := v;
     isMuted := isMuted c;
     isModelSpeaking := isModelSpeaking c;
     error := error c;
     sessionRef := sessionRef c;
     inputAudioCtxRef := inputAudioCtxRef c;
     outputAudioCtxRef := outputAudioCtxRef c;
     nextStartTimeRef := nextStartTimeRef c;
     sourcesRef := sourcesRef c;
     isMutedRef := isMutedRef c;
     transcriptionRef := transcriptionRef c;
     nodesCreated := nodesCreated c;
     promises := promises c |}.

Definition set_isMuted (v : bool) (c : Component) : Component :=
  {| status := status c;
     transcriptions := transcriptions c;
     isMuted := v;
     isModelSpeaking := isModelSpeaking c;
     error := error c;
     sessionRef := sessionRef c;
     inputAudioCtxRef := inputAudioCtxRef c;
     outputAudioCtxRef := outputAudioCtxRef c;
     nextStartTimeRef := nextStartTimeRef c;
     sourcesRef := sourcesRef c;
     isMutedRef := isMutedRef c;
     transcriptionRef := transcriptionRef c;
     nodesCreated := nodesCreated c;
     promises := promises c |}.

Definition set_isModelSpeaking (v : bool) (c : Component) : Component :=
  {| status := status c;
     transcriptions := transcriptions c;
     isMuted := isMuted c;
     isModelSpeaking := v;
     error := error c;
     sessionRef := sessionRef c;
     inputAudioCtxRef := inputAudioCtxRef c;
     outputAudioCtxRef := outputAudioCtxRef c;
     nextStartTimeRef := nextStartTimeRef c;
     sourcesRef := sourcesRef c;
     isMutedRef := isMutedRef c;
     transcriptionRef := transcriptionRef c;
     nodesCreated := nodesCreated c;
     promises := promises c |}.

Definition set_error (v : string) (c : Component) : Component :=
  {| status := status c;
     transcriptions := transcriptions c;
     isMuted := isMuted c;
     isModelSpeaking := isModelSpeaking c;
     error := v;
     sessionRef := sessionRef c;
     inputAudioCtxRef := inputAudioCtxRef c;
     outputAudioCtxRef := outputAudioCtxRef c;
     nextStartTimeRef := nextStartTimeRef c;
     sourcesRef := sourcesRef c;
     isMutedRef := isMutedRef c;
     transcriptionRef := transcriptionRef c;
     nodesCreated := nodesCreated c;
     promises := promises c |}.

Definition set_sessionRef (v : option Session) (c : Component) : Component :=
  {| status := status c;
     transcriptions := transcriptions c;
     isMuted := isMuted c;
     isModelSpeaking := isModelSpeaking c;
     error := error c;
     sessionRef := v;
     inputAudioCtxRef := inputAudioCtxRef c;
     outputAudioCtxRef := outputAudioCtxRef c;
     nextStartTimeRef := nextStartTimeRef c;
     sourcesRef := sourcesRef c;
     isMutedRef := isMutedRef c;
     transcriptionRef := transcriptionRef c;
     nodesCreated := nodesCreated c;
     promises := promises c |}.

Definition set_inputAudioCtxRef (v : option AudioContext) (c : Component) : Component :=
  {| status := status c;
     transcriptions := transcriptions c;
     isMuted := isMuted c;
     isModelSpeaking := isModelSpeaking c;
     error := error c;
     sessionRef := sessionRef c;
     inputAudioCtxRef := v;
     outputAudioCtxRef := outputAudioCtxRef c;
     nextStartTimeRef := nextStartTimeRef c;
     sourcesRef := sourcesRef c;
     isMutedRef := isMutedRef c;
     transcriptionRef := transcriptionRef c;
     nodesCreated := nodesCreated c;
     promises := promises c |}.

Definition set_outputAudioCtxRef (v : option AudioContext) (c : Component) : Component :=
  {| status := status c;
     transcriptions := transcriptions c;
     isMuted := isMuted c;
     isModelSpeaking := isModelSpeaking c;
     error := error c;
     sessionRef := sessionRef c;
     inputAudioCtxRef := inputAudioCtxRef c;
     outputAudioCtxRef := v;
     nextStartTimeRef := nextStartTimeRef c;
     sourcesRef := sourcesRef c;
     isMutedRef := isMutedRef c;
     transcriptionRef := transcriptionRef c;
     nodesCreated := nodesCreated c;
     promises := promises c |}.

Definition set_nextStartTimeRef (v : Q) (c : Component) : Component :=
  {| status := status c;
     transcriptions := transcriptions c;
     isMuted := isMuted c;
     isModelSpeaking := isModelSpeaking c;
     error := error c;
     sessionRef := sessionRef c;
     inputAudioCtxRef := inputAudioCtxRef c;
     outputAudioCtxRef := outputAudioCtxRef c;
     nextStartTimeRef := v;
     sourcesRef := sourcesRef c;
     isMutedRef := isMutedRef c;
     transcriptionRef := transcriptionRef c;
     nodesCreated := nodesCreated c;
     promises := promises c |}.

Definition set_sourcesRef (v : list SourceNode) (c : Component) : Component :=
  {| status := status c;
     transcriptions := transcriptions c;
     isMuted := isMuted c;
     isModelSpeaking := isModelSpeaking c;
     error := error c;
     sessionRef := sessionRef c;
     inputAudioCtxRef := inputAudioCtxRef c;
     outputAudioCtxRef := outputAudioCtxRef c;
     nextStartTimeRef := nextStartTimeRef c;
     sourcesRef := v;
     isMutedRef := isMutedRef c;
     transcriptionRef := transcriptionRef c;
     nodesCreated := nodesCreated c;
     promises := promises c |}.

Definition set_isMutedRef (v : bool) (c : Component) : Component :=
  {| status := status c;
     transcriptions := transcriptions c;
     isMuted := isMuted c;
     isModelSpeaking := isModelSpeaking c;
     error := error c;
     sessionRef := sessionRef c;
     inputAudioCtxRef := inputAudioCtxRef c;
     outputAudioCtxRef := outputAudioCtxRef c;
     nextStartTimeRef := nextStartTimeRef c;
     sourcesRef := sourcesRef c;
     isMutedRef := v;
     transcriptionRef := transcriptionRef c;
     nodesCreated := nodesCreated c;
     promises := promises c |}.

Definition set_transcriptionRef (v : TranscriptionBuffers) (c : Component) : Component :=
  {| status := status c;
     transcriptions := transcriptions c;
     isMuted := isMuted c;
     isModelSpeaking := isModelSpeaking c;
     error := error c;
     sessionRef := sessionRef c;
     inputAudioCtxRef := inputAudioCtxRef c;
     outputAudioCtxRef := outputAudioCtxRef c;
     nextStartTimeRef := nextStartTimeRef c;
     sourcesRef := sourcesRef c;
     isMutedRef := isMutedRef c;
     transcriptionRef := v;
     nodesCreated := nodesCreated c;
     promises := promises c |}.

Definition set_nodesCreated (v : nat) (c : Component) : Component :=
  {| status := status c;
     transcriptions := transcriptions c;
     isMuted := isMuted c;
     isModelSpeaking := isModelSpeaking c;
     error := error c;
     sessionRef := sessionRef c;
     inputAudioCtxRef := inputAudioCtxRef c;
     outputAudioCtxRef := outputAudioCtxRef c;
     nextStartTimeRef := nextStartTimeRef c;
     sourcesRef := sourcesRef c;
     isMutedRef := isMutedRef c;
     transcriptionRef := transcriptionRef c;
     nodesCreated := v;
     promises := promises c |}.

Definition set_promises (v : SessionPromises) (c : Component) : Component :=
  {| status := status c;
     transcriptions := transcriptions c;
     isMuted := isMuted c;
     isModelSpeaking := isModelSpeaking c;
     error := error c;
     sessionRef := sessionRef c;
     inputAudioCtxRef := inputAudioCtxRef c;
     outputAudioCtxRef := outputAudioCtxRef c;
     nextStartTimeRef := nextStartTimeRef c;
     sourcesRef := sourcesRef c;
     isMutedRef := isMutedRef c;
     transcriptionRef := transcriptionRef c;
     nodesCreated := nodesCreated c;
     promises := v |}.

(** ** Handlers: state, a trace of platform calls, and exceptions

    A handler runs on the current cells, may throw, and leaves the calls it
    made on the platform.  A state setter ([setStatus] and the like) is a
    write to its cell: of two writes in one handler the last one is what
    the next render shows. *)

Definition M (A : Type) : Type :=
  Component -> result A * Component * list Effect.

Definition ret {A} (a : A) : M A := fun c => (Ok a, c, []).

Definition bind {A B} (m : M A) (k : A -> M B) : M B :=
  fun c =>
    match m c with
    | (Ok a, c1, t1) =>
        match k a c1 with
        | (r, c2, t2) => (r, c2, t1 ++ t2)
        end
    | (Throw e, c1, t1) => (Throw e, c1, t1)
    end.

Notation "x <- m ;; k" := (bind m (fun x => k))
  (at level 61, m at next level, right associativity).
Notation "m ;; k" := (bind m (fun _ => k))
  (at level 61, right associativity).

Definition get : M Component := fun c => (Ok c, c, []).
Definition modify (f : Component -> Component) : M unit :=
  fun c => (Ok tt, f c, []).
Definition emit (e : Effect) : M unit := fun c => (Ok tt, c, [e]).
Definition throw {A} (e : Exn) : M A := fun c => (Throw e, c, []).
Definition lift {A} (r : result A) : M A := fun c => (r, c, []).

(** [try { m } catch (e) {}] *)
Definition try_catch (m : M unit) : M unit :=
  fun c =>
    match m c with
    | (Throw _, c1, t1) => (Ok tt, c1, t1)
    | r => r
    end.

Fixpoint forEach {A} (l : list A) (f : A -> M unit) : M unit :=
  match l with
  | [] => ret tt
  | x :: r => f x ;; forEach r f
  end.

(** The platform calls the code guards. *)
Definition session_close (s : Session) : M unit :=
  emit (SessionClose s) ;;
  if close_throws s then throw (ThrownBy "session.close") else ret tt.

Definition source_stop (n : SourceNode) : M unit :=
  emit (SourceStop n) ;;
  if stop_throws n then throw (ThrownBy "source.stop") else ret tt.

(** [ctx.close().catch(() => {})]: the rejection, if any, is swallowed. *)
Definition context_close (c : AudioContext) : M unit :=
  emit (ContextClose c).

(** [outputCtx.createBufferSource()] with [source.buffer = b] *)
Definition createBufferSource (b : AudioBuffer) : M SourceNode :=
  c <- get ;;
  modify (set_nodesCreated (S (nodesCreated c))) ;;
  ret {| node_id := nodesCreated c; buffer := b; stop_throws := false |}.

(** The session promise of a call.  [ai.live.connect(...)] returns a new
    one: pending, with no callback on it. *)
Definition of_session (s : Session) (x : Session * Blob) : bool :=
  (session_id (fst x) =? session_id s)%nat.

Definition settled (s : Session) (l : list nat) : bool :=
  existsb (Nat.eqb (session_id s)) l.

Definition promise_new (s : Session) : M unit :=
  modify (fun c =>
    set_promises
      {| fulfilled := filter (fun n => negb (session_id s =? n)%nat)
                             (fulfilled (promises c));
         rejected := filter (fun n => negb (session_id s =? n)%nat)
                            (rejected (promises c));
         waiting := filter (fun x => negb (of_session s x))
                           (waiting (promises c)) |} c).

(** [sessionPromise.then((session) => { if (session)
    session.sendRealtimeInput({ media }) }).catch(() => {})]: on a
    fulfilled promise the callback runs as soon as the caller returns, on
    a rejected one it never runs, on a pending one it waits. *)
Definition promise_then_send (s : Session) (media : Blob) : M unit :=
  c <- get ;;
  if settled s (fulfilled (promises c)) then emit (SendRealtimeInput s media)
  else if settled s (rejected (promises c)) then ret tt
  else
    modify (fun c =>
      set_promises
        {| fulfilled := fulfilled (promises c);
           rejected := rejected (promises c);
           waiting := waiting (promises c) ++ [(s, media)] |} c).

(** The promise is fulfilled: the callbacks that wait on it run, in the
    order in which they were added. *)
Definition promise_fulfil (s : Session) : M unit :=
  c <- get ;;
  forEach (filter (of_session s) (waiting (promises c)))
          (fun x => emit (SendRealtimeInput (fst x) (snd x))) ;;
  modify (fun c =>
    set_promises
      {| fulfilled := session_id s :: fulfilled (promises c);
         rejected := rejected (promises c);
         waiting := filter (fun x => negb (of_session s x))
                           (waiting (promises c)) |} c).

(** The promise is rejected: the callbacks that wait on it are dropped. *)
Definition promise_reject (s : Session) : M unit :=
  modify (fun c =>
    set_promises
      {| fulfilled := fulfilled (promises c);
         rejected := session_id s :: rejected (promises c);
         waiting := filter (fun x => negb (of_session s x))
                           (waiting (promises c)) |} c).

(** A [Set] of nodes, in insertion order. *)
Definition same_node (a b : SourceNode) : bool :=
  (node_id a =? node_id b)%nat.
Definition Set_add (n : SourceNode) (l : list SourceNode) :=
  if existsb (same_node n) l then l else l ++ [n].
Definition Set_delete (n : SourceNode) (l : list SourceNode) :=
  filter (fun m => negb (same_node n m)) l.

(** [array.slice(-n)]: the last [n] elements. *)
Definition slice_last {A} (n : nat) (l : list A) : list A :=
  skipn (List.length l - n) l.

(** Truthiness of a string. *)
Definition truthy (s : string) : bool :=
  match s with EmptyString => false | _ => true end.

(** What a handler reads of a server message: the values of the optional
    chains it evaluates.  [audio] is
    [message.serverContent?.modelTurn?.parts[0]?.inlineData?.data]; a
    transcription object may come without its [text]. *)
Record LiveServerMessage : Type := {
  audio : option string;
  interrupted : bool;
  inputTranscription : option (option string);
  outputTranscription : option (option string);
  turnComplete : bool
}.

(** What one call's callbacks close over. *)
Record CallClosure : Type := {
  inputCtx : AudioContext;
  outputCtx : AudioContext;
  session : Session;            (* what [ai.live.connect] resolves to *)
  closure_isMuted : bool        (* App.tsx: [isMuted] of the render that
                                   made this [startCall] *)
}.

(** What the platform answers to one [startCall]. *)
Record StartEnv : Type := {
  apiKey : option string;       (* import.meta.env.VITE_GEMINI_API_KEY *)
  new_inputCtx : AudioContext;
  new_outputCtx : AudioContext;
  getUserMedia_error : option string;  (* [None]: the stream is granted;
                                          [Some m]: rejected, message [m] *)
  new_session : Session
}.

(** The audio branch of [onmessage], the same text in both copies. *)
Definition onmessage_audio (now : Q) (m : LiveServerMessage) : M unit :=
  match audio m with
  | Some base64Audio =>
      if truthy base64Audio then
        modify (set_isModelSpeaking true) ;;
        audioBytes <- lift (Base64.decode base64Audio) ;;
        buffer <- lift (decodeAudioData audioBytes 24000 1) ;;
        audioSource <- createBufferSource buffer ;;
        modify (fun c =>
                  set_nextStartTimeRef (Qmax (nextStartTimeRef c) now) c) ;;
        c <- get ;;
        emit (SourceStart audioSource (nextStartTimeRef c)) ;;
        modify (fun c =>
                  set_nextStartTimeRef
                    (nextStartTimeRef c + duration buffer) c) ;;
        modify (fun c => set_sourcesRef (Set_add audioSource (sourcesRef c)) c)
      else ret tt
  | None => ret tt
  end.

(** [audioSource.onended] *)
Definition onended (audioSource : SourceNode) : M unit :=
  modify (fun c => set_sourcesRef (Set_delete audioSource (sourcesRef c)) c) ;;
  c <- get ;;
  match sourcesRef c with
  | [] => modify (set_isModelSpeaking false)
  | _ => ret tt
  end.

(** The [interrupted] branch of [onmessage], the same text in both copies. *)
Definition onmessage_interrupted (m : LiveServerMessage) : M unit :=
  if interrupted m then
    c <- get ;;
    forEach (sourcesRef c) (fun s => try_catch (source_stop s)) ;;
    modify (set_sourcesRef []) ;;
    modify (set_nextStartTimeRef 0) ;;
    modify (set_isModelSpeaking false)
  else ret tt.

(** The three parts of one run of a handler. *)
Definition outcome {A} (m : M A) (c : Component) : result A := fst (fst (m c)).
Definition final {A} (m : M A) (c : Component) : Component := snd (fst (m c)).
Definition effects {A} (m : M A) (c : Component) : list Effect := snd (m c).

(** ** Reading a trace *)

Definition opt_effect {A} (f : A -> Effect) (o : option A) : list Effect :=
  match o with Some a => [f a] | None => [] end.

(** One full release of what the refs hold: the session closed, every
    playing source stopped, both audio contexts closed. *)
Definition releases (c : Component) : list Effect :=
  opt_effect SessionClose (sessionRef c)
  ++ map SourceStop (sourcesRef c)
  ++ opt_effect ContextClose (inputAudioCtxRef c)
  ++ opt_effect ContextClose (outputAudioCtxRef c).

Definition session_close_fails (c : Component) : bool :=
  match sessionRef c with Some s => close_throws s | None => false end.

(** The times at which sources were started, and the sends. *)
Definition starts (t : list Effect) : list Q :=
  flat_map (fun e => match e with SourceStart _ w => [w] | _ => [] end) t.

Definition sends (t : list Effect) : list (Session * Blob) :=
  flat_map (fun e => match e with
                     | SendRealtimeInput s b => [(s, b)]
                     | _ => []
                     end) t.

(** The buffer a message's audio decodes to, when it carries a chunk that
    decodes. *)
Definition chunk_buffer (m : LiveServerMessage) : option AudioBuffer :=
  match audio m with
  | Some base64Audio =>
      if truthy base64Audio then
        match Base64.decode base64Audio with
        | Ok audioBytes =>
            match decodeAudioData audioBytes 24000 1 with
            | Ok b => Some b
            | Throw _ => None
            end
        | Throw _ => None
        end
      else None
  | None => None
  end.

Definition chunk_duration (m : LiveServerMessage) : Q :=
  match chunk_buffer m with Some b => duration b | None => 0 end.

(** The node [createBufferSource] hands out for buffer [b], and the
    component once that node has been scheduled at clock time [now]. *)
Definition new_node (b : AudioBuffer) (c : Component) : SourceNode :=
  {| node_id := nodesCreated c; buffer := b; stop_throws := false |}.

Definition scheduled (now : Q) (b : AudioBuffer) (c : Component)
  : Component :=
  {| status := status c; transcriptions := transcriptions c;
     isMuted := isMuted c; isModelSpeaking := true; error := error c;
     sessionRef := sessionRef c; inputAudioCtxRef := inputAudioCtxRef c;
     outputAudioCtxRef := outputAudioCtxRef c;
     nextStartTimeRef := Qmax (nextStartTimeRef c) now + duration b;
     sourcesRef := Set_add (new_node b c) (sourcesRef c);
     isMutedRef := isMutedRef c; transcriptionRef := transcriptionRef c;
     nodesCreated := S (nodesCreated c);
     promises := promises c |}.

(** An inbound audio chunk: a message whose audio decodes and that does
    not interrupt. *)
Definition is_chunk (m : LiveServerMessage) : bool :=
  match chunk_buffer m with Some _ => negb (interrupted m) | None => false end.

(** A chunk of a given duration, tested in one pass. *)
Definition chunk_check (m : LiveServerMessage) (d : Q) : bool :=
  match chunk_buffer m with
  | Some b => negb (interrupted m) && Qeq_bool (duration b) d
  | None => false
  end.

(** The scheduling rule in the words of the design: each chunk, arriving at
    clock time [now] with duration [d], starts at [max nextStart now] and
    moves the cursor to that start plus [d]. *)
Fixpoint spec_schedule (nextStart : Q) (chunks : list (Q * Q)) : list Q :=
  match chunks with
  | [] => []
  | (now, d) :: rest =>
      let start := Qmax nextStart now in
      start :: spec_schedule (start + d) rest
  end.

Fixpoint spec_cursor (nextStart : Q) (chunks : list (Q * Q)) : Q :=
  match chunks with
  | [] => nextStart
  | (now, d) :: rest => spec_cursor (Qmax nextStart now + d) rest
  end.

(** The component once a teardown has gone through; App.tsx also empties
    its two transcription buffers. *)
Definition cleaned (reset_buffers : bool) (c : Component) : Component :=
  {| status := ENDED; transcriptions := []; isMuted := isMuted c;
     isModelSpeaking := false; error := error c; sessionRef := None;
     inputAudioCtxRef := None; outputAudioCtxRef := None;
     nextStartTimeRef := 0; sourcesRef := []; isMutedRef := isMutedRef c;
     transcriptionRef :=
       if reset_buffers then {| buf_user := ""; buf_model := "" |}
       else transcriptionRef c;
     nodesCreated := nodesCreated c;
     promises := promises c |}.

(** ** The event loop *)

(** One copy of the component: its handlers, what a render adds to them,
    and which controls its markup offers in which status. *)
Record Handlers : Type := {
  h_startCall : StartEnv -> M (option CallClosure);
  h_connectResolved : CallClosure -> M unit;
  h_connectRejected : CallClosure -> string -> M unit;
  h_onopen : CallClosure -> M unit;
  h_onaudioprocess : CallClosure -> list sample -> M unit;
  h_onmessage : CallClosure -> Q -> Z -> LiveServerMessage -> M unit;
  h_onerror : M unit;
  h_onclose : M unit;
  h_cleanupCall : M unit;
  h_render : Component -> Component;
  start_offered : CallStatus -> bool;
  mute_offered : CallStatus -> bool;
  end_offered : CallStatus -> bool
}.

(** All callbacks run to completion on one loop.  [calls] are the calls
    whose callbacks [ai.live.connect] holds, [opened] those whose capture
    node is installed, [timers] the pending [setTimeout] callbacks and
    [trace] every platform call made so far. *)
Record Config : Type := {
  comp : Component;
  calls : list CallClosure;
  opened : list CallClosure;
  timers : nat;
  trace : list Effect
}.

Definition start : Config :=
  {| comp := initial; calls := []; opened := []; timers := 0; trace := [] |}.

Inductive Event : Type :=
| ClickStart (env : StartEnv)
| ConnectResolved (call : CallClosure)
| ConnectRejected (call : CallClosure) (message : string)
| OnOpen (call : CallClosure)
| OnMessage (call : CallClosure) (now : Q) (dateNow : Z)
            (m : LiveServerMessage)
| OnError (call : CallClosure)
| OnClose (call : CallClosure)
| AudioProcess (call : CallClosure) (inputData : list sample)
| SourceEnded (n : SourceNode)
| ClickMute
| ClickEndCall
| TimerFires.

Definition is_timeout (e : Effect) : bool :=
  match e with SetTimeoutIdle => true | _ => false end.

Definition same_call (a b : CallClosure) : bool :=
  (session_id (session a) =? session_id (session b))%nat.

(** Run a handler; the component re-renders once it returns.  An exception
    that leaves a handler is reported by the platform and the loop goes on. *)
Definition dispatch {A} (H : Handlers) (h : M A) (cfg : Config)
  : option A * Config :=
  match h (comp cfg) with
  | (r, c, t) =>
      (match r with Ok a => Some a | Throw _ => None end,
       {| comp := h_render H c;
          calls := calls cfg;
          opened := opened cfg;
          timers := timers cfg + List.length (filter is_timeout t);
          trace := trace cfg ++ t |})
  end.

Definition step (H : Handlers) (cfg : Config) (ev : Event) : Config :=
  match ev with
  | ClickStart env =>
      if start_offered H (status (comp cfg)) then
        match dispatch H (h_startCall H env) cfg with
        | (Some (Some call), cfg1) =>
            {| comp := comp cfg1; calls := calls cfg1 ++ [call];
               opened := opened cfg1; timers := timers cfg1;
               trace := trace cfg1 |}
        | (_, cfg1) => cfg1
        end
      else cfg
  | ConnectResolved call =>
      if existsb (same_call call) (calls cfg)
      then snd (dispatch H (h_connectResolved H call) cfg) else cfg
  | ConnectRejected call message =>
      if existsb (same_call call) (calls cfg)
      then snd (dispatch H (h_connectRejected H call message) cfg) else cfg
  | OnOpen call =>
      if existsb (same_call call) (calls cfg) then
        let cfg1 := snd (dispatch H (h_onopen H call) cfg) in
        {| comp := comp cfg1; calls := calls cfg1;
           opened := opened cfg1 ++ [call]; timers := timers cfg1;
           trace := trace cfg1 |}
      else cfg
  | OnMessage call now dateNow m =>
      if existsb (same_call call) (calls cfg)
      then snd (dispatch H (h_onmessage H call now dateNow m) cfg) else cfg
  | OnError call =>
      if existsb (same_call call) (calls cfg)
      then snd (dispatch H (h_onerror H) cfg) else cfg
  | OnClose call =>
      if existsb (same_call call) (calls cfg)
      then snd (dispatch H (h_onclose H) cfg) else cfg
  | AudioProcess call inputData =>
      if existsb (same_call call) (opened cfg)
      then snd (dispatch H (h_onaudioprocess H call inputData) cfg) else cfg
  | SourceEnded n => snd (dispatch H (onended n) cfg)
  | ClickMute =>
      if mute_offered H (status (comp cfg))
      then snd (dispatch H
                  (modify (fun c => set_isMuted (negb (isMuted c)) c)) cfg)
      else cfg
  | ClickEndCall =>
      if end_offered H (status (comp cfg))
      then snd (dispatch H (h_cleanupCall H) cfg) else cfg
  | TimerFires =>
      match timers cfg with
      | O => cfg
      | S k =>
          let cfg1 := snd (dispatch H (modify (set_status IDLE)) cfg) in
          {| comp := comp cfg1; calls := calls cfg1; opened := opened cfg1;
             timers := k; trace := trace cfg1 |}
      end
  end.

Definition run (H : Handlers) (cfg : Config) (evs : list Event) : Config :=
  fold_left (step H) evs cfg.

(** The statuses the component goes through along a run, oldest first. *)
Fixpoint statuses (H : Handlers) (cfg : Config) (evs : list Event)
  : list CallStatus :=
  match evs with
  | [] => [status (comp cfg)]
  | ev :: evs' => status (comp cfg) :: statuses H (step H cfg ev) evs'
  end.

(** Messages as they come in: the playback clock and the wall clock at
    arrival, and the message. *)
Definition inbound_events (call : CallClosure)
  (inbound : list (Q * Z * LiveServerMessage)) : list Event :=
  map (fun x => OnMessage call (fst (fst x)) (snd (fst x)) (snd x)) inbound.

(** Arrival time and duration of each chunk. *)
Definition arrivals (inbound : list (Q * Z * LiveServerMessage))
  : list (Q * Q) :=
  map (fun x => (fst (fst x), chunk_duration (snd x))) inbound.

(** Sessions that were connected and not closed since. *)
Definition session_eqb (a b : Session) : bool :=
  (session_id a =? session_id b)%nat.

Fixpoint live_sessions (t : list Effect) (live : list Session)
  : list Session :=
  match t with
  | [] => live
  | LiveConnect s :: t' => live_sessions t' (live ++ [s])
  | SessionClose s :: t' =>
      live_sessions t' (filter (fun x => negb (session_eqb s x)) live)
  | _ :: t' => live_sessions t' live
  end.

End Call.

(* ================================================================== *)
(** * The copy in frontend-react/src/pages/VoiceAgent.jsx *)

Module VoiceAgent.

Import Pcm Call.

(** [const cleanupCall = useCallback(() => { ... }, [])] *)
Definition cleanupCall : M unit :=
  c <- get ;;
  match sessionRef c with
  | Some s => session_close s ;; modify (set_sessionRef None)
  | None => ret tt
  end ;;
  c <- get ;;
  forEach (sourcesRef c) (fun source => try_catch (source_stop source)) ;;
  modify (set_sourcesRef []) ;;
  c <- get ;;
  match inputAudioCtxRef c with
  | Some ctx => context_close ctx ;; modify (set_inputAudioCtxRef None)
  | None => ret tt
  end ;;
  c <- get ;;
  match outputAudioCtxRef c with
  | Some ctx => context_close ctx ;; modify (set_outputAudioCtxRef None)
  | None => ret tt
  end ;;
  modify (set_transcriptions []) ;;
  modify (set_nextStartTimeRef 0) ;;
  modify (set_status ENDED) ;;
  modify (set_isModelSpeaking false) ;;
  emit SetTimeoutIdle.

(** [startCall], from the click to the call of [ai.live.connect]; the
    awaits on the way (the dynamic import, [getUserMedia]) are taken to
    settle before the next event is delivered.  The callbacks it registers
    are the handlers below, closed over the result. *)
Definition startCall (env : StartEnv) : M (option CallClosure) :=
  modify (set_status CONNECTING) ;;
  modify (set_error "") ;;
  if negb (match apiKey env with Some k => truthy k | None => false end) then
    modify (set_error
      "VITE_GEMINI_API_KEY not configured. Add it to frontend-react/.env") ;;
    modify (set_status ERROR) ;;
    ret None
  else
    modify (set_inputAudioCtxRef (Some (new_inputCtx env))) ;;
    modify (set_outputAudioCtxRef (Some (new_outputCtx env))) ;;
    match getUserMedia_error env with
    | None =>
        emit (LiveConnect (new_session env)) ;;
        c <- get ;;
        ret (Some {| inputCtx := new_inputCtx env;
                     outputCtx := new_outputCtx env;
                     session := new_session env;
                     closure_isMuted := isMuted c |})
    | Some message =>
        (* catch (err) *)
        emit ConsoleError ;;
        modify (set_error (if truthy message then message
                           else "Failed to connect")) ;;
        modify (set_status ERROR) ;;
        ret None
    end.

(** [sessionRef.current = session], once [connect] has resolved *)
Definition connectResolved (call : CallClosure) : M unit :=
  modify (set_sessionRef (Some (session call))).

(** the [catch] of [startCall], when [connect] rejects *)
Definition connectRejected (call : CallClosure) (message : string) : M unit :=
  emit ConsoleError ;;
  modify (set_error (if truthy message then message
                     else "Failed to connect")) ;;
  modify (set_status ERROR).

Definition onopen (call : CallClosure) : M unit :=
  modify (set_status ACTIVE).

(** [scriptProcessor.onaudioprocess] *)
Definition onaudioprocess (call : CallClosure) (inputData : list sample)
  : M unit :=
  c <- get ;;
  if isMutedRef c then ret tt
  else
    let pcmBlob := createPcmBlob inputData in
    match sessionRef c with
    | Some s => emit (SendRealtimeInput s pcmBlob)
    | None => ret tt
    end.

(** The updater [(prev) => [...prev.slice(-19), entry]]: one entry per
    delta that carries text. *)
Definition append_one (entry : TranscriptionEntry)
  (prev : list TranscriptionEntry) : list TranscriptionEntry :=
  slice_last 19 prev ++ [entry].

Definition append_entry (r : Role) (t : string) (dateNow : Z) : M unit :=
  modify (fun c =>
    set_transcriptions
      (append_one {| role := r; text := t; timestamp := dateNow |}
                  (transcriptions c)) c).

(** The log once the deltas of one message are in: the user's first, then
    the model's, each only if it carries text. *)
Definition with_deltas (dateNow : Z) (m : LiveServerMessage)
  (prev : list TranscriptionEntry) : list TranscriptionEntry :=
  let prev1 :=
    match inputTranscription m with
    | Some (Some t) =>
        if truthy t
        then append_one {| role := user; text := t; timestamp := dateNow |}
                        prev
        else prev
    | _ => prev
    end in
  match outputTranscription m with
  | Some (Some t) =>
      if truthy t
      then append_one {| role := model; text := t; timestamp := dateNow |}
                      prev1
      else prev1
  | _ => prev1
  end.

(** The transcription branches of [onmessage]. *)
Definition onmessage_transcription (dateNow : Z) (m : LiveServerMessage)
  : M unit :=
  match inputTranscription m with
  | Some (Some t) => if truthy t then append_entry user t dateNow else ret tt
  | _ => ret tt
  end ;;
  match outputTranscription m with
  | Some (Some t) => if truthy t then append_entry model t dateNow else ret tt
  | _ => ret tt
  end.

Definition onmessage (call : CallClosure) (now : Q) (dateNow : Z)
  (m : LiveServerMessage) : M unit :=
  onmessage_audio now m ;;
  onmessage_interrupted m ;;
  onmessage_transcription dateNow m.

Definition onerror : M unit :=
  emit ConsoleError ;;
  modify (set_error "Connection error. Please try again.") ;;
  modify (set_status ERROR) ;;
  cleanupCall.

Definition onclose : M unit := cleanupCall.

(** Each render runs [isMutedRef.current = isMuted]. *)
Definition render (c : Component) : Component :=
  set_isMutedRef (isMuted c) c.

(** The markup: Mute and End Call while ACTIVE; otherwise the start button
    for IDLE and ENDED, nothing while CONNECTING, and Try Again (also
    [startCall]) for ERROR. *)
Definition handlers : Handlers :=
  {| h_startCall := startCall;
     h_connectResolved := connectResolved;
     h_connectRejected := connectRejected;
     h_onopen := onopen;
     h_onaudioprocess := onaudioprocess;
     h_onmessage := onmessage;
     h_onerror := onerror;
     h_onclose := onclose;
     h_cleanupCall := cleanupCall;
     h_render := render;
     start_offered := fun st =>
       match st with IDLE | ENDED | ERROR => true | _ => false end;
     mute_offered := fun st => CallStatus_eqb st ACTIVE;
     end_offered := fun st => CallStatus_eqb st ACTIVE |}.

End VoiceAgent.

(* ================================================================== *)
(** * The copy in the stand-alone App.tsx *)

Module App.

Import Pcm Call.

Definition cleanupCall : M unit :=
  c <- get ;;
  match sessionRef c with
  | Some s => session_close s ;; modify (set_sessionRef None)
  | None => ret tt
  end ;;
  c <- get ;;
  forEach (sourcesRef c) (fun source => try_catch (source_stop source)) ;;
  modify (set_sourcesRef []) ;;
  c <- get ;;
  match inputAudioCtxRef c with
  | Some ctx => context_close ctx ;; modify (set_inputAudioCtxRef None)
  | None => ret tt
  end ;;
  c <- get ;;
  match outputAudioCtxRef c with
  | Some ctx => context_close ctx ;; modify (set_outputAudioCtxRef None)
  | None => ret tt
  end ;;
  modify (set_transcriptions []) ;;
  modify (set_transcriptionRef {| buf_user := ""; buf_model := "" |}) ;;
  modify (set_nextStartTimeRef 0) ;;
  modify (set_status ENDED) ;;
  modify (set_isModelSpeaking false) ;;
  emit SetTimeoutIdle.

(** [startCall], from the click to the call of [ai.live.connect]; the API
    key goes to the client unchecked. *)
Definition startCall (env : StartEnv) : M (option CallClosure) :=
  modify (set_status CONNECTING) ;;
  modify (set_inputAudioCtxRef (Some (new_inputCtx env))) ;;
  modify (set_outputAudioCtxRef (Some (new_outputCtx env))) ;;
  match getUserMedia_error env with
  | None =>
      (* const sessionPromise = ai.live.connect(...) *)
      emit (LiveConnect (new_session env)) ;;
      promise_new (new_session env) ;;
      c <- get ;;
      ret (Some {| inputCtx := new_inputCtx env;
                   outputCtx := new_outputCtx env;
                   session := new_session env;
                   closure_isMuted := isMuted c |})
  | Some _ =>
      (* catch (err) *)
      emit ConsoleError ;;
      modify (set_status ERROR) ;;
      cleanupCall ;;
      ret None
  end.

(** [sessionRef.current = await sessionPromise]: the assignment was the
    first to wait on the promise, the sends of the capture callback come
    after it. *)
Definition connectResolved (call : CallClosure) : M unit :=
  modify (set_sessionRef (Some (session call))) ;;
  promise_fulfil (session call).

(** The promise rejects: the [await] throws into the [catch] of
    [startCall]. *)
Definition connectRejected (call : CallClosure) (message : string) : M unit :=
  promise_reject (session call) ;;
  emit ConsoleError ;;
  modify (set_status ERROR) ;;
  cleanupCall.

Definition onopen (call : CallClosure) : M unit :=
  modify (set_status ACTIVE).

(** Modelled from the spec: App.tsx imports [createPcmBlob], [decode] and
    [decodeAudioData] from ./utils/audioUtils, which is not among the
    sources.  They are taken to be the functions of the same names in
    VoiceAgent.jsx, which do what the design asks of the codec (multiply
    by 32768 and store in sixteen bits, divide by 32768); the shared audio
    branch [onmessage_audio] uses them for this copy too. *)
Definition createPcmBlob (samples : list sample) : Blob :=
  Pcm.createPcmBlob samples.

(** [scriptProcessor.onaudioprocess]: [isMuted] is the constant of the
    render whose [startCall] built this callback; the send goes through
    [sessionPromise], the promise of this very call, and happens once that
    promise is fulfilled. *)
Definition onaudioprocess (call : CallClosure) (inputData : list sample)
  : M unit :=
  if closure_isMuted call then ret tt
  else
    let pcmBlob := createPcmBlob inputData in
    promise_then_send (session call) pcmBlob.

(** [buffer += text]; a missing [text] is appended as the word the
    language prints for it. *)
Definition js_append (s : string) (t : option string) : string :=
  (s ++ match t with Some x => x | None => "undefined" end)%string.

(** The two buffers once the deltas of one message are in. *)
Definition accumulate (bufs : TranscriptionBuffers) (m : LiveServerMessage)
  : TranscriptionBuffers :=
  {| buf_user :=
       match inputTranscription m with
       | Some t => js_append (buf_user bufs) t
       | None => buf_user bufs
       end;
     buf_model :=
       match outputTranscription m with
       | Some t => js_append (buf_model bufs) t
       | None => buf_model bufs
       end |}.

(** The entries a finished turn adds, and the updater
    [(prev) => [...prev, ...newEntries].slice(-20)]. *)
Definition newEntries (dateNow : Z) (uText mText : string)
  : list TranscriptionEntry :=
  (if truthy uText
   then [{| role := user; text := uText; timestamp := dateNow |}]
   else [])
  ++ (if truthy mText
      then [{| role := model; text := mText; timestamp := dateNow |}]
      else []).

Definition append_turn (entries prev : list TranscriptionEntry)
  : list TranscriptionEntry :=
  slice_last 20 (prev ++ entries).

(** The transcription and turn-complete branches of [onmessage]. *)
Definition onmessage_transcription (dateNow : Z) (m : LiveServerMessage)
  : M unit :=
  match inputTranscription m with
  | Some t =>
      modify (fun c =>
        set_transcriptionRef
          {| buf_user := js_append (buf_user (transcriptionRef c)) t;
             buf_model := buf_model (transcriptionRef c) |} c)
  | None => ret tt
  end ;;
  match outputTranscription m with
  | Some t =>
      modify (fun c =>
        set_transcriptionRef
          {| buf_user := buf_user (transcriptionRef c);
             buf_model := js_append (buf_model (transcriptionRef c)) t |} c)
  | None => ret tt
  end ;;
  if turnComplete m then
    c <- get ;;
    let uText := buf_user (transcriptionRef c) in
    let mText := buf_model (transcriptionRef c) in
    (if truthy uText || truthy mText then
       modify (fun c =>
         set_transcriptions
           (append_turn (newEntries dateNow uText mText) (transcriptions c)) c)
     else ret tt) ;;
    modify (set_transcriptionRef {| buf_user := ""; buf_model := "" |})
  else ret tt.

Definition onmessage (call : CallClosure) (now : Q) (dateNow : Z)
  (m : LiveServerMessage) : M unit :=
  onmessage_audio now m ;;
  onmessage_interrupted m ;;
  onmessage_transcription dateNow m.

Definition onerror : M unit :=
  emit ConsoleError ;;
  modify (set_status ERROR) ;;
  cleanupCall.

Definition onclose : M unit := cleanupCall.

(** The markup: the start button for IDLE and ENDED only; the mute button
    is disabled unless ACTIVE, the end button unless ACTIVE or CONNECTING. *)
Definition handlers : Handlers :=
  {| h_startCall := startCall;
     h_connectResolved := connectResolved;
     h_connectRejected := connectRejected;
     h_onopen := onopen;
     h_onaudioprocess := onaudioprocess;
     h_onmessage := onmessage;
     h_onerror := onerror;
     h_onclose := onclose;
     h_cleanupCall := cleanupCall;
     h_render := fun c => c;
     start_offered := fun st =>
       match st with IDLE | ENDED => true | _ => false end;
     mute_offered := fun st => CallStatus_eqb st ACTIVE;
     end_offered := fun st =>
       match st with ACTIVE | CONNECTING => true | _ => false end |}.

End App.

(* ================================================================== *)
(** * Concrete platform answers, for the examples *)

Module Demo.

Import Pcm Call.
Local Open Scope string_scope.

Definition demo_session (n : nat) : Session :=
  {| session_id := n; close_throws := false |}.

Definition demo_env (n : nat) : StartEnv :=
  {| apiKey := Some "key";
     new_inputCtx :=
       {| ctx_id := 2 * n; ctx_sampleRate := 16000; close_rejects := false |};
     new_outputCtx :=
       {| ctx_id := 2 * n + 1; ctx_sampleRate := 24000;
          close_rejects := false |};
     getUserMedia_error := None;
     new_session := demo_session n |}.

(** The closure [startCall] builds from [demo_env n] while unmuted. *)
Definition demo_call (n : nat) : CallClosure :=
  {| inputCtx := new_inputCtx (demo_env n);
     outputCtx := new_outputCtx (demo_env n);
     session := demo_session n;
     closure_isMuted := false |}.

(** A call brought up to ACTIVE with its session stored. *)
Definition connect (n : nat) : list Event :=
  [ClickStart (demo_env n); OnOpen (demo_call n);
   ConnectResolved (demo_call n)].

(** Hang up, start again within the second, let the pending timer fire,
    and start once more. *)
Definition restart_race : list Event :=
  connect 1
  ++ [ClickEndCall; ClickStart (demo_env 2); TimerFires;
      ClickStart (demo_env 3); OnOpen (demo_call 2);
      ConnectResolved (demo_call 2); OnOpen (demo_call 3);
      ConnectResolved (demo_call 3)].

(** A teardown whose session refuses to close. *)
Definition throwing_session : Session :=
  {| session_id := 1; close_throws := true |}.

Definition failing_teardown_state : Component :=
  set_inputAudioCtxRef (Some (new_inputCtx (demo_env 1)))
    (set_sessionRef (Some throwing_session) (set_status ACTIVE initial)).

(** Server messages. *)
Definition silent : LiveServerMessage :=
  {| audio := None; interrupted := false; inputTranscription := None;
     outputTranscription := None; turnComplete := false |}.


Definition user_delta (t : string) : LiveServerMessage :=
  {| audio := None; interrupted := false; inputTranscription := Some (Some t);
     outputTranscription := None; turnComplete := false |}.


Definition turn_complete : LiveServerMessage :=
  {| audio := None; interrupted := false; inputTranscription := None;
     outputTranscription := None; turnComplete := true |}.

(** A chunk of silence: [n] times the base64 character [A], six zero bits
    each; 32000 of them are 12000 frames, half a second at 24 kHz. *)
Definition silence (n : nat) : LiveServerMessage :=
  {| audio := Some (string_of_list_ascii (repeat "A"%char n));
     interrupted := false; inputTranscription := None;
     outputTranscription := None; turnComplete := false |}.

(** Three chunks of 0.5 s, 0.3 s and 0.4 s arriving at playback-clock times
    2, 2.1 and 2.9. *)
Definition three_chunks : list (Q * Z * LiveServerMessage) :=
  [(2%Q, 0%Z, silence 32000);
   ((2 + (1 # 10))%Q, 0%Z, silence 19200);
   ((2 + (9 # 10))%Q, 0%Z, silence 25600)].

End Demo.

(* ================================================================== *)
(** * Notions the properties are stated with *)

Module Notions.

Import Pcm Call.

(** Either copy of the component. *)
Definition copy (H : Handlers) : Prop :=
  H = VoiceAgent.handlers \/ H = App.handlers.

(** A relation between the state before and after a handler that holds
    whatever path the handler takes. *)
Definition respects (R : Component -> Component -> Prop) {A} (m : M A)
  : Prop :=
  forall c, R c (final m c).

(** A copy of the component all of whose handlers respect [R]; [onopen]
    is left to the caller. *)
Record Respectful (R : Component -> Component -> Prop) (H : Handlers)
  : Prop := {
  r_startCall : forall env, respects R (h_startCall H env);
  r_connectResolved : forall call, respects R (h_connectResolved H call);
  r_connectRejected : forall call msg,
    respects R (h_connectRejected H call msg);
  r_onaudioprocess : forall call d, respects R (h_onaudioprocess H call d);
  r_onmessage : forall call now dn m, respects R (h_onmessage H call now dn m);
  r_onerror : respects R (h_onerror H);
  r_onclose : respects R (h_onclose H);
  r_cleanupCall : respects R (h_cleanupCall H);
  r_onended : forall n, respects R (onended n);
  r_mute : forall c, R c (set_isMuted (negb (isMuted c)) c);
  r_idle : forall c, R c (set_status IDLE c);
  r_render : forall c, R c (h_render H c)
}.

(** No handler but [onopen] makes the status ACTIVE. *)
Definition no_new_active (c c' : Component) : Prop :=
  status c' = ACTIVE -> status c = ACTIVE.

(** A cell the handler leaves as it was. *)
Definition same {X} (f : Component -> X) (c c' : Component) : Prop :=
  f c' = f c.

(** Scheduling never drops a source from the set. *)
Definition sources_grow (c c' : Component) : Prop :=
  forall n, In n (sourcesRef c) -> In n (sourcesRef c').

(** The cap of the transcript log. *)
Definition cap_ok (c c' : Component) : Prop :=
  (List.length (transcriptions c) <= 20)%nat ->
  (List.length (transcriptions c') <= 20)%nat.

(** A handler that touches the transcript only: no platform call, no
    exception, the playback cells left alone. *)
Definition transcript_only (rest : M unit) : Prop :=
  (forall c, effects rest c = []) /\
  (forall c, outcome rest c = Ok tt) /\
  respects (same sourcesRef) rest /\
  respects (same nextStartTimeRef) rest /\
  respects (same isModelSpeaking) rest.

(** [btoa_units] without its padding signs: what [atob] decodes after the
    padding has been removed. *)
Fixpoint unpadded (l : list N) : list ascii :=
  match l with
  | [] => []
  | [a] => [Base64.b64_char (a / 4); Base64.b64_char ((a mod 4) * 16)]
  | [a; b] =>
      [Base64.b64_char (a / 4); Base64.b64_char ((a mod 4) * 16 + b / 16);
       Base64.b64_char ((b mod 16) * 4)]
  | a :: b :: c :: rest =>
      Base64.b64_char (a / 4) :: Base64.b64_char ((a mod 4) * 16 + b / 16)
      :: Base64.b64_char ((b mod 16) * 4 + c / 64)
      :: Base64.b64_char (c mod 64)
      :: unpadded rest
  end%N.

Definition octet (a : N) : Prop := (a < 256)%N.

(** Sources queued one behind the other: each starts no earlier than the
    end of the one before it ([prev_end]) and no earlier than its own
    arrival, exactly at that end when it arrived by then and exactly at
    its arrival when it came later. *)
Fixpoint queued (prev_end : Q) (chunks : list (Q * Q)) (started : list Q)
  : Prop :=
  match chunks, started with
  | [], [] => True
  | (now, d) :: chunks', s :: started' =>
      (prev_end <= s /\ now <= s /\
       (now <= prev_end -> s == prev_end) /\
       (prev_end <= now -> s == now))%Q /\
      queued (s + d) chunks' started'
  | _, _ => False
  end.

(** The handler an event runs, when the loop lets it run. *)
Definition handler (H : Handlers) (ev : Event) : M unit :=
  match ev with
  | ClickStart env => h_startCall H env ;; ret tt
  | ConnectResolved call => h_connectResolved H call
  | ConnectRejected call message => h_connectRejected H call message
  | OnOpen call => h_onopen H call
  | OnMessage call now dateNow m => h_onmessage H call now dateNow m
  | OnError _ => h_onerror H
  | OnClose _ => h_onclose H
  | AudioProcess call inputData => h_onaudioprocess H call inputData
  | SourceEnded n => onended n
  | ClickMute => modify (fun c => set_isMuted (negb (isMuted c)) c)
  | ClickEndCall => h_cleanupCall H
  | TimerFires => modify (set_status IDLE)
  end.

(** A property of the cells that a handler does not break. *)
Definition keeps (P : Component -> Prop) (c c' : Component) : Prop :=
  P c -> P c'.

(** While a source is in the playback set the speaking indicator is on. *)
Definition indicator_ok (c : Component) : Prop :=
  sourcesRef c <> [] -> isModelSpeaking c = true.

(** Every entry of the transcript log carries text. *)
Definition texts_ok (c : Component) : Prop :=
  Forall (fun e => truthy (text e) = true) (transcriptions c).

(** An event that does not hand the component a session whose [close()]
    throws. *)
Definition closes_quietly (ev : Event) : Prop :=
  match ev with
  | ConnectResolved call => close_throws (session call) = false
  | _ => True
  end.

(** The ERROR display state is not showing and the stored session, if any,
    can be closed. *)
Definition no_error (c : Component) : Prop :=
  session_close_fails c = false /\ status c <> ERROR.


(** The audio of a message, if it carries any, decodes. *)
Definition audio_decodes (m : LiveServerMessage) : bool :=
  match audio m with
  | Some base64Audio =>
      if truthy base64Audio
      then match chunk_buffer m with Some _ => true | None => false end
      else true
  | None => true
  end.

(** The transcript log in the words of the design: entries are appended
    one by one and the log keeps the 20 most recent, the oldest going
    first. *)
Definition most_recent_20 (appended : list TranscriptionEntry)
  : list TranscriptionEntry :=
  skipn (List.length appended - 20) appended.

(** A message that carries one delta of text and nothing else, and the
    messages that bring a list of deltas, the wall clock at arrival being
    the entry's timestamp. *)
Definition delta_message (r : Role) (t : string) : LiveServerMessage :=
  {| audio := None; interrupted := false;
     inputTranscription :=
       match r with user => Some (Some t) | model => None end;
     outputTranscription :=
       match r with model => Some (Some t) | user => None end;
     turnComplete := false |}.

Definition delta_events (call : CallClosure)
  (deltas : list TranscriptionEntry) : list Event :=
  map (fun e => OnMessage call 0 (timestamp e)
                          (delta_message (role e) (text e))) deltas.

(** A turn: what the user said, what the model said (either may be
    empty), and the wall clock when the message that completes the turn
    arrives.  Its messages are the two deltas and the completion. *)
Definition turn_events (call : CallClosure) (t : Z * string * string)
  : list Event :=
  [OnMessage call 0 0 (delta_message user (snd (fst t)));
   OnMessage call 0 0 (delta_message model (snd t));
   OnMessage call 0 (fst (fst t))
     {| audio := None; interrupted := false; inputTranscription := None;
        outputTranscription := None; turnComplete := true |}].

(** The entries of a turn in the words of the design: one for each
    non-empty text, the user's first. *)
Definition turn_entries (t : Z * string * string) : list TranscriptionEntry :=
  (match snd (fst t) with
   | EmptyString => []
   | u => [{| role := user; text := u; timestamp := fst (fst t) |}]
   end)
  ++ (match snd t with
      | EmptyString => []
      | mo => [{| role := model; text := mo; timestamp := fst (fst t) |}]
      end).

End Notions.

Import Notions.

(* ================================================================== *)
(** * Facts about the base64 helpers *)

Section Base64Facts.

Import Base64.
Local Open Scope N_scope.

Lemma list_ind3 (A : Type) (P : list A -> Prop) :
  P [] -> (forall a, P [a]) -> (forall a b, P [a; b]) ->
  (forall a b c l, P l -> P (a :: b :: c :: l)) ->
  forall l, P l.
Proof.
  intros H0 H1 H2 H3. fix IH 1.
  intros [|a [|b [|c l]]]; [exact H0|apply H1|apply H2|apply H3, IH].
Qed.

(** Every index below 64 names a character that is neither white space nor
    the padding sign and that [b64_value] maps back to the index. *)
Lemma b64_char_spec n :
  n < 64 ->
  b64_value (b64_char n) = Some n /\
  is_ascii_whitespace (b64_char n) = false /\
  Ascii.eqb (b64_char n) pad = false.
Proof.
  intros H. destruct n as [|p]; [repeat split|].
  do 7 (try (destruct p as [p|p|]; [ | |repeat split])); lia.
Qed.

Lemma b64_value_char n : n < 64 -> b64_value (b64_char n) = Some n.
Proof. intros H; apply (b64_char_spec H). Qed.

Lemma b64_char_not_ws n : n < 64 -> is_ascii_whitespace (b64_char n) = false.
Proof. intros H; apply (b64_char_spec H). Qed.

Lemma b64_char_not_pad n : n < 64 -> Ascii.eqb (b64_char n) pad = false.
Proof. intros H; apply (b64_char_spec H). Qed.

Lemma remove_trailing_pad_cons c l :
  Ascii.eqb c pad = false ->
  remove_trailing_pad (c :: l) = c :: remove_trailing_pad l.
Proof.
  intros H. destruct l as [|d [|e l]]; simpl; try rewrite H; reflexivity.
Qed.

Lemma remove_trailing_pad_btoa l :
  Forall octet l -> remove_trailing_pad (btoa_units l) = unpadded l.
Proof.
  unfold octet.
  induction l as [|a|a b|a b c l IH] using list_ind3; intros Hl.
  - reflexivity.
  - inversion_clear Hl. cbn [btoa_units unpadded].
    rewrite !remove_trailing_pad_cons by (apply b64_char_not_pad; lia).
    reflexivity.
  - inversion_clear Hl as [|? ? ? Hb]. inversion_clear Hb.
    cbn [btoa_units unpadded].
    rewrite !remove_trailing_pad_cons by (apply b64_char_not_pad; lia).
    reflexivity.
  - inversion_clear Hl as [|? ? ? Hb]. inversion_clear Hb as [|? ? ? Hc].
    inversion_clear Hc. cbn [btoa_units unpadded].
    rewrite !remove_trailing_pad_cons by (apply b64_char_not_pad; lia).
    rewrite IH by assumption. reflexivity.
Qed.

Lemma btoa_units_no_whitespace l :
  Forall octet l ->
  filter (fun c => negb (is_ascii_whitespace c)) (btoa_units l)
  = btoa_units l.
Proof.
  unfold octet.
  induction l as [|a|a b|a b c l IH] using list_ind3; intros Hl.
  - reflexivity.
  - inversion_clear Hl. cbn [btoa_units filter].
    rewrite !b64_char_not_ws by lia. reflexivity.
  - inversion_clear Hl as [|? ? ? Hb]. inversion_clear Hb.
    cbn [btoa_units filter].
    rewrite !b64_char_not_ws by lia. reflexivity.
  - inversion_clear Hl as [|? ? ? Hb]. inversion_clear Hb as [|? ? ? Hc].
    inversion_clear Hc. cbn [btoa_units filter].
    rewrite !b64_char_not_ws by lia. cbn [negb].
    rewrite IH by assumption. reflexivity.
Qed.

Lemma btoa_units_length l :
  exists k, List.length (btoa_units l) = (4 * k)%nat.
Proof.
  induction l as [|a|a b|a b c l [k IH]] using list_ind3.
  - exists 0%nat; reflexivity.
  - exists 1%nat; reflexivity.
  - exists 1%nat; reflexivity.
  - exists (S k). cbn [btoa_units List.length]. rewrite IH. lia.
Qed.

Lemma unpadded_length l :
  exists k, List.length (unpadded l) = (4 * k)%nat \/
            List.length (unpadded l) = (4 * k + 2)%nat \/
            List.length (unpadded l) = (4 * k + 3)%nat.
Proof.
  induction l as [|a|a b|a b c l [k IH]] using list_ind3.
  - exists 0%nat; auto.
  - exists 0%nat; auto.
  - exists 0%nat; auto.
  - exists (S k). cbn [unpadded List.length]. lia.
Qed.

(** The bit shuffling of one group: three octets, split into four sextets,
    come back unchanged. *)
Lemma atob_units_unpadded l :
  Forall octet l -> atob_units (unpadded l) = Some l.
Proof.
  unfold octet.
  induction l as [|a|a b|a b c l IH] using list_ind3; intros Hl.
  - reflexivity.
  - inversion_clear Hl. cbn [unpadded atob_units].
    rewrite !b64_value_char by lia. do 2 f_equal. lia.
  - inversion_clear Hl as [|? ? ? Hb]. inversion_clear Hb.
    cbn [unpadded atob_units].
    rewrite !b64_value_char by lia. do 2 f_equal; [lia|f_equal; lia].
  - inversion_clear Hl as [|? ? ? Hb]. inversion_clear Hb as [|? ? ? Hc].
    inversion_clear Hc. cbn [unpadded atob_units].
    rewrite !b64_value_char by lia. rewrite IH by assumption.
    do 2 f_equal; [lia|f_equal; [lia|f_equal; lia]].
Qed.

Lemma octets_of_string cs : Forall octet (map N_of_ascii cs).
Proof.
  apply Forall_forall. intros x Hx. apply in_map_iff in Hx.
  destruct Hx as [c [<- _]]. apply N_ascii_bounded.
Qed.

(** The platform pair is lossless on every binary string. *)
Lemma atob_btoa binary : atob (btoa binary) = Ok binary.
Proof.
  unfold atob, btoa.
  set (l := map N_of_ascii (list_ascii_of_string binary)).
  assert (Hl : Forall octet l) by apply octets_of_string.
  rewrite list_ascii_of_string_of_list_ascii.
  rewrite (btoa_units_no_whitespace Hl).
  destruct (btoa_units_length l) as [k Hk].
  replace (N.of_nat (List.length (btoa_units l)) mod 4 =? 0) with true
    by (symmetry; apply N.eqb_eq; rewrite Hk; lia).
  rewrite (remove_trailing_pad_btoa Hl).
  destruct (unpadded_length l) as [j Hj].
  replace (N.of_nat (List.length (unpadded l)) mod 4 =? 1) with false
    by (symmetry; apply N.eqb_neq; lia).
  rewrite (atob_units_unpadded Hl). f_equal.
  unfold l. rewrite map_map.
  rewrite (map_ext _ (fun c => c)) by apply ascii_N_embedding.
  rewrite map_id. apply string_of_list_ascii_of_string.
Qed.

(** The loop of [encode], as a map. *)
Lemma encode_loop bytes acc :
  fold_left (fun binary b => (binary ++ fromCharCode b)%string) bytes acc
  = (acc ++ string_of_list_ascii (map ascii_of_byte bytes))%string.
Proof.
  revert acc. induction bytes as [|b bytes IH]; intros acc; simpl.
  - clear. induction acc; simpl; congruence.
  - rewrite IH. clear. induction acc; simpl; congruence.
Qed.

End Base64Facts.

Lemma decode_encode (b : list byte) :
  Base64.decode (Base64.encode b) = Ok b.
Proof.
  unfold Base64.decode, Base64.encode.
  rewrite atob_btoa. cbn [rbind]. rewrite encode_loop.
  cbn [String.append]. rewrite list_ascii_of_string_of_list_ascii, map_map.
  rewrite (map_ext _ (fun x => x)) by apply byte_of_ascii_of_byte.
  now rewrite map_id.
Qed.

(** C10.  For every byte array [b], decoding the base64 string that
    [encode] produces returns exactly [b]: the base64 wrapping of the
    PCM16 payloads loses nothing. *)
Theorem decode_encode_roundtrip (b : list byte) :
  Base64.decode (Base64.encode b) = Ok b.
Proof. apply decode_encode. Qed.

(* ================================================================== *)
(** * Facts about the PCM16 codec *)

Section PcmFacts.

Import Pcm.
Local Open Scope Z_scope.

Lemma signed16_small t : -32768 <= t < 32768 -> signed16 t = t.
Proof.
  intros H. unfold signed16.
  destruct (Z.leb_spec 32768 (t mod 65536)); lia.
Qed.

Lemma truncate_scaled n d :
  truncate ((n # d) * 32768) = Z.quot (n * 32768) (Zpos d).
Proof.
  unfold truncate, Qmult. cbn [Qnum Qden]. now rewrite Pos.mul_1_r.
Qed.

(** Below full scale the product by 32768 fits a signed 16-bit cell. *)
Lemma truncate_in_range (x : Q) :
  (-1 <= x)%Q -> (x < 1)%Q ->
  -32768 <= truncate (x * 32768) < 32768.
Proof.
  destruct x as [n d]. rewrite truncate_scaled.
  unfold Qle, Qlt. cbn [Qnum Qden]. intros Hlo Hhi.
  pose proof (Z.quot_rem' (n * 32768) (Zpos d)) as E.
  pose proof (Z.rem_bound_abs (n * 32768) (Zpos d) ltac:(lia)) as B.
  nia.
Qed.

(** One sample below full scale comes back within one quantisation step. *)
Lemma pcm16_sample_roundtrip (x : Q) :
  (-1 <= x)%Q -> (x < 1)%Q ->
  (Qabs (inject_Z (ToInt16 (x * 32768)) / 32768 - x) < 1 # 32768)%Q.
Proof.
  intros Hlo Hhi. unfold ToInt16.
  rewrite signed16_small by (apply truncate_in_range; assumption).
  apply (proj2 (Qabs_Qlt_condition _ _)).
  destruct x as [n d]. rewrite truncate_scaled.
  pose proof (Z.quot_rem' (n * 32768) (Zpos d)) as E.
  pose proof (Z.rem_bound_abs (n * 32768) (Zpos d) ltac:(lia)) as B.
  pose proof (Z.rem_sign_mul (n * 32768) (Zpos d) ltac:(lia)) as S.
  set (t := Z.quot (n * 32768) (Zpos d)) in *.
  set (r := Z.rem (n * 32768) (Zpos d)) in *.
  unfold Qlt, Qminus, Qplus, Qopp, Qdiv, Qmult, Qinv, inject_Z.
  cbn [Qnum Qden]. rewrite ?Pos2Z.inj_mul. split; nia.
Qed.

Lemma Z_of_byte_of_Z z : Z_of_byte (byte_of_Z z) = z mod 256.
Proof.
  unfold Z_of_byte, byte_of_Z.
  destruct (Byte.of_N (Z.to_N (z mod 256))) as [b|] eqn:E.
  - apply Byte.to_of_N in E. rewrite E. apply Z2N.id. lia.
  - apply Byte.of_N_None_iff in E. lia.
Qed.

Lemma signed16_mod v : signed16 (v mod 65536) = signed16 v.
Proof. unfold signed16. now rewrite Z.mod_mod. Qed.

(** The sixteen-bit cells survive the trip through their bytes. *)
Lemma Int16Array_of_bytes l :
  Int16Array_of_Uint8Array (Uint8Array_of_Int16Array l)
  = Ok (map signed16 l).
Proof.
  induction l as [|v l IH]; [reflexivity|].
  cbn [Uint8Array_of_Int16Array flat_map app Int16Array_of_Uint8Array].
  fold (Uint8Array_of_Int16Array l). rewrite IH. cbn [rbind map].
  do 2 f_equal. rewrite !Z_of_byte_of_Z, <- (signed16_mod v).
  f_equal. lia.
Qed.

Lemma map_nth_seq A B (g : A -> B) (l : list A) d :
  map (fun i => g (nth (i * 1 + 0) l d)) (seq 0 (List.length l)) = map g l.
Proof.
  induction l as [|a l IH]; [reflexivity|].
  cbn [List.length seq map]. f_equal.
  rewrite <- seq_shift, map_map. rewrite <- IH.
  apply map_ext. intros i. now rewrite !Nat.mul_1_r, !Nat.add_0_r.
Qed.

Lemma signed16_idem t : signed16 (signed16 t) = signed16 t.
Proof.
  unfold signed16. destruct (Z.leb_spec 32768 (t mod 65536));
    destruct (Z.leb_spec 32768 ((t mod 65536 - 65536) mod 65536));
    destruct (Z.leb_spec 32768 ((t mod 65536) mod 65536)); lia.
Qed.

(** What comes out of the far end of the pipeline for a frame: every
    sample scaled, stored in sixteen bits and scaled back. *)
Lemma roundtrip_frame (samples : list sample) :
  samples <> [] ->
  roundtrip samples
  = Ok {| numberOfChannels := 1;
          frames := List.length samples;
          sampleRate := 16000;
          channelData :=
            [map (fun x => (inject_Z (ToInt16 (x * 32768)) / 32768)%Q)
                 samples] |}.
Proof.
  intros Hne. unfold roundtrip, createPcmBlob. cbn [data].
  rewrite decode_encode. cbn [rbind]. unfold decodeAudioData.
  rewrite Int16Array_of_bytes. cbn [rbind].
  rewrite !length_map, Nat.div_1_r. unfold createBuffer.
  destruct samples as [|x samples]; [congruence|].
  cbn [List.length].
  lazymatch goal with
  | |- context [if ?b then _ else _] => change b with false
  end.
  cbn [rbind numberOfChannels frames sampleRate seq map].
  do 3 f_equal.
  pose proof (map_nth_seq (fun v => (inject_Z v / 32768)%Q)
                (map signed16 (map (fun x => ToInt16 (x * 32768)%Q)
                                    (x :: samples))) 0) as E.
  rewrite !length_map in E. cbn [List.length seq map] in E.
  rewrite E. cbn [map]. unfold ToInt16. rewrite signed16_idem.
  f_equal. rewrite !map_map. apply map_ext. intros y.
  now rewrite signed16_idem.
Qed.

(** Below full scale the whole pipeline keeps every sample within one
    quantisation step. *)
Lemma roundtrip_below_full_scale (samples : list sample) :
  samples <> [] ->
  Forall (fun x => (-1 <= x)%Q /\ (x < 1)%Q) samples ->
  exists heard,
    roundtrip samples
    = Ok {| numberOfChannels := 1; frames := List.length samples;
            sampleRate := 16000; channelData := [heard] |} /\
    Forall2 (fun x y => (Qabs (y - x) < 1 # 32768)%Q) samples heard.
Proof.
  intros Hne Hall. eexists. split; [now apply roundtrip_frame|].
  clear Hne. induction Hall as [|x samples [Hlo Hhi] _ IH]; cbn [map].
  - constructor.
  - constructor; [now apply pcm16_sample_roundtrip|exact IH].
Qed.

End PcmFacts.

(** C3, at the sample the code gets wrong.  The full-scale sample 1.0,
    which lies in [-1,1], is multiplied to 32768, wraps to -32768 in the
    16-bit cell and is heard as -1.0 at the far end: an error of 2, not of
    one quantisation step. *)
Theorem pcm16_full_scale_sample_wraps :
  Pcm.ToInt16 (1 * 32768) = (-32768)%Z /\
  Pcm.data (Pcm.createPcmBlob [1]) = "AIA="%string /\
  Pcm.roundtrip [1]
  = Ok {| Pcm.numberOfChannels := 1; Pcm.frames := 1;
          Pcm.sampleRate := 16000;
          Pcm.channelData := [[-32768 # 32768]] |} /\
  ~ Qabs ((-32768 # 32768) - 1) <= 1 # 32768.
Proof.
  repeat split; try (vm_compute; reflexivity).
  vm_compute. intros H. apply H. reflexivity.
Qed.

(* ================================================================== *)
(** * Proof steps shared by the handler lemmas *)

Ltac by_fields :=
  match goal with
  | c : Call.Component |- _ =>
      destruct c; cbn; unfold same, no_new_active; cbn;
      try congruence; auto
  end.

Ltac unfold_handlers :=
  unfold VoiceAgent.onerror, VoiceAgent.onclose, VoiceAgent.cleanupCall,
    VoiceAgent.startCall, VoiceAgent.connectResolved,
    VoiceAgent.connectRejected, VoiceAgent.onaudioprocess,
    VoiceAgent.onmessage, VoiceAgent.onmessage_transcription,
    VoiceAgent.append_entry, VoiceAgent.onopen, VoiceAgent.render,
    App.onerror, App.onclose, App.cleanupCall, App.startCall,
    App.connectResolved, App.connectRejected, App.onaudioprocess,
    App.onmessage, App.onmessage_transcription, App.onopen,
    Call.onmessage_audio, Call.onmessage_interrupted, Call.onended,
    Call.createBufferSource, Call.session_close, Call.source_stop,
    Call.context_close, Call.promise_new, Call.promise_then_send,
    Call.promise_fulfil, Call.promise_reject.

Section Relations.
Import Pcm Call.

#[export] Instance no_new_active_preorder : PreOrder no_new_active.
Proof. split; unfold no_new_active; red; auto. Qed.

#[export] Instance same_preorder X (f : Component -> X) : PreOrder (same f).
Proof. split; unfold same; red; intros; congruence. Qed.

#[export] Instance sources_grow_preorder : PreOrder sources_grow.
Proof. split; unfold sources_grow; red; auto. Qed.

#[export] Instance cap_ok_preorder : PreOrder cap_ok.
Proof. split; unfold cap_ok; red; auto. Qed.

End Relations.

Section TeardownFacts.

Import Pcm Call.

Lemma try_stop (n : SourceNode) (c : Component) :
  try_catch (source_stop n) c = (Ok tt, c, [SourceStop n]).
Proof.
  unfold try_catch, source_stop, bind, emit, throw, ret.
  destruct (stop_throws n); reflexivity.
Qed.

Lemma forEach_stop (l : list SourceNode) (c : Component) :
  forEach l (fun s => try_catch (source_stop s)) c
  = (Ok tt, c, map SourceStop l).
Proof.
  induction l as [|n l IH]; [reflexivity|].
  cbn [forEach map]. unfold bind. rewrite try_stop, IH. reflexivity.
Qed.

Lemma VoiceAgent_cleanupCall_ok c :
  session_close_fails c = false ->
  VoiceAgent.cleanupCall c
  = (Ok tt, cleaned false c, releases c ++ [SetTimeoutIdle]).
Proof.
  destruct c as [st tr mu sp er [s|] [i|] [o|] ns src mr tb nc pr];
    unfold session_close_fails, VoiceAgent.cleanupCall, releases, cleaned;
    cbn [sessionRef]; intros Hs;
    unfold bind, get, session_close, context_close, emit, modify, ret, throw;
    cbn; try rewrite Hs; cbn; rewrite forEach_stop; cbn;
    rewrite ?app_nil_r, <- ?app_assoc; reflexivity.
Qed.

Lemma App_cleanupCall_ok c :
  session_close_fails c = false ->
  App.cleanupCall c
  = (Ok tt, cleaned true c, releases c ++ [SetTimeoutIdle]).
Proof.
  destruct c as [st tr mu sp er [s|] [i|] [o|] ns src mr tb nc pr];
    unfold session_close_fails, App.cleanupCall, releases, cleaned;
    cbn [sessionRef]; intros Hs;
    unfold bind, get, session_close, context_close, emit, modify, ret, throw;
    cbn; try rewrite Hs; cbn; rewrite forEach_stop; cbn;
    rewrite ?app_nil_r, <- ?app_assoc; reflexivity.
Qed.

Lemma cleaned_releases b c : releases (cleaned b c) = [].
Proof. reflexivity. Qed.

Lemma cleaned_cleaned b c : cleaned b (cleaned b c) = cleaned b c.
Proof. destruct b; reflexivity. Qed.

(** An unguarded failure: when [session.close()] throws, the exception
    leaves [cleanupCall] before anything else is released. *)
Lemma VoiceAgent_cleanupCall_throws c s :
  sessionRef c = Some s -> close_throws s = true ->
  VoiceAgent.cleanupCall c
  = (Throw (ThrownBy "session.close"), c, [SessionClose s]).
Proof.
  intros Hs Ht. unfold VoiceAgent.cleanupCall.
  unfold bind at 1. unfold get at 1. unfold bind at 1. rewrite Hs.
  unfold bind at 1. unfold session_close, bind, emit, throw. rewrite Ht.
  reflexivity.
Qed.

Lemma App_cleanupCall_throws c s :
  sessionRef c = Some s -> close_throws s = true ->
  App.cleanupCall c
  = (Throw (ThrownBy "session.close"), c, [SessionClose s]).
Proof.
  intros Hs Ht. unfold App.cleanupCall.
  unfold bind at 1. unfold get at 1. unfold bind at 1. rewrite Hs.
  unfold bind at 1. unfold session_close, bind, emit, throw. rewrite Ht.
  reflexivity.
Qed.

End TeardownFacts.

Section TeardownClaims.
Import Pcm Call Demo.

(** C7, as stated, fails: the close of the transport session is guarded
    against absence only.  When [session.close()] throws, the exception
    leaves [cleanupCall] and the input audio context is never closed. *)
Lemma teardown_session_failure_blocks_release :
  let '(r, c, t) := VoiceAgent.cleanupCall failing_teardown_state in
  r = Throw (ThrownBy "session.close") /\
  inputAudioCtxRef c = Some (new_inputCtx (demo_env 1)) /\
  ~ In (ContextClose (new_inputCtx (demo_env 1))) t.
Proof.
  vm_compute. repeat split. intros [H|[]]. discriminate.
Qed.

(** C7, amended.  Provided the session's own [close()] does not throw,
    one run of the teardown makes exactly the calls of one full release
    ([releases c]: the session closed if there is one, every playing source
    stopped, each audio context closed if there is one), returns without
    exception whichever of the resources are absent and whichever [stop()]
    or context [close()] fails, and a second run right after releases
    nothing more and leaves the state as it is.  Both copies. *)
Theorem teardown_idempotent (c : Component) :
  session_close_fails c = false ->
  (VoiceAgent.cleanupCall c
     = (Ok tt, cleaned false c, releases c ++ [SetTimeoutIdle]) /\
   VoiceAgent.cleanupCall (cleaned false c)
     = (Ok tt, cleaned false c, [SetTimeoutIdle])) /\
  (App.cleanupCall c
     = (Ok tt, cleaned true c, releases c ++ [SetTimeoutIdle]) /\
   App.cleanupCall (cleaned true c)
     = (Ok tt, cleaned true c, [SetTimeoutIdle])).
Proof.
  intros Hc. split; split.
  - now apply VoiceAgent_cleanupCall_ok.
  - rewrite VoiceAgent_cleanupCall_ok by reflexivity.
    now rewrite cleaned_cleaned.
  - now apply App_cleanupCall_ok.
  - rewrite App_cleanupCall_ok by reflexivity.
    now rewrite cleaned_cleaned.
Qed.

(** A hang-up followed by the remote close event, on a call that has one
    source playing. *)
Lemma teardown_idempotent_witness :
  let live := run VoiceAgent.handlers start
                (connect 1 ++ [OnMessage (demo_call 1) 3 0 (silence 8)]) in
  let c := comp live in
  List.length (releases c) = 4%nat /\
  effects VoiceAgent.cleanupCall c = releases c ++ [SetTimeoutIdle] /\
  effects VoiceAgent.cleanupCall (final VoiceAgent.cleanupCall c)
  = [SetTimeoutIdle] /\
  trace (run VoiceAgent.handlers live [ClickEndCall; OnClose (demo_call 1)])
  = trace live ++ releases c ++ [SetTimeoutIdle; SetTimeoutIdle].
Proof.
  intros live c.
  pose proof (@teardown_idempotent c eq_refl) as [[W1 W2] _].
  unfold effects, final. rewrite W1. cbn [fst snd]. rewrite W2.
  split; [vm_compute; reflexivity|].
  split; [reflexivity|]. split; [reflexivity|].
  vm_compute. reflexivity.
Defined.

End TeardownClaims.

Section Frames.
Import Pcm Call.

(** Relations between the state before and after a handler that hold
    whatever path the handler takes. *)
Context (R : Component -> Component -> Prop) `{!PreOrder R}.

Lemma respects_ret A (a : A) : respects R (ret a).
Proof. intros c. apply reflexivity. Qed.

Lemma respects_get : respects R get.
Proof. intros c. apply reflexivity. Qed.

Lemma respects_emit e : respects R (emit e).
Proof. intros c. apply reflexivity. Qed.

Lemma respects_throw A e : respects R (@throw A e).
Proof. intros c. apply reflexivity. Qed.

Lemma respects_lift A (r : result A) : respects R (lift r).
Proof. intros c. apply reflexivity. Qed.

Lemma respects_modify f : (forall c, R c (f c)) -> respects R (modify f).
Proof. intros H c. apply H. Qed.

Lemma respects_bind A B (m : M A) (k : A -> M B) :
  respects R m -> (forall a, respects R (k a)) -> respects R (bind m k).
Proof.
  intros Hm Hk c. specialize (Hm c). unfold final, bind in *.
  destruct (m c) as [[[a|e] c1] t1]; cbn in *; [|exact Hm].
  specialize (Hk a c1). unfold final in Hk.
  destruct (k a c1) as [[r c2] t2]; cbn in *.
  eapply transitivity; eassumption.
Qed.

Lemma respects_try m : respects R m -> respects R (try_catch m).
Proof.
  intros Hm c. specialize (Hm c). unfold final, try_catch in *.
  destruct (m c) as [[[a|e] c1] t1]; exact Hm.
Qed.

Lemma respects_forEach A (l : list A) f :
  (forall x, respects R (f x)) -> respects R (forEach l f).
Proof.
  intros Hf. induction l as [|x l IH]; cbn [forEach].
  - apply respects_ret.
  - apply respects_bind; auto.
Qed.

End Frames.

(** Break a handler into its primitives; what remains are the state
    updates, one goal each. *)
Ltac frame_step :=
  lazymatch goal with
  | |- @respects _ _ (Call.bind _ _) =>
      apply respects_bind; [ typeclasses eauto | | intro ]
  | |- @respects _ _ (Call.ret _) => apply respects_ret; typeclasses eauto
  | |- @respects _ _ Call.get => apply respects_get; typeclasses eauto
  | |- @respects _ _ (Call.emit _) => apply respects_emit; typeclasses eauto
  | |- @respects _ _ (Call.throw _) => apply respects_throw; typeclasses eauto
  | |- @respects _ _ (Call.lift _) => apply respects_lift; typeclasses eauto
  | |- @respects _ _ (Call.try_catch _) => apply respects_try
  | |- @respects _ _ (Call.forEach _ _) =>
      apply respects_forEach; [ typeclasses eauto | intro ]
  | |- @respects _ _ (Call.modify _) => apply respects_modify; intro
  | |- @respects _ _ (match ?x with _ => _ end) => destruct x
  end.

Ltac frame := repeat frame_step.

Section LoopFacts.
Import Pcm Call.

Lemma bind_eval A B (m : M A) (k : A -> M B) c :
  bind m k c =
  match m c with
  | (Ok a, c1, t1) => match k a c1 with (r, c2, t2) => (r, c2, t1 ++ t2) end
  | (Throw e, c1, t1) => (Throw e, c1, t1)
  end.
Proof. reflexivity. Qed.

Lemma dispatch_comp A (H : Handlers) (h : M A) cfg :
  comp (snd (dispatch H h cfg)) = h_render H (final h (comp cfg)).
Proof.
  unfold dispatch, final. destruct (h (comp cfg)) as [[r c] t]. reflexivity.
Qed.

Lemma dispatch_calls A (H : Handlers) (h : M A) cfg :
  calls (snd (dispatch H h cfg)) = calls cfg.
Proof.
  unfold dispatch. destruct (h (comp cfg)) as [[r c] t]. reflexivity.
Qed.

Lemma dispatch_trace A (H : Handlers) (h : M A) cfg :
  trace (snd (dispatch H h cfg)) = trace cfg ++ effects h (comp cfg).
Proof.
  unfold dispatch, effects. destruct (h (comp cfg)) as [[r c] t]. reflexivity.
Qed.

Lemma dispatch_outcome A (H : Handlers) (h : M A) cfg a :
  fst (dispatch H h cfg) = Some a -> outcome h (comp cfg) = Ok a.
Proof.
  unfold dispatch, outcome. destruct (h (comp cfg)) as [[[x|e] c] t]; cbn;
    congruence.
Qed.

Lemma run_app H cfg evs evs' :
  run H cfg (evs ++ evs') = run H (run H cfg evs) evs'.
Proof. apply fold_left_app. Qed.

Lemma statuses_head H cfg evs :
  exists tl, statuses H cfg evs = status (comp cfg) :: tl.
Proof. destruct evs; cbn; eauto. Qed.

Lemma dispatch_respects R `{!PreOrder R} H A (h : M A) cfg :
  (forall c, R c (h_render H c)) -> respects R h ->
  R (comp cfg) (comp (snd (dispatch H h cfg))).
Proof.
  intros Hr Hh. rewrite dispatch_comp.
  eapply transitivity; [apply Hh|apply Hr].
Qed.

Lemma step_respects R `{!PreOrder R} H :
  Respectful R H ->
  forall cfg ev,
    (forall call, ev = OnOpen call -> respects R (h_onopen H call)) ->
    R (comp cfg) (comp (step H cfg ev)).
Proof.
  intros HR cfg ev Hopen.
  pose proof (r_render HR) as Hr.
  destruct ev; cbn [step].
  - destruct (start_offered H _); [|reflexivity].
    pose proof (@dispatch_respects R _ H _ (h_startCall H env) cfg Hr
                  (r_startCall HR env)) as D.
    destruct (dispatch H (h_startCall H env) cfg) as [[[call|]|] cfg1];
      exact D.
  - destruct (existsb _ _); [|reflexivity].
    apply dispatch_respects; [typeclasses eauto|exact Hr|apply (r_connectResolved HR)].
  - destruct (existsb _ _); [|reflexivity].
    apply dispatch_respects; [typeclasses eauto|exact Hr|apply (r_connectRejected HR)].
  - destruct (existsb _ _); [|reflexivity]. cbn [comp].
    apply dispatch_respects; [typeclasses eauto|exact Hr|now apply Hopen].
  - destruct (existsb _ _); [|reflexivity].
    apply dispatch_respects; [typeclasses eauto|exact Hr|apply (r_onmessage HR)].
  - destruct (existsb _ _); [|reflexivity].
    apply dispatch_respects; [typeclasses eauto|exact Hr|apply (r_onerror HR)].
  - destruct (existsb _ _); [|reflexivity].
    apply dispatch_respects; [typeclasses eauto|exact Hr|apply (r_onclose HR)].
  - destruct (existsb _ _); [|reflexivity].
    apply dispatch_respects; [typeclasses eauto|exact Hr|apply (r_onaudioprocess HR)].
  - apply dispatch_respects; [typeclasses eauto|exact Hr|apply (r_onended HR)].
  - destruct (mute_offered H _); [|reflexivity].
    apply dispatch_respects; [typeclasses eauto|exact Hr|].
    apply respects_modify, (r_mute HR).
  - destruct (end_offered H _); [|reflexivity].
    apply dispatch_respects; [typeclasses eauto|exact Hr|apply (r_cleanupCall HR)].
  - destruct (timers cfg); [reflexivity|]. cbn [comp].
    apply dispatch_respects; [typeclasses eauto|exact Hr|].
    apply respects_modify, (r_idle HR).
Qed.

End LoopFacts.

Section PromiseFacts.
Import Pcm Call.

Lemma forEach_emit A (f : A -> Effect) (l : list A) (c : Component) :
  forEach l (fun x => emit (f x)) c = (Ok tt, c, map f l).
Proof.
  induction l as [|x l IH]; [reflexivity|].
  cbn [forEach map]. rewrite bind_eval. cbn [emit]. now rewrite IH.
Qed.

(** A new promise has no callback on it. *)
Lemma no_callback_on_new s (w : list (Session * Blob)) :
  filter (of_session s) (filter (fun x => negb (of_session s x)) w) = [].
Proof.
  induction w as [|x w IH]; [reflexivity|]. cbn [filter].
  destruct (of_session s x) eqn:E; cbn [negb filter]; [exact IH|].
  now rewrite E.
Qed.

Lemma no_timeout_in_sends (l : list (Session * Blob)) :
  filter is_timeout (map (fun x => SendRealtimeInput (fst x) (snd x)) l) = [].
Proof. induction l as [|x l IH]; [reflexivity|exact IH]. Qed.

Lemma sends_of_sends (l : list (Session * Blob)) :
  sends (map (fun x => SendRealtimeInput (fst x) (snd x)) l) = l.
Proof.
  induction l as [|[s b] l IH]; [reflexivity|]. cbn. f_equal. exact IH.
Qed.

Lemma promise_fulfil_run s c :
  promise_fulfil s c
  = (Ok tt,
     set_promises
       {| fulfilled := session_id s :: fulfilled (promises c);
          rejected := rejected (promises c);
          waiting := filter (fun x => negb (of_session s x))
                            (waiting (promises c)) |} c,
     map (fun x => SendRealtimeInput (fst x) (snd x))
         (filter (of_session s) (waiting (promises c)))).
Proof.
  unfold promise_fulfil. rewrite bind_eval. cbn [get].
  rewrite bind_eval, forEach_emit. cbn [modify]. now rewrite app_nil_r.
Qed.

(** The steps of App.tsx that bring a call up, in closed form. *)
Lemma App_step_start cfg env :
  start_offered App.handlers (status (comp cfg)) = true ->
  getUserMedia_error env = None ->
  step App.handlers cfg (ClickStart env)
  = {| comp :=
         set_promises
           {| fulfilled :=
                filter (fun n => negb (session_id (new_session env) =? n)%nat)
                       (fulfilled (promises (comp cfg)));
              rejected :=
                filter (fun n => negb (session_id (new_session env) =? n)%nat)
                       (rejected (promises (comp cfg)));
              waiting :=
                filter (fun x => negb (of_session (new_session env) x))
                       (waiting (promises (comp cfg))) |}
           (set_outputAudioCtxRef (Some (new_outputCtx env))
              (set_inputAudioCtxRef (Some (new_inputCtx env))
                 (set_status CONNECTING (comp cfg))));
       calls := calls cfg
                ++ [{| inputCtx := new_inputCtx env;
                       outputCtx := new_outputCtx env;
                       session := new_session env;
                       closure_isMuted := isMuted (comp cfg) |}];
       opened := opened cfg; timers := timers cfg;
       trace := trace cfg ++ [LiveConnect (new_session env)] |}.
Proof.
  intros Hs Hm. cbn [step]. rewrite Hs. unfold dispatch.
  cbn [h_startCall App.handlers h_render]. unfold App.startCall, promise_new.
  rewrite Hm. destruct cfg as [c cl op tm tr]. destruct c. cbn.
  now rewrite Nat.add_0_r.
Qed.

Lemma App_step_open cfg call :
  existsb (same_call call) (calls cfg) = true ->
  step App.handlers cfg (OnOpen call)
  = {| comp := set_status ACTIVE (comp cfg); calls := calls cfg;
       opened := opened cfg ++ [call]; timers := timers cfg;
       trace := trace cfg |}.
Proof.
  intros Hreg. cbn [step]. rewrite Hreg. unfold dispatch.
  cbn [h_onopen App.handlers h_render]. unfold App.onopen, modify.
  cbn. now rewrite Nat.add_0_r, app_nil_r.
Qed.

Lemma App_step_resolved cfg call :
  existsb (same_call call) (calls cfg) = true ->
  step App.handlers cfg (ConnectResolved call)
  = {| comp :=
         set_promises
           {| fulfilled := session_id (session call)
                           :: fulfilled (promises (comp cfg));
              rejected := rejected (promises (comp cfg));
              waiting := filter (fun x => negb (of_session (session call) x))
                                (waiting (promises (comp cfg))) |}
           (set_sessionRef (Some (session call)) (comp cfg));
       calls := calls cfg; opened := opened cfg; timers := timers cfg;
       trace := trace cfg
                ++ map (fun x => SendRealtimeInput (fst x) (snd x))
                       (filter (of_session (session call))
                               (waiting (promises (comp cfg)))) |}.
Proof.
  intros Hreg. cbn [step]. rewrite Hreg. unfold dispatch.
  cbn [h_connectResolved App.handlers h_render]. unfold App.connectResolved.
  rewrite bind_eval. cbn [modify]. rewrite promise_fulfil_run.
  cbn [snd app]. rewrite no_timeout_in_sends. cbn [List.length].
  rewrite Nat.add_0_r. destruct (comp cfg); reflexivity.
Qed.

Lemma App_step_mute cfg :
  status (comp cfg) = ACTIVE ->
  step App.handlers cfg ClickMute
  = {| comp := set_isMuted (negb (isMuted (comp cfg))) (comp cfg);
       calls := calls cfg; opened := opened cfg; timers := timers cfg;
       trace := trace cfg |}.
Proof.
  intros Hst. cbn [step]. rewrite Hst. cbn [mute_offered App.handlers
                                            CallStatus_eqb].
  unfold dispatch, modify. cbn. now rewrite Nat.add_0_r, app_nil_r.
Qed.

End PromiseFacts.

Section StatusFacts.
Import Pcm Call.

Lemma VoiceAgent_no_new_active : Respectful no_new_active VoiceAgent.handlers.
Proof.
  split; cbn [VoiceAgent.handlers h_startCall h_connectResolved
              h_connectRejected h_onaudioprocess h_onmessage h_onerror
              h_onclose h_cleanupCall h_render]; intros;
    unfold_handlers; frame; unfold_handlers; frame; try by_fields.
Qed.

Lemma App_no_new_active : Respectful no_new_active App.handlers.
Proof.
  split; cbn [App.handlers h_startCall h_connectResolved
              h_connectRejected h_onaudioprocess h_onmessage h_onerror
              h_onclose h_cleanupCall h_render]; intros;
    unfold_handlers; frame; unfold_handlers; frame; try by_fields.
Qed.

Lemma copy_no_new_active H : copy H -> Respectful no_new_active H.
Proof.
  intros [->| ->]; [apply VoiceAgent_no_new_active|apply App_no_new_active].
Qed.

Lemma bind_ret_None A B (m : M A) c (x : B) :
  outcome (m ;; ret None) c <> Ok (Some x).
Proof.
  unfold outcome. rewrite bind_eval.
  destruct (m c) as [[[a|e] c1] t1]; cbn; discriminate.
Qed.

Lemma outcome_bind_inv A B (m : M A) (k : A -> M B) c v :
  outcome (bind m k) c = Ok v ->
  exists a, outcome m c = Ok a /\ outcome (k a) (final m c) = Ok v.
Proof.
  unfold outcome, final. rewrite bind_eval.
  destruct (m c) as [[[a|e] c1] t1]; cbn; [|discriminate].
  destruct (k a c1) as [[r c2] t2] eqn:E; cbn. intros ->.
  exists a. rewrite E. auto.
Qed.

(** A [startCall] that registers its callbacks leaves CONNECTING behind. *)
Lemma startCall_registers H env c call :
  copy H ->
  outcome (h_startCall H env) c = Ok (Some call) ->
  status (final (h_startCall H env) c) = CONNECTING.
Proof.
  intros [->| ->]; cbn [h_startCall VoiceAgent.handlers App.handlers].
  - unfold VoiceAgent.startCall, outcome, final.
    destruct c, env as [[k|] i o [msg|] s]; cbn;
      try destruct (truthy k); cbn; congruence.
  - unfold App.startCall.
    destruct env as [k i o [msg|] s]; cbn [getUserMedia_error].
    + intros E. exfalso.
      do 5 (apply outcome_bind_inv in E; destruct E as (? & _ & E)).
      exact (bind_ret_None _ _ E).
    + unfold outcome, final. destruct c; cbn; congruence.
Qed.

Lemma render_status H c : copy H -> status (h_render H c) = status c.
Proof. intros [->| ->]; destruct c; reflexivity. Qed.

(** Only a successful [startCall] adds a call, and it shows CONNECTING. *)
Lemma step_calls H cfg ev :
  copy H ->
  calls (step H cfg ev) = calls cfg \/
  status (comp (step H cfg ev)) = CONNECTING.
Proof.
  intros HH.
  assert (D : forall A (h : M A) r cfg1,
             dispatch H h cfg = (r, cfg1) -> calls cfg1 = calls cfg).
  { intros A h r cfg1 E. change cfg1 with (snd (r, cfg1)). rewrite <- E.
    apply dispatch_calls. }
  destruct ev; cbn [step];
    try (destruct (existsb _ _); left;
         [ cbn [calls]; apply dispatch_calls | reflexivity ]).
  - destruct (start_offered H _); [|now left].
    destruct (dispatch H (h_startCall H env) cfg) as [[[call|]|] cfg1] eqn:E;
      try (left; exact (D _ _ _ _ E)).
    right. cbn [comp].
    change cfg1 with (snd (Some (Some call), cfg1)). rewrite <- E.
    rewrite dispatch_comp, render_status by assumption.
    apply startCall_registers with (call := call); [assumption|].
    apply (dispatch_outcome H). now rewrite E.
  - left. apply dispatch_calls.
  - destruct (mute_offered H _); left; [apply dispatch_calls|reflexivity].
  - destruct (end_offered H _); left; [apply dispatch_calls|reflexivity].
  - left. destruct (timers cfg); [reflexivity|]. cbn [calls].
    apply dispatch_calls.
Qed.

(** Only [onopen], run for a registered call, makes the status ACTIVE. *)
Lemma step_active H cfg ev :
  copy H ->
  status (comp (step H cfg ev)) = ACTIVE ->
  status (comp cfg) = ACTIVE \/
  exists call, ev = OnOpen call /\
               existsb (same_call call) (calls cfg) = true.
Proof.
  intros HH Hact.
  destruct (match ev with OnOpen _ => true | _ => false end) eqn:E.
  - destruct ev; try discriminate. cbn [step] in Hact.
    destruct (existsb (same_call call) (calls cfg)) eqn:Hreg; eauto.
  - left. revert Hact.
    apply (@step_respects no_new_active _ H (copy_no_new_active HH) cfg ev).
    intros call ->. discriminate.
Qed.

Lemma existsb_nil A (f : A -> bool) : existsb f [] = false.
Proof. reflexivity. Qed.

(** While no call is registered and the status is not ACTIVE, ACTIVE can
    only show up behind a CONNECTING. *)
Lemma active_after_connecting H :
  copy H ->
  forall evs cfg pre post,
    calls cfg = [] -> status (comp cfg) <> ACTIVE ->
    statuses H cfg evs = pre ++ ACTIVE :: post ->
    In CONNECTING pre.
Proof.
  intros HH. induction evs as [|ev evs IH]; intros cfg pre post Hc Hs E.
  - cbn in E. destruct pre as [|x [|y pre]]; cbn in E; congruence.
  - cbn [statuses] in E. destruct pre as [|x pre]; cbn in E.
    { congruence. }
    injection E as _ E. right.
    destruct (step_calls cfg ev HH) as [Hsame|Hconn].
    + apply (IH (step H cfg ev) pre post); [congruence| |exact E].
      intros Hact. destruct (step_active cfg ev HH Hact) as [|(call & _ & Hreg)].
      * contradiction.
      * rewrite Hc in Hreg. discriminate.
    + destruct (statuses_head H (step H cfg ev) evs) as [tl Htl].
      rewrite Htl, Hconn in E.
      destruct pre as [|y pre]; cbn in E; [discriminate|].
      injection E as <- _. now left.
Qed.

End StatusFacts.

Section CallClaims.
Import Pcm Call Demo.

(** The parts of C8 the code keeps: ACTIVE only shows up after CONNECTING,
    and the start control is not there to be clicked while the status is
    CONNECTING or ACTIVE. *)
Lemma start_ordered_and_gated (H : Handlers) :
  copy H ->
  (forall evs pre post,
     statuses H start evs = pre ++ ACTIVE :: post -> In CONNECTING pre) /\
  (forall cfg env,
     status (comp cfg) = CONNECTING \/ status (comp cfg) = ACTIVE ->
     step H cfg (ClickStart env) = cfg).
Proof.
  intros HH. split.
  - intros evs pre post. apply active_after_connecting; cbn; congruence.
  - intros cfg env Hs. cbn [step].
    destruct HH as [->| ->], Hs as [->| ->]; reflexivity.
Qed.

(** C8, at the input the code gets wrong.  The user hangs up, starts a new
    call within the second, and the timer of the hang-up then sets the
    status back to IDLE while that call is connecting.  The start control
    is offered again, a third call is started, and two sessions are live
    at once.  Both copies. *)
Theorem restart_race_two_live_sessions :
  statuses VoiceAgent.handlers start restart_race
  = [IDLE; CONNECTING; ACTIVE; ACTIVE; ENDED; CONNECTING; IDLE; CONNECTING;
     ACTIVE; ACTIVE; ACTIVE; ACTIVE] /\
  live_sessions (trace (run VoiceAgent.handlers start restart_race)) []
  = [demo_session 2; demo_session 3] /\
  statuses App.handlers start restart_race
  = statuses VoiceAgent.handlers start restart_race /\
  live_sessions (trace (run App.handlers start restart_race)) []
  = [demo_session 2; demo_session 3].
Proof. vm_compute. repeat split. Qed.

Lemma VoiceAgent_onerror_ok c :
  session_close_fails c = false ->
  VoiceAgent.onerror c
  = (Ok tt,
     cleaned false (set_error "Connection error. Please try again." c),
     ConsoleError :: releases c ++ [SetTimeoutIdle]).
Proof.
  intros Hc. unfold VoiceAgent.onerror.
  repeat (rewrite bind_eval; cbn [emit modify]).
  rewrite VoiceAgent_cleanupCall_ok by (destruct c; exact Hc).
  destruct c; reflexivity.
Qed.

Lemma App_onerror_ok c :
  session_close_fails c = false ->
  App.onerror c
  = (Ok tt, cleaned true c, ConsoleError :: releases c ++ [SetTimeoutIdle]).
Proof.
  intros Hc. unfold App.onerror.
  repeat (rewrite bind_eval; cbn [emit modify]).
  rewrite App_cleanupCall_ok by (destruct c; exact Hc).
  destruct c; reflexivity.
Qed.

Lemma App_connectRejected_ok call message c :
  session_close_fails c = false ->
  App.connectRejected call message c
  = (Ok tt,
     cleaned true
       (set_promises
          {| fulfilled := fulfilled (promises c);
             rejected := session_id (session call) :: rejected (promises c);
             waiting := filter (fun x => negb (of_session (session call) x))
                               (waiting (promises c)) |} c),
     ConsoleError :: releases c ++ [SetTimeoutIdle]).
Proof.
  intros Hc. unfold App.connectRejected, promise_reject.
  rewrite bind_eval. cbn [modify].
  change (emit ConsoleError ;; modify (set_status ERROR) ;; App.cleanupCall)
    with App.onerror.
  rewrite App_onerror_ok by (destruct c; exact Hc).
  destruct c; reflexivity.
Qed.

Lemma dispatch_timers A (H : Handlers) (h : M A) cfg :
  timers (snd (dispatch H h cfg))
  = (timers cfg + List.length (filter is_timeout (effects h (comp cfg))))%nat.
Proof.
  unfold dispatch, effects. destruct (h (comp cfg)) as [[r c] t]. reflexivity.
Qed.

Lemma timeouts_after_release c pre :
  exists k,
    List.length (filter is_timeout (pre ++ releases c ++ [SetTimeoutIdle]))
    = S k.
Proof.
  rewrite !filter_app, !length_app. cbn. eexists. rewrite !Nat.add_1_r.
  rewrite Nat.add_succ_r. reflexivity.
Qed.

(** C9, at the input the code gets wrong.  [onerror] sets the status to
    ERROR and then calls [cleanupCall], whose own [setStatus(ENDED)] comes
    last: when a transport error arrives during a call (and the teardown
    goes through) the status the component is left with is ENDED, not
    ERROR, and the pending timer then makes it IDLE.  The start control
    is offered in that state, and VoiceAgent.jsx keeps its short message.
    Both copies. *)
Theorem transport_error_leaves_ended (H : Handlers) (cfg : Config)
  (call : CallClosure) :
  copy H ->
  existsb (same_call call) (calls cfg) = true ->
  session_close_fails (comp cfg) = false ->
  let cfg' := step H cfg (OnError call) in
  status (comp cfg') = ENDED /\
  status (comp cfg') <> ERROR /\
  start_offered H (status (comp cfg')) = true /\
  status (comp (step H cfg' TimerFires)) = IDLE /\
  (H = VoiceAgent.handlers ->
   error (comp cfg') = "Connection error. Please try again."%string).
Proof.
  intros HH Hreg Hc cfg'. subst cfg'. cbn [step]. rewrite Hreg.
  assert (Hst : status (comp (snd (dispatch H (h_onerror H) cfg))) = ENDED).
  { rewrite dispatch_comp, render_status by assumption.
    destruct HH as [->| ->]; cbn [h_onerror VoiceAgent.handlers App.handlers];
      unfold final;
      [rewrite VoiceAgent_onerror_ok|rewrite App_onerror_ok]; auto. }
  assert (Htm : exists k, timers (snd (dispatch H (h_onerror H) cfg)) = S k).
  { rewrite dispatch_timers.
    destruct HH as [->| ->]; cbn [h_onerror VoiceAgent.handlers App.handlers];
      unfold effects;
      [rewrite VoiceAgent_onerror_ok|rewrite App_onerror_ok]; auto;
      cbn [snd];
      destruct (timeouts_after_release (comp cfg) [ConsoleError]) as [k Hk];
      cbn [app] in Hk; rewrite Hk; exists (timers cfg + k)%nat; lia. }
  rewrite Hst. repeat split.
  - discriminate.
  - destruct HH as [->| ->]; reflexivity.
  - destruct Htm as [k Hk]. rewrite Hk. cbn [comp].
    rewrite dispatch_comp, render_status by assumption. reflexivity.
  - intros ->. rewrite dispatch_comp. cbn [h_onerror VoiceAgent.handlers h_render].
    unfold final. rewrite VoiceAgent_onerror_ok by assumption.
    reflexivity.
Qed.

(** A transport error on a call that is up. *)
Lemma transport_error_leaves_ended_witness :
  statuses VoiceAgent.handlers start (connect 1 ++ [OnError (demo_call 1)])
  = [IDLE; CONNECTING; ACTIVE; ACTIVE; ENDED] /\
  status (comp (run VoiceAgent.handlers start
                    (connect 1 ++ [OnError (demo_call 1)]))) <> ERROR.
Proof.
  pose proof (@transport_error_leaves_ended VoiceAgent.handlers
                (run VoiceAgent.handlers start (connect 1)) (demo_call 1)
                (or_introl eq_refl) eq_refl eq_refl) as W.
  split; [reflexivity|]. rewrite run_app. exact (proj1 (proj2 W)).
Defined.

Lemma In_same_call call l : In call l -> existsb (same_call call) l = true.
Proof.
  intros Hin. apply existsb_exists. exists call. split; [exact Hin|].
  apply Nat.eqb_refl.
Qed.

(** Once [connect] has resolved for a registered call, its session is
    stored and its promise is fulfilled. *)
Lemma App_connect_resolved (cfg : Config) (call : CallClosure) :
  existsb (same_call call) (calls cfg) = true ->
  let cfg' := step App.handlers cfg (ConnectResolved call) in
  sessionRef (comp cfg') = Some (session call) /\
  settled (session call) (fulfilled (promises (comp cfg'))) = true.
Proof.
  intros Hreg cfg'. subst cfg'. rewrite (App_step_resolved _ _ Hreg).
  cbn [comp]. split; [now destruct (comp cfg)|].
  destruct (comp cfg); cbn. unfold settled. cbn. now rewrite Nat.eqb_refl.
Qed.

(** C1, at the input the code gets wrong.  In App.tsx the capture callback
    tests the [isMuted] constant of the render that built it.  For a call
    that [startCall] registered, whose capture node is installed and whose
    [connect] has resolved (its session promise is fulfilled), a frame
    that arrives while the mute flag is true is sent all the same when the
    call was started unmuted. *)
Theorem App_capture_ignores_mute (cfg : Config) (call : CallClosure)
  (inputData : list sample) :
  In call (calls cfg) ->
  In call (opened cfg) ->
  settled (session call) (fulfilled (promises (comp cfg))) = true ->
  closure_isMuted call = false ->
  isMuted (comp cfg) = true ->
  sends (trace (step App.handlers cfg (AudioProcess call inputData)))
  = sends (trace cfg) ++ [(session call, createPcmBlob inputData)].
Proof.
  intros _ Hop Hful Hcl _. cbn [step].
  rewrite (In_same_call _ _ Hop), dispatch_trace.
  cbn [h_onaudioprocess App.handlers].
  unfold App.onaudioprocess, promise_then_send, effects.
  rewrite Hcl, bind_eval. cbn [get]. rewrite Hful.
  unfold sends. rewrite flat_map_app. reflexivity.
Qed.

(** A call started unmuted, muted once it is up and its session stored,
    then one frame. *)
Lemma App_capture_ignores_mute_witness :
  let cfg := run App.handlers start (connect 1 ++ [ClickMute]) in
  isMuted (comp cfg) = true /\
  sessionRef (comp cfg) = Some (demo_session 1) /\
  sends (trace (step App.handlers cfg (AudioProcess (demo_call 1) [1 # 2])))
  = [(demo_session 1, createPcmBlob [1 # 2])].
Proof.
  split; [reflexivity|]. split; [reflexivity|].
  exact (@App_capture_ignores_mute
           (run App.handlers start (connect 1 ++ [ClickMute]))
           (demo_call 1) [1 # 2] (or_introl eq_refl) (or_introl eq_refl)
           eq_refl eq_refl eq_refl).
Defined.

(** VoiceAgent.jsx does what C1 says: it reads the ref, which every render
    brings up to date. *)
Lemma VoiceAgent_ref_in_sync evs :
  let c := comp (run VoiceAgent.handlers start evs) in
  isMutedRef c = isMuted c.
Proof.
  cbn zeta. unfold run.
  assert (G : forall cfg, isMutedRef (comp cfg) = isMuted (comp cfg) ->
              isMutedRef (comp (fold_left (step VoiceAgent.handlers) evs cfg))
              = isMuted (comp (fold_left (step VoiceAgent.handlers) evs cfg))).
  { induction evs as [|ev evs IH]; intros cfg Hc; [exact Hc|].
    cbn [fold_left]. apply IH.
    assert (D : forall A (h : M A),
               isMutedRef (comp (snd (dispatch VoiceAgent.handlers h cfg)))
               = isMuted (comp (snd (dispatch VoiceAgent.handlers h cfg)))).
    { intros A h. rewrite dispatch_comp. cbn [h_render VoiceAgent.handlers].
      destruct (final h (comp cfg)); reflexivity. }
    destruct ev; cbn [step];
      repeat match goal with
             | |- context [if ?b then _ else _] => destruct b
             end; cbn [comp]; auto.
    - pose proof (D _ (h_startCall VoiceAgent.handlers env)) as D'.
      destruct (dispatch VoiceAgent.handlers
                  (h_startCall VoiceAgent.handlers env) cfg)
        as [[[call|]|] cfg1]; exact D'.
    - destruct (timers cfg); cbn [comp]; auto. }
  apply G. reflexivity.
Qed.

Lemma VoiceAgent_mute_gates evs call inputData :
  let cfg := run VoiceAgent.handlers start evs in
  existsb (same_call call) (opened cfg) = true ->
  trace (step VoiceAgent.handlers cfg (AudioProcess call inputData))
  = trace cfg ++
    (if isMuted (comp cfg) then []
     else match sessionRef (comp cfg) with
          | Some s => [SendRealtimeInput s (createPcmBlob inputData)]
          | None => []
          end).
Proof.
  intros cfg Hop. cbn [step]. rewrite Hop, dispatch_trace. f_equal.
  pose proof (VoiceAgent_ref_in_sync evs) as Hs. cbn zeta in Hs.
  fold cfg in Hs. rewrite <- Hs.
  cbn [h_onaudioprocess VoiceAgent.handlers].
  unfold VoiceAgent.onaudioprocess, effects. rewrite bind_eval. cbn [get].
  destruct (isMutedRef (comp cfg)); [reflexivity|].
  destruct (sessionRef (comp cfg)); reflexivity.
Qed.

End CallClaims.

Section PlaybackFacts.
Import Pcm Call Demo.

(** The audio branch on a chunk that decodes. *)
Lemma onmessage_audio_chunk now m c b :
  chunk_buffer m = Some b ->
  onmessage_audio now m c
  = (Ok tt, scheduled now b c,
     [SourceStart (new_node b c) (Qmax (nextStartTimeRef c) now)]).
Proof.
  unfold chunk_buffer, onmessage_audio.
  destruct (audio m) as [a|]; [|discriminate].
  destruct (truthy a); [|discriminate].
  destruct (Base64.decode a) as [bytes|e]; [|discriminate].
  destruct (decodeAudioData bytes 24000 1) as [b'|e] eqn:Eb; [|discriminate].
  intros [= ->]. unfold bind, lift, modify.
  cbn -[decodeAudioData Qmax Qplus duration]. rewrite Eb.
  destruct c; reflexivity.
Qed.

Lemma onmessage_interrupted_skip m c :
  interrupted m = false -> onmessage_interrupted m c = (Ok tt, c, []).
Proof. unfold onmessage_interrupted. now intros ->. Qed.

Lemma onmessage_interrupted_run m c :
  interrupted m = true ->
  onmessage_interrupted m c
  = (Ok tt,
     set_isModelSpeaking false
       (set_nextStartTimeRef 0 (set_sourcesRef [] c)),
     map SourceStop (sourcesRef c)).
Proof.
  unfold onmessage_interrupted. intros ->.
  rewrite bind_eval. cbn [get]. rewrite bind_eval, forEach_stop.
  cbn. now rewrite app_nil_r.
Qed.

Lemma VoiceAgent_onmessage_shape call now dateNow m :
  VoiceAgent.onmessage call now dateNow m
  = (onmessage_audio now m ;; onmessage_interrupted m ;;
     VoiceAgent.onmessage_transcription dateNow m).
Proof. reflexivity. Qed.

Lemma VoiceAgent_transcription_only dateNow m :
  transcript_only (VoiceAgent.onmessage_transcription dateNow m).
Proof.
  unfold transcript_only, VoiceAgent.onmessage_transcription,
    VoiceAgent.append_entry.
  repeat split.
  - intros c. destruct m as [a i [[t|]|] [[t'|]|] tc]; cbn;
      repeat match goal with |- context [truthy ?x] => destruct (truthy x) end;
      reflexivity.
  - intros c. destruct m as [a i [[t|]|] [[t'|]|] tc]; cbn;
      repeat match goal with |- context [truthy ?x] => destruct (truthy x) end;
      reflexivity.
  - frame; by_fields.
  - frame; by_fields.
  - frame; by_fields.
Qed.

Lemma App_transcription_only dateNow m :
  transcript_only (App.onmessage_transcription dateNow m).
Proof.
  unfold transcript_only, App.onmessage_transcription. repeat split.
  - intros c. destruct m as [a i [t|] [t'|] []], c;
      unfold effects, outcome, bind, modify, get, ret; cbn;
      repeat match goal with
             | |- context [if ?b then _ else _] => destruct b
             end; reflexivity.
  - intros c. destruct m as [a i [t|] [t'|] []], c;
      unfold effects, outcome, bind, modify, get, ret; cbn;
      repeat match goal with
             | |- context [if ?b then _ else _] => destruct b
             end; reflexivity.
  - frame; by_fields.
  - frame; by_fields.
  - frame; by_fields.
Qed.

(** Both copies run the same two branches and then their own transcript
    code. *)
Lemma onmessage_shape H call now dateNow m :
  copy H ->
  exists rest,
    transcript_only rest /\
    h_onmessage H call now dateNow m
    = (onmessage_audio now m ;; onmessage_interrupted m ;; rest).
Proof.
  intros [->| ->].
  - exists (VoiceAgent.onmessage_transcription dateNow m).
    split; [apply VoiceAgent_transcription_only|reflexivity].
  - exists (App.onmessage_transcription dateNow m).
    split; [apply App_transcription_only|reflexivity].
Qed.

Lemma run_transcript_only rest c :
  transcript_only rest ->
  exists c', rest c = (Ok tt, c', []) /\
             sourcesRef c' = sourcesRef c /\
             nextStartTimeRef c' = nextStartTimeRef c /\
             isModelSpeaking c' = isModelSpeaking c.
Proof.
  intros (He & Ho & Hs & Hn & Hi).
  specialize (He c). specialize (Ho c). specialize (Hs c).
  specialize (Hn c). specialize (Hi c).
  unfold effects, outcome, final, same in *.
  destruct (rest c) as [[r c'] t]; cbn in *. subst. eauto.
Qed.

(** A message that interrupts, once its own audio (if any) is scheduled. *)
Lemma interrupted_message rest now m c :
  transcript_only rest ->
  interrupted m = true ->
  outcome (onmessage_audio now m) c = Ok tt ->
  let h := onmessage_audio now m ;; onmessage_interrupted m ;; rest in
  outcome h c = Ok tt /\
  sourcesRef (final h c) = [] /\
  nextStartTimeRef (final h c) = 0%Q /\
  isModelSpeaking (final h c) = false /\
  effects h c
  = effects (onmessage_audio now m) c
    ++ map SourceStop (sourcesRef (final (onmessage_audio now m) c)).
Proof.
  intros Hrest Hint Hok h. subst h. unfold outcome, final, effects in *.
  rewrite bind_eval.
  destruct (onmessage_audio now m c) as [[[[]|e] c1] t1]; cbn in Hok;
    [|discriminate].
  rewrite bind_eval, (@onmessage_interrupted_run m c1 Hint).
  destruct (run_transcript_only
              (set_isModelSpeaking false
                 (set_nextStartTimeRef 0 (set_sourcesRef [] c1))) Hrest)
    as (c' & -> & Hs & Hn & Hi).
  cbn [fst snd]. rewrite Hs, Hn, Hi, app_nil_r.
  destruct c1; repeat split; reflexivity.
Qed.



(** A chunk, in either copy: one source started at the clamped time, the
    cursor moved behind it. *)
Lemma onmessage_chunk H call now dateNow m c b :
  copy H ->
  chunk_buffer m = Some b -> interrupted m = false ->
  let h := h_onmessage H call now dateNow m in
  effects h c = [SourceStart (new_node b c) (Qmax (nextStartTimeRef c) now)]
  /\ nextStartTimeRef (final h c)
     = (Qmax (nextStartTimeRef c) now + duration b)%Q.
Proof.
  intros HH Hb Hi h. subst h.
  destruct (@onmessage_shape H call now dateNow m HH) as (rest & Hrest & ->).
  unfold effects, final.
  rewrite bind_eval, (@onmessage_audio_chunk now m c b Hb).
  rewrite bind_eval, (@onmessage_interrupted_skip m _ Hi).
  destruct (run_transcript_only (scheduled now b c) Hrest) as (c' & -> & _ & Hn & _).
  cbn [fst snd app]. rewrite Hn. split; reflexivity.
Qed.

Lemma onmessage_audio_ok now m c :
  audio_decodes m = true -> outcome (onmessage_audio now m) c = Ok tt.
Proof.
  unfold audio_decodes. intros Hd. unfold outcome.
  destruct (chunk_buffer m) as [b|] eqn:Eb.
  - now rewrite (@onmessage_audio_chunk now m c b Eb).
  - unfold onmessage_audio. destruct (audio m) as [a|]; [|reflexivity].
    destruct (truthy a); [discriminate|reflexivity].
Qed.

(** The audio branch on audio that does not decode: the exception leaves
    the handler with the indicator switched on and nothing else done. *)
Lemma onmessage_audio_fails now m c :
  audio_decodes m = false ->
  exists e, onmessage_audio now m c = (Throw e, set_isModelSpeaking true c, []).
Proof.
  unfold audio_decodes, chunk_buffer, onmessage_audio.
  destruct (audio m) as [a|]; [|discriminate].
  destruct (truthy a); [|discriminate].
  unfold bind, lift, modify. cbn -[decodeAudioData Base64.decode].
  destruct (Base64.decode a) as [bytes|e] eqn:Ed.
  - cbn -[decodeAudioData].
    destruct (decodeAudioData bytes 24000 1) as [b|e] eqn:Eb; [discriminate|].
    intros _. now exists e.
  - intros _. now exists e.
Qed.

(** A message whose audio does not decode, in either copy: the exception
    leaves [onmessage] before the other branches are reached. *)
Lemma onmessage_skipped H call now dateNow m c :
  copy H -> audio_decodes m = false ->
  let h := h_onmessage H call now dateNow m in
  (exists e, outcome h c = Throw e) /\ effects h c = [] /\
  final h c = set_isModelSpeaking true c.
Proof.
  intros HH Hd h. subst h.
  destruct (@onmessage_shape H call now dateNow m HH) as (rest & _ & ->).
  destruct (@onmessage_audio_fails now m c Hd) as (e & E).
  unfold outcome, effects, final. rewrite bind_eval, E. cbn [fst snd].
  split; [now exists e|]. split; reflexivity.
Qed.

End PlaybackFacts.

Section PlaybackClaims.
Import Pcm Call Demo.
Local Open Scope Q_scope.




Lemma render_cursor H c :
  copy H -> nextStartTimeRef (h_render H c) = nextStartTimeRef c.
Proof. intros [->| ->]; destruct c; reflexivity. Qed.

Lemma is_chunk_buffer m :
  is_chunk m = true ->
  exists b, chunk_buffer m = Some b /\ interrupted m = false /\
            chunk_duration m = duration b.
Proof.
  unfold is_chunk, chunk_duration. destruct (chunk_buffer m) as [b|];
    [|discriminate].
  intros Hi. exists b. repeat split. now destruct (interrupted m).
Qed.

Lemma starts_app t t' : starts (t ++ t') = starts t ++ starts t'.
Proof. unfold starts. apply flat_map_app. Qed.

(** The code's starts along a run of chunks are those of the rule. *)
Lemma schedule_run H call :
  copy H ->
  forall inbound cfg,
    existsb (same_call call) (calls cfg) = true ->
    Forall (fun x => is_chunk (snd x) = true) inbound ->
    let cfg' := run H cfg (inbound_events call inbound) in
    starts (trace cfg')
    = starts (trace cfg)
      ++ spec_schedule (nextStartTimeRef (comp cfg)) (arrivals inbound) /\
    nextStartTimeRef (comp cfg')
    = spec_cursor (nextStartTimeRef (comp cfg)) (arrivals inbound).
Proof.
  intros HH. induction inbound as [|[[now dn] m] inbound IH];
    intros cfg Hreg Hall cfg'; subst cfg'.
  - cbn. now rewrite app_nil_r.
  - inversion_clear Hall as [|? ? Hm Hall']. cbn [snd] in Hm.
    destruct (is_chunk_buffer _ Hm) as (b & Hb & Hi & Hd).
    cbn [inbound_events map run fold_left fst snd arrivals].
    change (fold_left (step H) (map _ inbound) ?x)
      with (run H x (inbound_events call inbound)).
    cbn [step]. rewrite Hreg.
    set (cfg1 := snd (dispatch H (h_onmessage H call now dn m) cfg)).
    destruct (@onmessage_chunk H call now dn m (comp cfg) b HH Hb Hi)
      as (He & Hn).
    assert (Hreg1 : existsb (same_call call) (calls cfg1) = true)
      by (unfold cfg1; now rewrite dispatch_calls).
    destruct (IH cfg1 Hreg1 Hall') as (IH1 & IH2).
    assert (Ht : trace cfg1 = trace cfg ++
                 [SourceStart (new_node b (comp cfg))
                              (Qmax (nextStartTimeRef (comp cfg)) now)])
      by (unfold cfg1; now rewrite dispatch_trace, He).
    assert (Hc : nextStartTimeRef (comp cfg1)
                 = Qmax (nextStartTimeRef (comp cfg)) now + duration b)
      by (unfold cfg1; now rewrite dispatch_comp, render_cursor, Hn).
    rewrite IH1, IH2, Ht, Hc, starts_app, Hd.
    cbn [spec_schedule spec_cursor starts flat_map app].
    rewrite <- app_assoc. split; reflexivity.
Qed.

Lemma chunk_check_spec m d :
  chunk_check m d = true -> is_chunk m = true /\ chunk_duration m == d.
Proof.
  unfold chunk_check, is_chunk, chunk_duration.
  destruct (chunk_buffer m) as [b|]; [|discriminate].
  intros Hc. apply andb_prop in Hc as [-> Hq]. split; [reflexivity|].
  now apply Qeq_bool_iff.
Qed.

(** C4.  Along any sequence of inbound audio chunks the sources are
    started at the times the rule gives, start = max(nextStart, now) with
    nextStart = start + d afterwards; in particular chunks of 0.5 s, 0.3 s
    and 0.4 s that arrive at t0, t0 + 0.1 and t0 + 0.9, with the cursor not
    ahead of t0, start at t0, t0 + 0.5 and t0 + 0.9.  Both copies. *)
Theorem playback_schedule (H : Handlers) (call : CallClosure)
  (cfg : Config) (inbound : list (Q * Z * LiveServerMessage)) :
  copy H ->
  existsb (same_call call) (calls cfg) = true ->
  Forall (fun x => is_chunk (snd x) = true) inbound ->
  let cfg' := run H cfg (inbound_events call inbound) in
  let started := spec_schedule (nextStartTimeRef (comp cfg))
                               (arrivals inbound) in
  starts (trace cfg') = starts (trace cfg) ++ started /\
  nextStartTimeRef (comp cfg')
  = spec_cursor (nextStartTimeRef (comp cfg)) (arrivals inbound) /\
  (forall t0 d1 d2 d3,
     arrivals inbound
     = [(t0, d1); (t0 + (1 # 10), d2); (t0 + (9 # 10), d3)] ->
     d1 == 1 # 2 -> d2 == 3 # 10 -> d3 == 2 # 5 ->
     nextStartTimeRef (comp cfg) <= t0 ->
     Forall2 Qeq started [t0; t0 + (1 # 2); t0 + (9 # 10)]).
Proof.
  intros HH Hreg Hall cfg' started.
  destruct (@schedule_run H call HH inbound cfg Hreg Hall) as (Hs & Hc).
  split; [exact Hs|]. split; [exact Hc|].
  intros t0 d1 d2 d3 Ha H1 H2 H3 H0. subst started. rewrite Ha.
  cbn [spec_schedule].
  set (s1 := Qmax (nextStartTimeRef (comp cfg)) t0).
  assert (E1 : s1 == t0) by (now apply Q.max_r).
  set (s2 := Qmax (s1 + d1) (t0 + (1 # 10))).
  assert (E2 : s2 == s1 + d1) by (apply Q.max_l; lra).
  set (s3 := Qmax (s2 + d2) (t0 + (9 # 10))).
  assert (E3 : s3 == t0 + (9 # 10)) by (apply Q.max_r; lra).
  repeat constructor; [exact E1|lra|exact E3].
Qed.

(** Three chunks of silence of those durations, from clock time 2 on. *)
Lemma playback_schedule_witness :
  let cfg := run VoiceAgent.handlers start (connect 1) in
  let cfg' := run VoiceAgent.handlers cfg
                  (inbound_events (demo_call 1) three_chunks) in
  Forall2 Qeq (starts (trace cfg')) [2; 2 + (1 # 2); 2 + (9 # 10)].
Proof.
  intros cfg cfg'. subst cfg'. unfold three_chunks.
  assert (C1 : chunk_check (silence 32000) (1 # 2) = true)
    by (vm_compute; reflexivity).
  assert (C2 : chunk_check (silence 19200) (3 # 10) = true)
    by (vm_compute; reflexivity).
  assert (C3 : chunk_check (silence 25600) (2 # 5) = true)
    by (vm_compute; reflexivity).
  apply chunk_check_spec in C1, C2, C3.
  revert C1 C2 C3.
  generalize (silence 32000) (silence 19200) (silence 25600).
  intros m1 m2 m3 [K1 D1] [K2 D2] [K3 D3].
  assert (R : existsb (same_call (demo_call 1)) (calls cfg) = true) by (vm_compute; reflexivity).
  assert (F : Forall (fun x => is_chunk (snd x) = true)
                [(2, 0%Z, m1); (2 + (1 # 10), 0%Z, m2);
                 (2 + (9 # 10), 0%Z, m3)])
    by (repeat constructor; assumption).
  pose proof (@playback_schedule VoiceAgent.handlers (demo_call 1) cfg
                _ (or_introl eq_refl) R F) as W.
  destruct W as (Ws & _ & Wex).
  rewrite Ws. 
  change (starts (trace cfg)) with (@nil Q).
  cbn [app].
  apply (Wex 2 _ _ _ eq_refl D1 D2 D3).
  discriminate.
Defined.

End PlaybackClaims.

Section TranscriptFacts.
Import Pcm Call Demo.
Local Open Scope nat_scope.

Lemma slice_last_length A n (l : list A) : List.length (slice_last n l) <= n.
Proof. unfold slice_last. rewrite length_skipn. lia. Qed.

Lemma slice_last_short A n (l : list A) :
  List.length l <= n -> slice_last n l = l.
Proof.
  intros Hl. unfold slice_last.
  replace (List.length l - n) with 0 by lia. reflexivity.
Qed.

(** Cutting to the last [n], appending and cutting again is cutting once. *)
Lemma slice_last_app A n (l x : list A) :
  slice_last n (slice_last n l ++ x) = slice_last n (l ++ x).
Proof.
  destruct (Nat.le_gt_cases (List.length l) n) as [Hs|Hl].
  - now rewrite (slice_last_short _ Hs).
  - unfold slice_last. rewrite !length_app, !skipn_app, !length_skipn.
    rewrite skipn_skipn. f_equal; f_equal; lia.
Qed.

Lemma append_one_as_turn e prev :
  VoiceAgent.append_one e prev = App.append_turn [e] prev.
Proof.
  unfold VoiceAgent.append_one, App.append_turn, slice_last.
  rewrite length_app, skipn_app. cbn [List.length].
  replace (List.length prev + 1 - 20) with (List.length prev - 19) by lia.
  replace (List.length prev - 19 - List.length prev) with 0 by lia.
  reflexivity.
Qed.

Lemma append_turn_length es prev :
  List.length (App.append_turn es prev) <= 20.
Proof. apply slice_last_length. Qed.

Lemma append_one_length e prev :
  List.length (VoiceAgent.append_one e prev) <= 20.
Proof. rewrite append_one_as_turn. apply append_turn_length. Qed.

(** The log after any number of turns is the last 20 of all that was
    appended. *)
Lemma append_turns_fifo turns log :
  fold_left (fun log es => App.append_turn es log) turns (slice_last 20 log)
  = slice_last 20 (log ++ List.concat turns).
Proof.
  revert log. induction turns as [|es turns IH]; intros log; cbn.
  - now rewrite app_nil_r.
  - unfold App.append_turn at 2. rewrite slice_last_app, IH.
    now rewrite <- app_assoc.
Qed.

Lemma append_ones_fifo entries log :
  fold_left (fun log e => VoiceAgent.append_one e log) entries
            (slice_last 20 log)
  = slice_last 20 (log ++ entries).
Proof.
  revert log. induction entries as [|e entries IH]; intros log; cbn.
  - now rewrite app_nil_r.
  - rewrite append_one_as_turn. unfold App.append_turn.
    rewrite slice_last_app, IH. now rewrite <- app_assoc.
Qed.

Ltac cap :=
  try (match goal with
       | c : Component |- _ =>
           destruct c; unfold cap_ok; cbn [transcriptions set_status
             set_transcriptions set_isMuted set_isModelSpeaking set_error
             set_sessionRef set_inputAudioCtxRef set_outputAudioCtxRef
             set_nextStartTimeRef set_sourcesRef set_isMutedRef
             set_transcriptionRef set_nodesCreated List.length];
           auto using append_one_length, append_turn_length with arith
       end).

Lemma VoiceAgent_cap : Respectful cap_ok VoiceAgent.handlers.
Proof.
  split; cbn [VoiceAgent.handlers h_startCall h_connectResolved
              h_connectRejected h_onaudioprocess h_onmessage h_onerror
              h_onclose h_cleanupCall h_render]; intros;
    unfold_handlers; frame; unfold_handlers; frame; cap.
Qed.

Lemma App_cap : Respectful cap_ok App.handlers.
Proof.
  split; cbn [App.handlers h_startCall h_connectResolved
              h_connectRejected h_onaudioprocess h_onmessage h_onerror
              h_onclose h_cleanupCall h_render]; intros;
    unfold_handlers; frame; unfold_handlers; frame; cap.
Qed.

Lemma run_cap H :
  copy H ->
  forall evs cfg,
    List.length (transcriptions (comp cfg)) <= 20 ->
    List.length (transcriptions (comp (run H cfg evs))) <= 20.
Proof.
  intros HH. induction evs as [|ev evs IH]; intros cfg Hc; [exact Hc|].
  cbn [run fold_left]. apply IH.
  assert (HR : Respectful cap_ok H)
    by (destruct HH as [->| ->]; [apply VoiceAgent_cap|apply App_cap]).
  apply (@step_respects cap_ok _ H HR cfg ev); [|exact Hc].
  intros call _. destruct HH as [->| ->];
    cbn [h_onopen VoiceAgent.handlers App.handlers];
    unfold VoiceAgent.onopen, App.onopen; frame; cap.
Qed.

Lemma final_bind_ok A B (m : M A) (k : A -> M B) c a :
  outcome m c = Ok a -> final (bind m k) c = final (k a) (final m c).
Proof.
  unfold outcome, final. rewrite bind_eval.
  destruct (m c) as [[[x|e] c1] t1]; cbn; [|discriminate].
  intros [= ->]. now destruct (k a c1) as [[r c2] t2].
Qed.

Lemma onmessage_interrupted_ok m c : outcome (onmessage_interrupted m) c = Ok tt.
Proof.
  unfold outcome. destruct (interrupted m) eqn:E.
  - now rewrite (@onmessage_interrupted_run m c E).
  - now rewrite (@onmessage_interrupted_skip m c E).
Qed.

Lemma playback_keeps_transcript X (f : Component -> X) now m :
  (forall c v, f (set_isModelSpeaking v c) = f c) ->
  (forall c v, f (set_nextStartTimeRef v c) = f c) ->
  (forall c v, f (set_sourcesRef v c) = f c) ->
  (forall c v, f (set_nodesCreated v c) = f c) ->
  respects (same f) (onmessage_audio now m ;; onmessage_interrupted m).
Proof.
  intros H1 H2 H3 H4.
  unfold onmessage_audio, onmessage_interrupted, createBufferSource,
    source_stop.
  frame; unfold same; auto.
Qed.

(** What the transcript code of App.tsx leaves behind. *)
Lemma App_transcription_final dateNow m c :
  let c' := final (App.onmessage_transcription dateNow m) c in
  let acc := App.accumulate (transcriptionRef c) m in
  if turnComplete m then
    transcriptionRef c' = {| buf_user := ""; buf_model := "" |} /\
    transcriptions c'
    = (if truthy (buf_user acc) || truthy (buf_model acc)
       then App.append_turn
              (App.newEntries dateNow (buf_user acc) (buf_model acc))
              (transcriptions c)
       else transcriptions c)
  else
    transcriptionRef c' = acc /\ transcriptions c' = transcriptions c.
Proof.
  destruct m as [a i [t|] [t'|] []], c as [? ? ? ? ? ? ? ? ? ? ? [u mo] ? ?];
    unfold final, App.onmessage_transcription, App.accumulate, bind, modify, get, ret; cbn;
    repeat match goal with
           | |- context [if ?b then _ else _] => destruct b
           end; split; reflexivity.
Qed.

Lemma VoiceAgent_transcription_final dateNow m c :
  transcriptions (final (VoiceAgent.onmessage_transcription dateNow m) c)
  = VoiceAgent.with_deltas dateNow m (transcriptions c).
Proof.
  destruct m as [a i [[t|]|] [[t'|]|] tc], c;
    unfold final, VoiceAgent.onmessage_transcription,
      VoiceAgent.with_deltas,
      VoiceAgent.append_entry, bind, modify, ret; cbn;
    repeat match goal with
           | |- context [if ?b then _ else _] => destruct b
           end; reflexivity.
Qed.

(** Once the audio of a message has decoded, the transcript code runs on
    the log and the buffers as they were. *)
Lemma onmessage_transcript_part (rest : M unit) now m c :
  audio_decodes m = true ->
  exists c2,
    final (onmessage_audio now m ;; onmessage_interrupted m ;; rest) c
    = final rest c2 /\
    transcriptions c2 = transcriptions c /\
    transcriptionRef c2 = transcriptionRef c.
Proof.
  intros Hd. pose proof (@onmessage_audio_ok now m c Hd) as Hok.
  exists (final (onmessage_audio now m ;; onmessage_interrupted m) c).
  split; [|split].
  - unfold outcome, final in *. rewrite !bind_eval.
    destruct (onmessage_audio now m c) as [[[[]|e] c1] t1]; cbn in Hok;
      [|discriminate].
    rewrite !bind_eval.
    pose proof (onmessage_interrupted_ok m c1) as Hi. unfold outcome in Hi.
    destruct (onmessage_interrupted m c1) as [[[[]|e] c3] t3]; cbn in Hi;
      [|discriminate].
    cbn. now destruct (rest c3) as [[r c4] t4].
  - apply (@playback_keeps_transcript _ transcriptions now m);
      intros []; reflexivity.
  - apply (@playback_keeps_transcript _ transcriptionRef now m);
      intros []; reflexivity.
Qed.

(** What a message leaves in the log and the buffers of App.tsx, and in
    the log of VoiceAgent.jsx. *)
Lemma App_onmessage_transcript call now dateNow m c :
  audio_decodes m = true ->
  let c' := final (App.onmessage call now dateNow m) c in
  let acc := App.accumulate (transcriptionRef c) m in
  if turnComplete m then
    transcriptionRef c' = {| buf_user := ""; buf_model := "" |} /\
    transcriptions c'
    = (if truthy (buf_user acc) || truthy (buf_model acc)
       then App.append_turn
              (App.newEntries dateNow (buf_user acc) (buf_model acc))
              (transcriptions c)
       else transcriptions c)
  else
    transcriptionRef c' = acc /\ transcriptions c' = transcriptions c.
Proof.
  intros Hd.
  destruct (@onmessage_transcript_part
              (App.onmessage_transcription dateNow m) now m c Hd)
    as (c2 & E & Ht & Hb).
  change (App.onmessage call now dateNow m)
    with (onmessage_audio now m ;; onmessage_interrupted m ;;
          App.onmessage_transcription dateNow m).
  cbn zeta. rewrite E, <- Ht, <- Hb. apply App_transcription_final.
Qed.

Lemma VoiceAgent_onmessage_transcript call now dateNow m c :
  audio_decodes m = true ->
  transcriptions (final (VoiceAgent.onmessage call now dateNow m) c)
  = VoiceAgent.with_deltas dateNow m (transcriptions c).
Proof.
  intros Hd.
  destruct (@onmessage_transcript_part
              (VoiceAgent.onmessage_transcription dateNow m) now m c Hd)
    as (c2 & E & Ht & _).
  change (VoiceAgent.onmessage call now dateNow m)
    with (onmessage_audio now m ;; onmessage_interrupted m ;;
          VoiceAgent.onmessage_transcription dateNow m).
  rewrite E, <- Ht. apply VoiceAgent_transcription_final.
Qed.

Lemma most_recent_20_slice l : most_recent_20 l = slice_last 20 l.
Proof. reflexivity. Qed.

Lemma render_log H c :
  copy H ->
  transcriptions (h_render H c) = transcriptions c /\
  transcriptionRef (h_render H c) = transcriptionRef c.
Proof. intros [->| ->]; destruct c; split; reflexivity. Qed.

(** One message, delivered to a registered call. *)
Lemma step_message H cfg call now dateNow m :
  existsb (same_call call) (calls cfg) = true ->
  comp (step H cfg (OnMessage call now dateNow m))
  = h_render H (final (h_onmessage H call now dateNow m) (comp cfg)) /\
  calls (step H cfg (OnMessage call now dateNow m)) = calls cfg.
Proof.
  intros Hreg. cbn [step]. rewrite Hreg.
  split; [apply dispatch_comp|apply dispatch_calls].
Qed.

Lemma VoiceAgent_delta_logged cfg call e :
  existsb (same_call call) (calls cfg) = true ->
  truthy (text e) = true ->
  let cfg' := step VoiceAgent.handlers cfg
                (OnMessage call 0 (timestamp e)
                           (delta_message (role e) (text e))) in
  transcriptions (comp cfg')
  = VoiceAgent.append_one e (transcriptions (comp cfg)) /\
  calls cfg' = calls cfg.
Proof.
  intros Hreg He cfg'. subst cfg'.
  destruct (@step_message VoiceAgent.handlers cfg call 0%Q (timestamp e)
              (delta_message (role e) (text e)) Hreg) as (-> & ->).
  split; [|reflexivity].
  destruct (render_log (final (h_onmessage VoiceAgent.handlers call 0%Q
                                 (timestamp e)
                                 (delta_message (role e) (text e)))
                              (comp cfg)) (or_introl eq_refl)) as (-> & _).
  cbn [h_onmessage VoiceAgent.handlers].
  rewrite VoiceAgent_onmessage_transcript
    by (destruct (role e); reflexivity).
  unfold VoiceAgent.with_deltas.
  destruct e as [[] t ts]; cbn [role text timestamp delta_message
    inputTranscription outputTranscription] in *; now rewrite He.
Qed.

Lemma VoiceAgent_deltas_logged call entries :
  Forall (fun e => truthy (text e) = true) entries ->
  forall cfg,
    existsb (same_call call) (calls cfg) = true ->
    List.length (transcriptions (comp cfg)) <= 20 ->
    transcriptions
      (comp (run VoiceAgent.handlers cfg (delta_events call entries)))
    = most_recent_20 (transcriptions (comp cfg) ++ entries).
Proof.
  intros Hall. induction Hall as [|e entries He _ IH]; intros cfg Hreg Hlen.
  - cbn. rewrite app_nil_r, most_recent_20_slice.
    symmetry. now apply slice_last_short.
  - cbn [delta_events map run fold_left].
    change (fold_left (step VoiceAgent.handlers) (map _ entries) ?x)
      with (run VoiceAgent.handlers x (delta_events call entries)).
    destruct (@VoiceAgent_delta_logged cfg call e Hreg He) as (Hlog & Hc).
    rewrite IH.
    + rewrite Hlog, append_one_as_turn. unfold App.append_turn.
      rewrite !most_recent_20_slice, slice_last_app.
      now rewrite <- app_assoc.
    + now rewrite Hc.
    + rewrite Hlog. apply append_one_length.
Qed.

Lemma turn_entries_newEntries dateNow u mo :
  App.newEntries dateNow u mo = turn_entries (dateNow, u, mo).
Proof.
  unfold App.newEntries, turn_entries. cbn [fst snd].
  destruct u, mo; reflexivity.
Qed.

Lemma App_turn_logged cfg call t :
  existsb (same_call call) (calls cfg) = true ->
  List.length (transcriptions (comp cfg)) <= 20 ->
  transcriptionRef (comp cfg) = {| buf_user := ""; buf_model := "" |} ->
  let cfg' := run App.handlers cfg (turn_events call t) in
  transcriptions (comp cfg')
  = slice_last 20 (transcriptions (comp cfg) ++ turn_entries t) /\
  transcriptionRef (comp cfg') = {| buf_user := ""; buf_model := "" |} /\
  calls cfg' = calls cfg.
Proof.
  intros Hreg Hlen Hbuf cfg'. subst cfg'. destruct t as [[dn u] mo].
  unfold turn_events. cbn [fst snd run fold_left].
  set (m1 := delta_message user u). set (m2 := delta_message model mo).
  set (m3 := {| audio := None; interrupted := false;
                inputTranscription := None; outputTranscription := None;
                turnComplete := true |}).
  set (cfg1 := step App.handlers cfg (OnMessage call 0 0 m1)).
  destruct (@step_message App.handlers cfg call 0%Q 0%Z m1 Hreg) as (C1 & R1).
  fold cfg1 in C1, R1.
  pose proof (@App_onmessage_transcript call 0%Q 0%Z m1 (comp cfg) eq_refl)
    as T1. cbn zeta in T1. cbn [turnComplete m1 delta_message] in T1.
  destruct T1 as (B1 & L1).
  cbn [h_render App.handlers h_onmessage] in C1. rewrite <- C1 in B1, L1.
  set (cfg2 := step App.handlers cfg1 (OnMessage call 0 0 m2)).
  assert (Hreg1 : existsb (same_call call) (calls cfg1) = true)
    by now rewrite R1.
  destruct (@step_message App.handlers cfg1 call 0%Q 0%Z m2 Hreg1) as (C2 & R2).
  fold cfg2 in C2, R2.
  pose proof (@App_onmessage_transcript call 0%Q 0%Z m2 (comp cfg1) eq_refl)
    as T2. cbn zeta in T2. cbn [turnComplete m2 delta_message] in T2.
  destruct T2 as (B2 & L2).
  cbn [h_render App.handlers h_onmessage] in C2. rewrite <- C2 in B2, L2.
  set (cfg3 := step App.handlers cfg2 (OnMessage call 0 dn m3)).
  assert (Hreg2 : existsb (same_call call) (calls cfg2) = true)
    by now rewrite R2.
  destruct (@step_message App.handlers cfg2 call 0%Q dn m3 Hreg2) as (C3 & R3).
  fold cfg3 in C3, R3.
  pose proof (@App_onmessage_transcript call 0%Q dn m3 (comp cfg2) eq_refl)
    as T3. cbn zeta in T3. cbn [turnComplete m3] in T3.
  destruct T3 as (B3 & L3).
  cbn [h_render App.handlers h_onmessage] in C3. rewrite <- C3 in B3, L3.
  assert (Hacc : App.accumulate (transcriptionRef (comp cfg2)) m3
                 = {| buf_user := u; buf_model := mo |}).
  { rewrite B2, B1, Hbuf. unfold App.accumulate. cbn. reflexivity. }
  rewrite Hacc in L3. cbn [buf_user buf_model] in L3.
  split; [|split; [exact B3|congruence]].
  rewrite L3, L2, L1, turn_entries_newEntries.
  destruct (truthy u || truthy mo) eqn:E.
  - reflexivity.
  - apply orb_false_elim in E. destruct E as (Eu & Em).
    destruct u; [|discriminate]. destruct mo; [|discriminate].
    cbn [turn_entries fst snd app]. rewrite app_nil_r.
    symmetry. now apply slice_last_short.
Qed.

Lemma App_turns_logged call turns :
  forall cfg,
    existsb (same_call call) (calls cfg) = true ->
    List.length (transcriptions (comp cfg)) <= 20 ->
    transcriptionRef (comp cfg) = {| buf_user := ""; buf_model := "" |} ->
    transcriptions
      (comp (run App.handlers cfg (flat_map (turn_events call) turns)))
    = most_recent_20 (transcriptions (comp cfg) ++ flat_map turn_entries turns).
Proof.
  induction turns as [|t turns IH]; intros cfg Hreg Hlen Hbuf.
  - cbn. rewrite app_nil_r, most_recent_20_slice.
    symmetry. now apply slice_last_short.
  - cbn [flat_map]. rewrite run_app.
    destruct (@App_turn_logged cfg call t Hreg Hlen Hbuf) as (Hlog & Hb & Hc).
    rewrite IH.
    + rewrite Hlog, !most_recent_20_slice, slice_last_app.
      now rewrite <- app_assoc.
    + now rewrite Hc.
    + rewrite Hlog. apply slice_last_length.
    + exact Hb.
Qed.

End TranscriptFacts.

Section TranscriptClaims.
Import Pcm Call Demo.
Local Open Scope nat_scope.
Local Open Scope string_scope.




(** C6.  Along any run of either copy the transcript log holds at most 20
    entries, and what the handlers write to it is first in, first out: in
    VoiceAgent.jsx after the messages of any list of deltas that carry
    text, in App.tsx after the messages of any list of turns, the log is
    the most recent 20 of what it held followed by the entries of those
    messages, in the order of arrival; in particular 25 entries written to
    an empty log leave the last 20 of them, in order. *)
Theorem transcript_log_capped (H : Handlers) (evs : list Event) :
  copy H ->
  List.length (transcriptions (comp (run H start evs))) <= 20 /\
  (forall call cfg entries,
     existsb (same_call call) (calls cfg) = true ->
     List.length (transcriptions (comp cfg)) <= 20 ->
     Forall (fun e => truthy (text e) = true) entries ->
     transcriptions
       (comp (run VoiceAgent.handlers cfg (delta_events call entries)))
     = most_recent_20 (transcriptions (comp cfg) ++ entries)) /\
  (forall call cfg turns,
     existsb (same_call call) (calls cfg) = true ->
     List.length (transcriptions (comp cfg)) <= 20 ->
     transcriptionRef (comp cfg) = {| buf_user := ""; buf_model := "" |} ->
     transcriptions
       (comp (run App.handlers cfg (flat_map (turn_events call) turns)))
     = most_recent_20
         (transcriptions (comp cfg) ++ flat_map turn_entries turns)) /\
  (forall call cfg entries,
     existsb (same_call call) (calls cfg) = true ->
     transcriptions (comp cfg) = [] ->
     Forall (fun e => truthy (text e) = true) entries ->
     List.length entries = 25 ->
     transcriptions
       (comp (run VoiceAgent.handlers cfg (delta_events call entries)))
     = skipn 5 entries) /\
  (forall call cfg turns,
     existsb (same_call call) (calls cfg) = true ->
     transcriptions (comp cfg) = [] ->
     transcriptionRef (comp cfg) = {| buf_user := ""; buf_model := "" |} ->
     List.length (flat_map turn_entries turns) = 25 ->
     transcriptions
       (comp (run App.handlers cfg (flat_map (turn_events call) turns)))
     = skipn 5 (flat_map turn_entries turns)).
Proof.
  intros HH. split; [|split; [|split; [|split]]].
  - apply run_cap; [assumption|]. cbn. lia.
  - intros call cfg entries Hreg Hlen Hall.
    now apply VoiceAgent_deltas_logged.
  - intros call cfg turns Hreg Hlen Hbuf. now apply App_turns_logged.
  - intros call cfg entries Hreg Hnil Hall H25.
    rewrite VoiceAgent_deltas_logged by (try assumption; rewrite Hnil; cbn; lia).
    rewrite Hnil. cbn [app]. unfold most_recent_20. now rewrite H25.
  - intros call cfg turns Hreg Hnil Hbuf H25.
    rewrite App_turns_logged by (try assumption; rewrite Hnil; cbn; lia).
    rewrite Hnil. cbn [app]. unfold most_recent_20. now rewrite H25.
Qed.

(** Twenty-five deltas of the user in VoiceAgent.jsx, twenty-five turns of
    the user in App.tsx. *)
Lemma transcript_log_capped_witness :
  let said := map (fun n => {| role := user; text := "hi";
                               timestamp := Z.of_nat n |}) (seq 0 25) in
  let turns := map (fun n => (Z.of_nat n, "hi", "")) (seq 0 25) in
  let up H := run H start (connect 1) in
  map timestamp
    (transcriptions
       (comp (run VoiceAgent.handlers (up VoiceAgent.handlers)
                  (delta_events (demo_call 1) said))))
  = map Z.of_nat (seq 5 20) /\
  map timestamp
    (transcriptions
       (comp (run App.handlers (up App.handlers)
                  (flat_map (turn_events (demo_call 1)) turns))))
  = map Z.of_nat (seq 5 20).
Proof.
  intros said turns up.
  destruct (@transcript_log_capped VoiceAgent.handlers [] (or_introl eq_refl))
    as (_ & _ & _ & WV & WA).
  split.
  - rewrite (WV (demo_call 1) (up VoiceAgent.handlers) said eq_refl eq_refl);
      [reflexivity| |reflexivity].
    unfold said. apply Forall_forall. intros e He.
    apply in_map_iff in He. destruct He as (n & <- & _). reflexivity.
  - rewrite (WA (demo_call 1) (up App.handlers) turns eq_refl eq_refl eq_refl);
      reflexivity.
Defined.

End TranscriptClaims.

(* ================================================================== *)
(** * Further properties of the code

    What the handlers and the audio helpers do beyond the behaviour the
    design document describes: edge cases of the codec, invariants of the
    playback set and of the transcript log, and the failure paths of
    [startCall]. *)

Section CodecProperties.
Import Pcm.
Local Open Scope Z_scope.

Lemma list_pair_ind A (P : list A -> Prop) :
  P [] -> (forall a, P [a]) -> (forall a b l, P l -> P (a :: b :: l)) ->
  forall l, P l.
Proof.
  intros H0 H1 H2. fix IH 1.
  intros [|a [|b l]]; [exact H0|apply H1|apply H2, IH].
Qed.

Lemma signed16_range t : -32768 <= signed16 t < 32768.
Proof.
  unfold signed16. destruct (Z.leb_spec 32768 (t mod 65536)); lia.
Qed.

(** The sixteen-bit view of a byte array: one cell per two bytes, refused
    when a byte is left over. *)
Lemma Int16Array_view data :
  match Int16Array_of_Uint8Array data with
  | Ok l =>
      Nat.even (List.length data) = true /\
      List.length l = (List.length data / 2)%nat /\
      Forall (fun v => -32768 <= v < 32768) l
  | Throw e => Nat.odd (List.length data) = true /\ e = RangeError
  end.
Proof.
  induction data as [|a|a b data IH] using list_pair_ind.
  - cbn. auto.
  - cbn. auto.
  - cbn [Int16Array_of_Uint8Array].
    destruct (Int16Array_of_Uint8Array data) as [l|e]; cbn [rbind].
    + destruct IH as (He & Hl & Hf). repeat split.
      * exact He.
      * cbn [List.length]. rewrite Hl.
        change (S (S (List.length data))) with (1 * 2 + List.length data)%nat.
        rewrite Nat.add_comm, Nat.div_add by lia. lia.
      * constructor; [apply signed16_range|exact Hf].
    + exact IH.
Qed.

Lemma nth_Forall A (P : A -> Prop) l d i : Forall P l -> P d -> P (nth i l d).
Proof.
  intros Hl Hd. revert i. induction Hl; intros [|i]; cbn; auto.
Qed.

Lemma int16_scaled v :
  -32768 <= v < 32768 ->
  (-1 <= inject_Z v / 32768 /\ inject_Z v / 32768 < 1)%Q.
Proof.
  intros Hv. unfold Qle, Qlt, Qdiv, Qmult, Qinv, inject_Z. cbn. lia.
Qed.

Lemma createBuffer_refuses numChannels frameCount rate :
  numChannels = 0%nat \/ frameCount = 0%nat \/ rate <= 0 ->
  createBuffer numChannels frameCount rate = Throw NotSupportedError.
Proof.
  intros Hbad. unfold createBuffer, minSampleRate.
  replace ((numChannels =? 0)%nat || (maxChannels <? numChannels)%nat
           || (frameCount =? 0)%nat || (rate <? 8000)
           || (maxSampleRate <? rate)) with true; [reflexivity|].
  symmetry. rewrite !orb_true_iff, !Nat.eqb_eq, Z.ltb_lt. lia.
Qed.

Lemma createBuffer_accepts numChannels frameCount rate :
  (1 <= numChannels <= 32)%nat -> (1 <= frameCount)%nat ->
  8000 <= rate <= 96000 ->
  createBuffer numChannels frameCount rate
  = Ok {| numberOfChannels := numChannels; frames := frameCount;
          sampleRate := rate;
          channelData := repeat (repeat 0%Q frameCount) numChannels |}.
Proof.
  intros Hc Hf Hr.
  unfold createBuffer, maxChannels, minSampleRate, maxSampleRate.
  replace ((numChannels =? 0)%nat || (32 <? numChannels)%nat
           || (frameCount =? 0)%nat || (rate <? 8000) || (96000 <? rate))
    with false; [reflexivity|].
  symmetry.
  rewrite !orb_false_iff, !Nat.eqb_neq, Nat.ltb_ge, !Z.ltb_ge. lia.
Qed.

(** X1.  [decodeAudioData] on any byte array.  An odd number of bytes is
    refused by the sixteen-bit view with a RangeError; an even number that
    leaves no whole frame (or a channel count of zero, or a rate that is
    not positive) is refused by [createBuffer] with a NotSupportedError;
    with 1 to 32 channels and a rate from 8000 to 96000 Hz, which every
    implementation takes, the buffer has the channel count and the rate
    asked for, one frame for every [numChannels] cells of two bytes, every
    channel of that length, and lasts frames / rate seconds.  Nothing is
    said of channel counts and rates beyond these, where the browser
    decides. *)
Theorem decodeAudioData_cases (data : list byte) (rate : Z) (numChannels : nat) :
  let cells := (List.length data / 2)%nat in
  (Nat.odd (List.length data) = true ->
   decodeAudioData data rate numChannels = Throw RangeError) /\
  (Nat.even (List.length data) = true ->
   numChannels = 0%nat \/ (cells / numChannels = 0)%nat \/ rate <= 0 ->
   decodeAudioData data rate numChannels = Throw NotSupportedError) /\
  (Nat.even (List.length data) = true ->
   (1 <= numChannels <= 32)%nat -> (cells / numChannels <> 0)%nat ->
   8000 <= rate <= 96000 ->
   exists b,
     decodeAudioData data rate numChannels = Ok b /\
     numberOfChannels b = numChannels /\
     frames b = (cells / numChannels)%nat /\
     sampleRate b = rate /\
     List.length (channelData b) = numChannels /\
     Forall (fun ch => List.length ch = frames b) (channelData b) /\
     (duration b == inject_Z (Z.of_nat (cells / numChannels)) / inject_Z rate)%Q).
Proof.
  intros cells. subst cells. unfold decodeAudioData.
  pose proof (Int16Array_view data) as V.
  destruct (Int16Array_of_Uint8Array data) as [l|e]; cbn [rbind].
  - destruct V as (He & Hl & _). rewrite Hl. split; [|split].
    + intros Ho. rewrite <- Nat.negb_even, He in Ho. discriminate.
    + intros _ Hbad. now rewrite createBuffer_refuses.
    + intros _ Hc Hf Hr. rewrite createBuffer_accepts by lia.
      cbn [rbind numberOfChannels frames sampleRate]. eexists.
      split; [reflexivity|]. cbn [numberOfChannels frames sampleRate channelData].
      do 3 (split; [reflexivity|]). split; [|split].
      * now rewrite length_map, length_seq.
      * apply Forall_forall. intros ch Hin. apply in_map_iff in Hin.
        destruct Hin as (c & <- & _). now rewrite length_map, length_seq.
      * unfold duration. cbn [frames sampleRate]. reflexivity.
  - destruct V as (Ho & ->). split; [|split].
    + reflexivity.
    + intros He. rewrite <- Nat.negb_even, He in Ho. discriminate.
    + intros He. rewrite <- Nat.negb_even, He in Ho. discriminate.
Qed.

(** An instance. *)
Lemma decodeAudioData_cases_witness :
  decodeAudioData [x00] 24000 1 = Throw RangeError /\
  decodeAudioData [] 24000 1 = Throw NotSupportedError /\
  exists b, decodeAudioData [x00; x80; xff; x7f] 24000 1 = Ok b /\
            frames b = 2%nat.
Proof.
  pose proof (@decodeAudioData_cases [x00] 24000 1) as W1.
  pose proof (@decodeAudioData_cases [] 24000 1) as W2.
  pose proof (@decodeAudioData_cases [x00; x80; xff; x7f] 24000 1) as W3.
  split; [exact (proj1 W1 eq_refl)|].
  split; [exact (proj1 (proj2 W2) eq_refl (or_intror (or_introl eq_refl)))|].
  destruct (proj2 (proj2 W3) eq_refl ltac:(lia) ltac:(discriminate)
              ltac:(lia)) as (b & Hb & _ & Hf & _).
  exists b. split; [exact Hb|exact Hf].
Defined.

Lemma decodeAudioData_ok (data : list byte) (rate : Z) (numChannels : nat)
  (b : AudioBuffer) :
  decodeAudioData data rate numChannels = Ok b ->
  0 < rate /\ (0 < frames b)%nat /\ sampleRate b = rate /\
  Forall (Forall (fun y => -1 <= y /\ y < 1)%Q) (channelData b).
Proof.
  unfold decodeAudioData.
  pose proof (Int16Array_view data) as V.
  destruct (Int16Array_of_Uint8Array data) as [l|e]; cbn [rbind];
    [|discriminate].
  destruct V as (_ & _ & Hf).
  unfold createBuffer, maxChannels, minSampleRate, maxSampleRate.
  destruct ((numChannels =? 0)%nat || (32 <? numChannels)%nat
            || (List.length l / numChannels =? 0)%nat
            || (rate <? 8000) || (96000 <? rate)) eqn:E; cbn [rbind];
    [discriminate|].
  rewrite !orb_false_iff, !Nat.eqb_neq, Nat.ltb_ge, !Z.ltb_ge in E.
  destruct E as ((((Hc & Hm) & Hn) & Hr) & Hr').
  intros [= <-]. cbn [frames channelData sampleRate numberOfChannels].
  split; [lia|]. split; [lia|]. split; [reflexivity|].
  apply Forall_forall. intros ch Hin. apply in_map_iff in Hin.
  destruct Hin as (c & <- & _). apply Forall_forall. intros y Hy.
  apply in_map_iff in Hy. destruct Hy as (i & <- & _).
  apply int16_scaled. apply nth_Forall; [exact Hf|lia].
Qed.

Lemma decodeAudioData_throws (data : list byte) (rate : Z)
  (numChannels : nat) (e : Exn) :
  decodeAudioData data rate numChannels = Throw e ->
  e = RangeError \/ e = NotSupportedError.
Proof.
  unfold decodeAudioData.
  pose proof (Int16Array_view data) as V.
  destruct (Int16Array_of_Uint8Array data) as [l|e']; cbn [rbind].
  - unfold createBuffer.
    destruct ((numChannels =? 0)%nat || (maxChannels <? numChannels)%nat
              || (List.length l / numChannels =? 0)%nat
              || (rate <? minSampleRate) || (maxSampleRate <? rate));
      cbn [rbind]; [|discriminate].
    intros [= <-]. now right.
  - destruct V as (_ & ->). intros [= <-]. now left.
Qed.

Lemma duration_positive (b : AudioBuffer) :
  (0 < frames b)%nat -> 0 < sampleRate b -> (0 < duration b)%Q.
Proof.
  intros Hf Hr. unfold duration, Qlt, Qdiv, Qmult, Qinv, inject_Z.
  destruct (sampleRate b) as [|p|p]; try lia. cbn. lia.
Qed.

(** X2.  Whatever bytes [decodeAudioData] accepts, the buffer it returns
    lasts more than zero seconds and every sample of every channel lies in
    [-1, 1). *)
Theorem decoded_samples_in_range (data : list byte) (rate : Z)
  (numChannels : nat) (b : AudioBuffer) :
  decodeAudioData data rate numChannels = Ok b ->
  (0 < duration b)%Q /\
  Forall (Forall (fun y => -1 <= y /\ y < 1)%Q) (channelData b).
Proof.
  intros E. destruct (decodeAudioData_ok _ _ _ E) as (Hr & Hf & Hs & Hall).
  split; [|exact Hall]. apply duration_positive; [exact Hf|now rewrite Hs].
Qed.

(** An instance. *)
Lemma decoded_samples_in_range_witness :
  exists b, decodeAudioData [x00; x80; xff; x7f] 24000 1 = Ok b /\
            channelData b = [[(-32768 # 1) / 32768; (32767 # 1) / 32768]]%Q /\
            Forall (Forall (fun y => -1 <= y /\ y < 1)%Q) (channelData b).
Proof.
  eexists. split; [reflexivity|]. split; [reflexivity|].
  exact (proj2 (@decoded_samples_in_range
                  [x00; x80; xff; x7f] 24000 1 _ eq_refl)).
Defined.

(** Truncation is toward zero. *)
Lemma pcm16_toward_zero (x : Q) :
  (-1 <= x)%Q -> (x < 1)%Q ->
  let y := (inject_Z (ToInt16 (x * 32768)) / 32768)%Q in
  ((0 <= x -> 0 <= y /\ y <= x) /\ (x <= 0 -> x <= y /\ y <= 0))%Q.
Proof.
  intros Hlo Hhi y. subst y. unfold ToInt16.
  rewrite signed16_small by (apply truncate_in_range; assumption).
  destruct x as [n d]. rewrite truncate_scaled.
  pose proof (Z.quot_rem' (n * 32768) (Zpos d)) as E.
  pose proof (Z.rem_bound_abs (n * 32768) (Zpos d) ltac:(lia)) as B.
  pose proof (Z.rem_sign_mul (n * 32768) (Zpos d) ltac:(lia)) as S.
  set (t := Z.quot (n * 32768) (Zpos d)) in *.
  set (r := Z.rem (n * 32768) (Zpos d)) in *.
  unfold Qle, Qlt, Qminus, Qplus, Qopp, Qdiv, Qmult, Qinv, inject_Z.
  cbn [Qnum Qden]. rewrite ?Pos2Z.inj_mul. split; intros Hx; split; nia.
Qed.

Lemma pcm16_never_louder (x : Q) :
  (-1 <= x)%Q -> (x < 1)%Q ->
  (Qabs (inject_Z (ToInt16 (x * 32768)) / 32768) <= Qabs x)%Q.
Proof.
  intros Hlo Hhi. destruct (pcm16_toward_zero Hlo Hhi) as (Hp & Hn).
  destruct (Qlt_le_dec x 0) as [Hx|Hx].
  - destruct (Hn (Qlt_le_weak _ _ Hx)) as (H1 & H2).
    rewrite (Qabs_neg x) by lra. rewrite Qabs_neg by exact H2. lra.
  - destruct (Hp Hx) as (H1 & H2).
    rewrite (Qabs_pos x) by exact Hx. rewrite Qabs_pos by exact H1. exact H2.
Qed.

Lemma pcm16_dead_zone (x : Q) :
  (-1 <= x)%Q -> (x < 1)%Q -> (Qabs x < 1 # 32768)%Q ->
  (inject_Z (ToInt16 (x * 32768)) / 32768 == 0)%Q.
Proof.
  intros Hlo Hhi Hx. unfold ToInt16.
  rewrite signed16_small by (apply truncate_in_range; assumption).
  apply Qabs_Qlt_condition in Hx. destruct Hx as (H1 & H2).
  destruct x as [n d]. rewrite truncate_scaled.
  unfold Qlt, Qopp in H1, H2. cbn [Qnum Qden] in H1, H2.
  assert (E : Z.quot (n * 32768) (Zpos d) = 0)
    by (apply Z.quot_small_iff; lia).
  rewrite E. reflexivity.
Qed.

(** X3.  The capture pipeline ([createPcmBlob], [decode],
    [decodeAudioData]) on a non-empty frame of samples in [-1, 1): the far
    end hears a frame of the same length in which every sample is no
    louder than the original, within one quantisation step of it, and zero
    when the original is smaller than one step.  The conversion truncates
    toward zero. *)
Theorem pipeline_quantises_toward_zero (samples : list sample) :
  samples <> [] ->
  Forall (fun x => (-1 <= x)%Q /\ (x < 1)%Q) samples ->
  exists heard,
    roundtrip samples
    = Ok {| numberOfChannels := 1; frames := List.length samples;
            sampleRate := 16000; channelData := [heard] |} /\
    Forall2 (fun x y => (Qabs y <= Qabs x)%Q /\
                        (Qabs (y - x) < 1 # 32768)%Q /\
                        ((Qabs x < 1 # 32768)%Q -> (y == 0)%Q))
            samples heard.
Proof.
  intros Hne Hall. eexists. split; [now apply roundtrip_frame|].
  clear Hne. induction Hall as [|x samples [Hlo Hhi] _ IH]; cbn [map].
  - constructor.
  - constructor; [|exact IH]. split; [|split].
    + now apply pcm16_never_louder.
    + now apply pcm16_sample_roundtrip.
    + now apply pcm16_dead_zone.
Qed.

(** An instance. *)
Lemma pipeline_quantises_toward_zero_witness :
  exists heard,
    roundtrip [1 # 3; -(1 # 3); 1 # 100000]%Q
    = Ok {| numberOfChannels := 1; frames := 3;
            sampleRate := 16000; channelData := [heard] |} /\
    Forall2 (fun x y => (Qabs y <= Qabs x)%Q /\
                        (Qabs (y - x) < 1 # 32768)%Q /\
                        ((Qabs x < 1 # 32768)%Q -> (y == 0)%Q))
            [1 # 3; -(1 # 3); 1 # 100000]%Q heard.
Proof.
  apply (@pipeline_quantises_toward_zero [1 # 3; -(1 # 3); 1 # 100000]%Q).
  - discriminate.
  - repeat constructor; vm_compute; congruence.
Defined.

End CodecProperties.


Section ScheduleProperties.
Import Pcm Call Demo.
Local Open Scope Q_scope.

Lemma spec_schedule_queued cursor chunks :
  queued cursor chunks (spec_schedule cursor chunks).
Proof.
  revert cursor. induction chunks as [|[now d] chunks IH]; intros cursor;
    cbn [spec_schedule queued]; [exact I|].
  split; [|apply IH].
  split; [apply Q.le_max_l|]. split; [apply Q.le_max_r|].
  split; intros Hle; [now apply Q.max_l|now apply Q.max_r].
Qed.

(** X4.  Along any sequence of inbound chunks the sources neither overlap
    nor start in the past: each one is started no earlier than the end of
    the one before it (for the first: the cursor) and no earlier than its
    own arrival, exactly at that end when it had arrived by then, and
    exactly at its arrival when it came later.  Both copies. *)
Theorem playback_never_overlaps (H : Handlers) (call : CallClosure)
  (cfg : Config) (inbound : list (Q * Z * LiveServerMessage)) :
  copy H ->
  existsb (same_call call) (calls cfg) = true ->
  Forall (fun x => is_chunk (snd x) = true) inbound ->
  let cfg' := run H cfg (inbound_events call inbound) in
  exists started,
    starts (trace cfg') = (starts (trace cfg) ++ started)%list /\
    queued (nextStartTimeRef (comp cfg)) (arrivals inbound) started.
Proof.
  intros HH Hreg Hall cfg'.
  destruct (@schedule_run H call HH inbound cfg Hreg Hall) as (Hs & _).
  eexists. split; [exact Hs|apply spec_schedule_queued].
Qed.

(** An instance. *)
Lemma playback_never_overlaps_witness :
  let cfg := run App.handlers start (connect 1) in
  let inbound := [(1, 0%Z, silence 8); (1, 0%Z, silence 8)] in
  exists s1 s2,
    starts (trace (run App.handlers cfg (inbound_events (demo_call 1) inbound)))
    = [s1; s2] /\ s1 == 1 /\ s2 == s1 + (3 # 24000).
Proof.
  intros cfg inbound.
  assert (F : Forall (fun x => is_chunk (snd x) = true) inbound)
    by (repeat constructor).
  destruct (@playback_never_overlaps App.handlers (demo_call 1) cfg inbound
              (or_intror eq_refl) eq_refl F) as (started & Hs & Hq).
  change (starts (trace cfg)) with (@nil Q) in Hs. cbn [app] in Hs.
  rewrite Hs. clear Hs.
  destruct started as [|s1 [|s2 [|s3 started]]];
    cbn [queued arrivals inbound map fst snd] in Hq; try tauto.
  exists s1, s2. split; [reflexivity|].
  destruct Hq as ((_ & _ & _ & H1) & (_ & _ & H2 & _) & _).
  assert (E1 : s1 == 1) by (apply H1; discriminate).
  split; [exact E1|].
  assert (D : chunk_duration (silence 8) == 3 # 24000) by reflexivity.
  rewrite <- D. apply H2. rewrite E1, D. discriminate.
Defined.

End ScheduleProperties.


Section KeepFacts.
Import Pcm Call.

#[export] Instance keeps_preorder P : PreOrder (keeps P).
Proof. split; unfold keeps; red; auto. Qed.

(** A step either leaves the component alone or runs the event's handler
    and renders. *)
Lemma step_comp H cfg ev :
  comp (step H cfg ev) = comp cfg \/
  comp (step H cfg ev) = h_render H (final (handler H ev) (comp cfg)).
Proof.
  destruct ev; cbn [step handler];
    try (destruct (existsb _ _); [right|left; reflexivity]; cbn [comp];
         apply dispatch_comp).
  - destruct (start_offered H _); [right|left; reflexivity].
    pose proof (dispatch_comp H (h_startCall H env) cfg) as D.
    assert (E : final (h_startCall H env ;; ret tt) (comp cfg)
                = final (h_startCall H env) (comp cfg)).
    { unfold final. rewrite bind_eval.
      destruct (h_startCall H env (comp cfg)) as [[[a|e] c1] t1]; reflexivity. }
    rewrite E.
    destruct (dispatch H (h_startCall H env) cfg) as [[[call|]|] cfg1];
      exact D.
  - right. apply dispatch_comp.
  - destruct (mute_offered H _); [right|left; reflexivity]. apply dispatch_comp.
  - destruct (end_offered H _); [right|left; reflexivity]. apply dispatch_comp.
  - destruct (timers cfg); [left; reflexivity|right]. cbn [comp].
    apply dispatch_comp.
Qed.

Lemma step_keeps P H cfg ev :
  (forall c, P c -> P (h_render H c)) ->
  respects (keeps P) (handler H ev) ->
  P (comp cfg) -> P (comp (step H cfg ev)).
Proof.
  intros Hr Hh Hc. destruct (step_comp H cfg ev) as [->| ->]; [exact Hc|].
  apply Hr, Hh, Hc.
Qed.

Lemma run_keeps P H :
  (forall c, P c -> P (h_render H c)) ->
  (forall ev, respects (keeps P) (handler H ev)) ->
  forall evs cfg, P (comp cfg) -> P (comp (run H cfg evs)).
Proof.
  intros Hr Hh. induction evs as [|ev evs IH]; intros cfg Hc; [exact Hc|].
  cbn [run fold_left]. apply IH. now apply step_keeps.
Qed.

End KeepFacts.

Section PlaybackProperties.
Import Pcm Call Demo.
Local Open Scope Q_scope.

Lemma chunk_buffer_decoded m b :
  chunk_buffer m = Some b ->
  exists bytes, decodeAudioData bytes 24000 1 = Ok b.
Proof.
  unfold chunk_buffer. destruct (audio m) as [a|]; [|discriminate].
  destruct (truthy a); [|discriminate].
  destruct (Base64.decode a) as [bytes|e]; [|discriminate].
  destruct (decodeAudioData bytes 24000 1) as [b'|e] eqn:E; [|discriminate].
  intros [= <-]. eauto.
Qed.

Lemma chunk_duration_positive m b : chunk_buffer m = Some b -> 0 < duration b.
Proof.
  intros Hb. destruct (chunk_buffer_decoded _ Hb) as (bytes & E).
  destruct (decodeAudioData_ok _ _ _ E) as (Hr & Hf & Hs & _).
  apply duration_positive; [exact Hf|rewrite Hs; exact Hr].
Qed.

(** X5.  VoiceAgent.jsx: handling a chunk moves the cursor strictly
    forward and leaves it strictly ahead of the playback clock at the
    chunk's arrival. *)
Theorem VoiceAgent_cursor_runs_ahead (call : CallClosure) (now : Q)
  (dateNow : Z) (m : LiveServerMessage) (c : Component) :
  is_chunk m = true ->
  let c' := final (VoiceAgent.onmessage call now dateNow m) c in
  nextStartTimeRef c < nextStartTimeRef c' /\ now < nextStartTimeRef c'.
Proof.
  intros Hm c'. subst c'.
  destruct (is_chunk_buffer _ Hm) as (b & Hb & Hi & _).
  destruct (@onmessage_chunk VoiceAgent.handlers call now dateNow m c b
              (or_introl eq_refl) Hb Hi) as (_ & Hn).
  cbn [h_onmessage VoiceAgent.handlers] in Hn. rewrite Hn.
  pose proof (chunk_duration_positive _ Hb) as Hd.
  pose proof (Q.le_max_l (nextStartTimeRef c) now).
  pose proof (Q.le_max_r (nextStartTimeRef c) now).
  split; lra.
Qed.

(** An instance. *)
Lemma VoiceAgent_cursor_runs_ahead_witness :
  let c' := final (VoiceAgent.onmessage (demo_call 1) 2 0 (silence 8))
                  initial in
  0 < nextStartTimeRef c' /\ 2 < nextStartTimeRef c'.
Proof.
  exact (@VoiceAgent_cursor_runs_ahead (demo_call 1) 2 0%Z (silence 8)
           initial eq_refl).
Defined.

(** ** The speaking indicator *)

Lemma indicator_cleanup_VoiceAgent :
  respects (keeps indicator_ok) VoiceAgent.cleanupCall.
Proof.
  intros c Hc. unfold final. destruct (session_close_fails c) eqn:E.
  - unfold session_close_fails in E.
    destruct (sessionRef c) as [s|] eqn:Es; [|discriminate].
    now rewrite (VoiceAgent_cleanupCall_throws _ Es E).
  - rewrite VoiceAgent_cleanupCall_ok by exact E. intros Hn. now elim Hn.
Qed.

Lemma indicator_cleanup_App :
  respects (keeps indicator_ok) App.cleanupCall.
Proof.
  intros c Hc. unfold final. destruct (session_close_fails c) eqn:E.
  - unfold session_close_fails in E.
    destruct (sessionRef c) as [s|] eqn:Es; [|discriminate].
    now rewrite (App_cleanupCall_throws _ Es E).
  - rewrite App_cleanupCall_ok by exact E. intros Hn. now elim Hn.
Qed.

(** The audio branch on a chunk that does not decode: the exception leaves
    the handler with the indicator switched on and nothing else done. *)
Lemma onmessage_audio_undecodable now m c a :
  audio m = Some a -> truthy a = true -> chunk_buffer m = None ->
  exists e,
    onmessage_audio now m c = (Throw e, set_isModelSpeaking true c, []) /\
    (e = InvalidCharacterError \/ e = RangeError \/ e = NotSupportedError).
Proof.
  unfold chunk_buffer, onmessage_audio. intros -> ->.
  unfold bind, lift, modify. cbn -[decodeAudioData Base64.decode].
  destruct (Base64.decode a) as [bytes|e] eqn:Ed.
  - cbn -[decodeAudioData].
    destruct (decodeAudioData bytes 24000 1) as [b|e] eqn:Eb; [discriminate|].
    intros _. exists e. split; [reflexivity|]. right.
    exact (decodeAudioData_throws _ _ _ Eb).
  - intros _. exists e. split; [reflexivity|]. left.
    unfold Base64.decode in Ed. unfold Base64.atob in Ed.
    repeat match type of Ed with
           | context [if ?x then _ else _] => destruct x
           | context [match ?x with Some _ => _ | None => _ end] => destruct x
           end; cbn in Ed; congruence.
Qed.

Lemma indicator_audio now m : respects (keeps indicator_ok) (onmessage_audio now m).
Proof.
  intros c Hc. unfold final.
  destruct (chunk_buffer m) as [b|] eqn:Eb.
  - rewrite (@onmessage_audio_chunk now m c b Eb). intros _. reflexivity.
  - destruct (audio m) as [a|] eqn:Ea.
    + destruct (truthy a) eqn:Et.
      * destruct (@onmessage_audio_undecodable now m c a Ea Et Eb)
          as (e & -> & _).
        intros _. destruct c; reflexivity.
      * unfold onmessage_audio. rewrite Ea, Et. exact Hc.
    + unfold onmessage_audio. rewrite Ea. exact Hc.
Qed.

Lemma indicator_interrupted m :
  respects (keeps indicator_ok) (onmessage_interrupted m).
Proof.
  intros c Hc. unfold final. destruct (interrupted m) eqn:E.
  - rewrite (@onmessage_interrupted_run m c E). intros Hn.
    destruct c; now elim Hn.
  - now rewrite (@onmessage_interrupted_skip m c E).
Qed.

Lemma indicator_onended n : respects (keeps indicator_ok) (onended n).
Proof.
  intros c Hc. unfold final, onended, bind, modify, get, ret. cbn.
  unfold indicator_ok in *.
  destruct (Set_delete n (sourcesRef c)) as [|x l] eqn:E; cbn.
  - intros Hn. now elim Hn.
  - intros _. apply Hc. intros Hs. rewrite Hs in E. discriminate.
Qed.

Ltac indicator_leaf :=
  match goal with
  | c : Component |- _ =>
      destruct c; unfold keeps, indicator_ok; cbn; auto
  end.

Ltac indicator_frame :=
  repeat first
    [ apply indicator_cleanup_VoiceAgent | apply indicator_cleanup_App
    | apply indicator_audio | apply indicator_interrupted
    | apply indicator_onended | frame_step ].

Lemma indicator_handlers H ev :
  copy H -> respects (keeps indicator_ok) (handler H ev).
Proof.
  intros [->| ->]; destruct ev;
    cbn [handler VoiceAgent.handlers App.handlers h_startCall
         h_connectResolved h_connectRejected h_onopen h_onaudioprocess
         h_onmessage h_onerror h_onclose h_cleanupCall];
    unfold VoiceAgent.onerror, VoiceAgent.onclose, VoiceAgent.startCall,
      VoiceAgent.connectResolved, VoiceAgent.connectRejected,
      VoiceAgent.onaudioprocess, VoiceAgent.onmessage,
      VoiceAgent.onmessage_transcription, VoiceAgent.append_entry,
      VoiceAgent.onopen, App.onerror, App.onclose, App.startCall,
      App.connectResolved, App.connectRejected, App.onaudioprocess,
      App.onmessage, App.onmessage_transcription, App.onopen,
      promise_new, promise_then_send, promise_fulfil, promise_reject;
    indicator_frame; try indicator_leaf.
Qed.

(** X6.  Along any run of either copy, while a source is in the playback
    set the speaking indicator is on. *)
Theorem speaking_while_playing (H : Handlers) (evs : list Event) :
  copy H ->
  let c := comp (run H start evs) in
  sourcesRef c <> [] -> isModelSpeaking c = true.
Proof.
  intros HH c. subst c.
  apply (@run_keeps indicator_ok H).
  - destruct HH as [->| ->]; intros c; destruct c; exact (fun x => x).
  - intros ev. now apply indicator_handlers.
  - intros Hn. now elim Hn.
Qed.

(** An instance. *)
Lemma speaking_while_playing_witness :
  let c := comp (run App.handlers start
                   (connect 1 ++ [OnMessage (demo_call 1) 2 0 (silence 8);
                                  OnMessage (demo_call 1) 2 0 (silence 8);
                                  SourceEnded {| node_id := 0;
                                                 buffer := {| numberOfChannels := 1; frames := 3; sampleRate := 24000; channelData := [] |};
                                                 stop_throws := false |}])) in
  List.length (sourcesRef c) = 1%nat /\ isModelSpeaking c = true.
Proof.
  intros c. split; [reflexivity|].
  apply (@speaking_while_playing App.handlers _ (or_intror eq_refl)).
  discriminate.
Defined.

(** X7.  VoiceAgent.jsx, a message whose audio does not decode (malformed
    base64, an odd number of bytes, or no frame at all): [onmessage] is
    left by the exception of the helper that refused it; no call is made
    on the platform, and the one cell that changed is the speaking
    indicator, switched on before the decoding.  The [interrupted] and
    transcription branches of that message are not run. *)
Theorem VoiceAgent_undecodable_chunk (call : CallClosure) (now : Q)
  (dateNow : Z) (m : LiveServerMessage) (c : Component) (a : string) :
  audio m = Some a -> truthy a = true -> chunk_buffer m = None ->
  let h := VoiceAgent.onmessage call now dateNow m in
  (outcome h c = Throw InvalidCharacterError \/
   outcome h c = Throw RangeError \/
   outcome h c = Throw NotSupportedError) /\
  effects h c = [] /\
  final h c = set_isModelSpeaking true c.
Proof.
  intros Ha Ht Hb h. subst h.
  destruct (@onmessage_audio_undecodable now m c a Ha Ht Hb) as (e & E & He).
  unfold outcome, effects, final, VoiceAgent.onmessage.
  rewrite bind_eval, E. cbn [fst snd].
  split; [|split; reflexivity].
  destruct He as [->|[->| ->]]; auto.
Qed.

(** An instance. *)
Lemma VoiceAgent_undecodable_chunk_witness :
  let m := {| audio := Some "A"%string; interrupted := true;
              inputTranscription := Some (Some "hello"%string);
              outputTranscription := None; turnComplete := false |} in
  let c := comp (run VoiceAgent.handlers start
                   (connect 1 ++ [OnMessage (demo_call 1) 2 0 (silence 8)])) in
  let h := VoiceAgent.onmessage (demo_call 1) 3 0 m in
  final h c = set_isModelSpeaking true c /\
  List.length (sourcesRef (final h c)) = 1%nat /\
  transcriptions (final h c) = [].
Proof.
  intros m c h.
  destruct (@VoiceAgent_undecodable_chunk (demo_call 1) 3 0%Z m c "A"%string
              eq_refl eq_refl eq_refl) as (_ & _ & E).
  fold h in E. rewrite E. split; [reflexivity|]. split; reflexivity.
Defined.

Lemma Set_add_holds n l :
  exists n', In n' (Set_add n l) /\ node_id n' = node_id n.
Proof.
  unfold Set_add. destruct (existsb (same_node n) l) eqn:E.
  - apply existsb_exists in E. destruct E as (n' & Hin & Hs).
    exists n'. split; [exact Hin|]. unfold same_node in Hs.
    apply Nat.eqb_eq in Hs. now symmetry.
  - exists n. split; [|reflexivity]. apply in_or_app. right. now left.
Qed.

(** X8.  A message that carries a chunk and interrupts: the chunk is
    started at the clamped time and stopped in the same handler, with
    every source that was playing; the playback set is left empty, the
    cursor at 0 and the indicator off.  Both copies. *)
Theorem interrupted_chunk_is_cut (H : Handlers) (call : CallClosure)
  (now : Q) (dateNow : Z) (m : LiveServerMessage) (c : Component)
  (b : AudioBuffer) :
  copy H ->
  chunk_buffer m = Some b -> interrupted m = true ->
  let h := h_onmessage H call now dateNow m in
  effects h c
  = SourceStart (new_node b c) (Qmax (nextStartTimeRef c) now)
    :: map SourceStop (Set_add (new_node b c) (sourcesRef c)) /\
  (exists n, node_id n = nodesCreated c /\ In (SourceStop n) (effects h c)) /\
  sourcesRef (final h c) = [] /\
  nextStartTimeRef (final h c) = 0 /\
  isModelSpeaking (final h c) = false.
Proof.
  intros HH Hb Hi h. subst h.
  destruct (@onmessage_shape H call now dateNow m HH) as (rest & Hrest & ->).
  assert (Hok : outcome (onmessage_audio now m) c = Ok tt)
    by (unfold outcome; now rewrite (@onmessage_audio_chunk now m c b Hb)).
  destruct (@interrupted_message rest now m c Hrest Hi Hok)
    as (_ & Hs & Hn & Hsp & He).
  assert (Ea : effects (onmessage_audio now m) c
               = [SourceStart (new_node b c) (Qmax (nextStartTimeRef c) now)])
    by (unfold effects; now rewrite (@onmessage_audio_chunk now m c b Hb)).
  assert (Ef : final (onmessage_audio now m) c = scheduled now b c)
    by (unfold final; now rewrite (@onmessage_audio_chunk now m c b Hb)).
  rewrite Ea, Ef in He. cbn [scheduled sourcesRef app] in He.
  split; [exact He|]. split; [|split; [exact Hs|split; [exact Hn|exact Hsp]]].
  destruct (Set_add_holds (new_node b c) (sourcesRef c)) as (n & Hin & Hid).
  exists n. split; [exact Hid|]. rewrite He. right. now apply in_map.
Qed.

(** An instance. *)
Lemma interrupted_chunk_is_cut_witness :
  let m := {| audio := audio (silence 8); interrupted := true;
              inputTranscription := None; outputTranscription := None;
              turnComplete := false |} in
  let h := VoiceAgent.onmessage (demo_call 1) 2 0 m in
  starts (effects h initial) = [Qmax 0 2] /\
  sourcesRef (final h initial) = [].
Proof.
  intros m h.
  destruct (@interrupted_chunk_is_cut VoiceAgent.handlers (demo_call 1) 2 0%Z
              m initial _ (or_introl eq_refl) eq_refl eq_refl)
    as (He & _ & Hs & _).
  cbn [h_onmessage VoiceAgent.handlers] in He, Hs. fold h in He, Hs.
  rewrite He. split; [|exact Hs]. reflexivity.
Defined.

End PlaybackProperties.

Section MuteProperties.
Import Pcm Call Demo.
Local Open Scope string_scope.

Lemma sends_app t t' : sends (t ++ t') = (sends t ++ sends t')%list.
Proof. unfold sends. apply flat_map_app. Qed.

(** X9.  VoiceAgent.jsx, at any point of any run: a capture frame is sent
    exactly when the mute flag is off and a session is stored, and it goes
    to the stored session; a frame that arrives while the flag is on is
    dropped, whatever the flag was when the call was started. *)
Theorem VoiceAgent_capture_follows_mute (evs : list Event)
  (call : CallClosure) (inputData : list sample) :
  let cfg := run VoiceAgent.handlers start evs in
  existsb (same_call call) (opened cfg) = true ->
  sends (trace (step VoiceAgent.handlers cfg (AudioProcess call inputData)))
  = (sends (trace cfg) ++
     if isMuted (comp cfg) then []
     else match sessionRef (comp cfg) with
          | Some s => [(s, createPcmBlob inputData)]
          | None => []
          end)%list.
Proof.
  intros cfg Hop. subst cfg.
  rewrite (@VoiceAgent_mute_gates evs call inputData Hop), sends_app.
  f_equal. destruct (isMuted _); [reflexivity|].
  destruct (sessionRef _); reflexivity.
Qed.

(** An instance. *)
Lemma VoiceAgent_capture_follows_mute_witness :
  let frame := AudioProcess (demo_call 1) [1 # 2] in
  let muted := run VoiceAgent.handlers start (connect 1 ++ [ClickMute]) in
  let unmuted := run VoiceAgent.handlers start
                     (connect 1 ++ [ClickMute; ClickMute]) in
  sends (trace (step VoiceAgent.handlers muted frame)) = [] /\
  sends (trace (step VoiceAgent.handlers unmuted frame))
  = [(demo_session 1, createPcmBlob [1 # 2])].
Proof.
  intros frame muted unmuted. split.
  - exact (@VoiceAgent_capture_follows_mute (connect 1 ++ [ClickMute])
             (demo_call 1) [1 # 2] eq_refl).
  - exact (@VoiceAgent_capture_follows_mute
             (connect 1 ++ [ClickMute; ClickMute])
             (demo_call 1) [1 # 2] eq_refl).
Defined.

Lemma render_isMuted H c : copy H -> isMuted (h_render H c) = isMuted c.
Proof. intros [->| ->]; destruct c; reflexivity. Qed.

Lemma handler_keeps_mute H ev :
  copy H -> ev <> ClickMute -> respects (same isMuted) (handler H ev).
Proof.
  intros [->| ->] Hne; destruct ev; try congruence;
    cbn [handler VoiceAgent.handlers App.handlers h_startCall
         h_connectResolved h_connectRejected h_onopen h_onaudioprocess
         h_onmessage h_onerror h_onclose h_cleanupCall];
    unfold_handlers; frame; unfold_handlers; frame; by_fields.
Qed.

(** X10.  The mute flag changes in one way only: a click on the mute
    control while the status is ACTIVE, which flips it.  No other event
    (hang-up, teardown, restart, timer, message) touches it.  Both
    copies. *)
Theorem mute_changes_only_by_click (H : Handlers) (cfg : Config)
  (ev : Event) :
  copy H ->
  isMuted (comp (step H cfg ev)) <> isMuted (comp cfg) ->
  ev = ClickMute /\ status (comp cfg) = ACTIVE /\
  isMuted (comp (step H cfg ev)) = negb (isMuted (comp cfg)).
Proof.
  intros HH Hch.
  destruct (match ev with ClickMute => true | _ => false end) eqn:E.
  - destruct ev; try discriminate. split; [reflexivity|].
    cbn [step] in *.
    assert (Hm : mute_offered H (status (comp cfg))
                 = CallStatus_eqb (status (comp cfg)) ACTIVE)
      by (destruct HH as [->| ->]; reflexivity).
    rewrite Hm in *.
    destruct (status (comp cfg)); cbn [CallStatus_eqb] in *;
      try (now elim Hch).
    split; [reflexivity|].
    rewrite dispatch_comp, render_isMuted by assumption.
    unfold final, modify. cbn. now destruct (comp cfg).
  - exfalso. apply Hch.
    destruct (step_comp H cfg ev) as [->| ->]; [reflexivity|].
    rewrite render_isMuted by assumption.
    apply handler_keeps_mute; [assumption|].
    intros ->. discriminate.
Qed.

(** An instance. *)
Lemma mute_changes_only_by_click_witness :
  let cfg := run App.handlers start (connect 1) in
  isMuted (comp cfg) = false /\
  isMuted (comp (step App.handlers cfg ClickMute)) = true /\
  status (comp cfg) = ACTIVE.
Proof.
  intros cfg. split; [reflexivity|].
  destruct (@mute_changes_only_by_click App.handlers cfg ClickMute
              (or_intror eq_refl) ltac:(discriminate)) as (_ & Hs & Hm).
  split; [exact Hm|exact Hs].
Defined.

End MuteProperties.

Section StartProperties.
Import Pcm Call Demo.
Local Open Scope string_scope.

(** X11.  VoiceAgent.jsx, [startCall] without an API key (absent or
    empty): the status is left at ERROR with the configuration message, no
    call is made on the platform, no callback is registered, the audio
    context refs are left alone, and the start control is offered
    again. *)
Theorem VoiceAgent_start_without_key (cfg : Config) (env : StartEnv) :
  start_offered VoiceAgent.handlers (status (comp cfg)) = true ->
  match apiKey env with Some k => truthy k | None => false end = false ->
  let cfg' := step VoiceAgent.handlers cfg (ClickStart env) in
  status (comp cfg') = ERROR /\
  error (comp cfg')
  = "VITE_GEMINI_API_KEY not configured. Add it to frontend-react/.env" /\
  trace cfg' = trace cfg /\ calls cfg' = calls cfg /\
  inputAudioCtxRef (comp cfg') = inputAudioCtxRef (comp cfg) /\
  outputAudioCtxRef (comp cfg') = outputAudioCtxRef (comp cfg) /\
  start_offered VoiceAgent.handlers (status (comp cfg')) = true.
Proof.
  intros Hs Hk cfg'. subst cfg'. cbn [step]. rewrite Hs.
  unfold dispatch. cbn [h_startCall VoiceAgent.handlers h_render].
  unfold VoiceAgent.startCall. rewrite Hk.
  destruct cfg as [c cl op tm tr]. destruct c. cbn.
  rewrite app_nil_r. repeat split.
Qed.

(** An instance. *)
Lemma VoiceAgent_start_without_key_witness :
  let env := {| apiKey := Some ""; new_inputCtx := new_inputCtx (demo_env 1);
                new_outputCtx := new_outputCtx (demo_env 1);
                getUserMedia_error := None; new_session := demo_session 1 |} in
  let cfg' := step VoiceAgent.handlers start (ClickStart env) in
  status (comp cfg') = ERROR /\ trace cfg' = [].
Proof.
  intros env cfg'.
  destruct (@VoiceAgent_start_without_key start env eq_refl eq_refl)
    as (Hs & _ & Ht & _).
  split; [exact Hs|exact Ht].
Defined.

(** X12.  VoiceAgent.jsx, [startCall] when [getUserMedia] is refused: the
    status is left at ERROR with the error's message (or "Failed to
    connect"), the failure is logged, nothing is connected, and the two
    audio contexts created before the request stay in their refs without
    being closed; a retry that succeeds puts new contexts in the refs and
    closes nothing. *)
Theorem VoiceAgent_start_without_microphone (cfg : Config) (env : StartEnv)
  (message : string) :
  start_offered VoiceAgent.handlers (status (comp cfg)) = true ->
  match apiKey env with Some k => truthy k | None => false end = true ->
  getUserMedia_error env = Some message ->
  let cfg' := step VoiceAgent.handlers cfg (ClickStart env) in
  status (comp cfg') = ERROR /\
  error (comp cfg')
  = (if truthy message then message else "Failed to connect") /\
  trace cfg' = (trace cfg ++ [ConsoleError])%list /\
  calls cfg' = calls cfg /\
  inputAudioCtxRef (comp cfg') = Some (new_inputCtx env) /\
  outputAudioCtxRef (comp cfg') = Some (new_outputCtx env) /\
  (forall env2,
     match apiKey env2 with Some k => truthy k | None => false end = true ->
     getUserMedia_error env2 = None ->
     let cfg'' := step VoiceAgent.handlers cfg' (ClickStart env2) in
     trace cfg'' = (trace cfg' ++ [LiveConnect (new_session env2)])%list /\
     inputAudioCtxRef (comp cfg'') = Some (new_inputCtx env2) /\
     outputAudioCtxRef (comp cfg'') = Some (new_outputCtx env2)).
Proof.
  intros Hs Hk Hm cfg'. subst cfg'. cbn [step]. rewrite Hs.
  unfold dispatch. cbn [h_startCall VoiceAgent.handlers h_render].
  unfold VoiceAgent.startCall. rewrite Hk, Hm.
  destruct cfg as [c cl op tm tr]. destruct c. cbn.
  do 6 (split; [reflexivity|]).
  intros env2 Hk2 Hm2. rewrite Hk2, Hm2. cbn. repeat split.
Qed.

(** An instance. *)
Lemma VoiceAgent_start_without_microphone_witness :
  let refused := {| apiKey := Some "key";
                    new_inputCtx := new_inputCtx (demo_env 1);
                    new_outputCtx := new_outputCtx (demo_env 1);
                    getUserMedia_error := Some "Permission denied";
                    new_session := demo_session 1 |} in
  let cfg := run VoiceAgent.handlers start
               [ClickStart refused; ClickStart (demo_env 2)] in
  trace cfg = [ConsoleError; LiveConnect (demo_session 2)] /\
  inputAudioCtxRef (comp cfg) = Some (new_inputCtx (demo_env 2)).
Proof.
  intros refused cfg.
  destruct (@VoiceAgent_start_without_microphone start refused
              "Permission denied" eq_refl eq_refl eq_refl)
    as (_ & _ & Ht & _ & _ & _ & Hre).
  destruct (Hre (demo_env 2) eq_refl eq_refl) as (Ht2 & Hi & _).
  split; [|exact Hi].
  unfold cfg. cbn [run fold_left]. rewrite Ht2, Ht. reflexivity.
Defined.

Lemma App_startCall_fails c env message :
  getUserMedia_error env = Some message ->
  session_close_fails c = false ->
  App.startCall env c
  = (Ok None,
     cleaned true c,
     ConsoleError
     :: opt_effect SessionClose (sessionRef c)
     ++ map SourceStop (sourcesRef c)
     ++ [ContextClose (new_inputCtx env); ContextClose (new_outputCtx env);
         SetTimeoutIdle])%list.
Proof.
  intros Hm Hc. unfold App.startCall. rewrite Hm.
  repeat (rewrite bind_eval; cbn [emit modify]).
  rewrite App_cleanupCall_ok by (destruct c; exact Hc).
  destruct c; cbn. unfold releases. cbn. rewrite <- !app_assoc. reflexivity.
Qed.

(** X13.  App.tsx, [startCall] when [getUserMedia] is refused: the
    [catch] runs the teardown, so the two contexts just created are
    closed, the refs are emptied, the status the component is left with is
    ENDED (not ERROR), and the timer then makes it IDLE. *)
Theorem App_start_without_microphone (cfg : Config) (env : StartEnv)
  (message : string) :
  start_offered App.handlers (status (comp cfg)) = true ->
  getUserMedia_error env = Some message ->
  session_close_fails (comp cfg) = false ->
  let cfg' := step App.handlers cfg (ClickStart env) in
  status (comp cfg') = ENDED /\
  trace cfg'
  = (trace cfg ++
     ConsoleError
     :: opt_effect SessionClose (sessionRef (comp cfg))
     ++ map SourceStop (sourcesRef (comp cfg))
     ++ [ContextClose (new_inputCtx env); ContextClose (new_outputCtx env);
         SetTimeoutIdle])%list /\
  calls cfg' = calls cfg /\
  inputAudioCtxRef (comp cfg') = None /\
  outputAudioCtxRef (comp cfg') = None /\
  status (comp (step App.handlers cfg' TimerFires)) = IDLE.
Proof.
  intros Hs Hm Hc cfg'. subst cfg'. cbn [step]. rewrite Hs.
  unfold dispatch. cbn [h_startCall App.handlers h_render].
  rewrite (App_startCall_fails _ _ Hm Hc). cbn [comp trace calls timers].
  do 5 (split; [reflexivity|]).
  match goal with
  | |- context [match ?n with O => _ | S _ => _ end] =>
      assert (Hk : exists k, n = S k)
  end.
  { cbn [filter is_timeout]. rewrite !filter_app, !length_app.
    cbn [filter is_timeout List.length]. rewrite !Nat.add_succ_r. eauto. }
  destruct Hk as (k & ->). reflexivity.
Qed.

(** An instance. *)
Lemma App_start_without_microphone_witness :
  let refused := {| apiKey := Some "key";
                    new_inputCtx := new_inputCtx (demo_env 1);
                    new_outputCtx := new_outputCtx (demo_env 1);
                    getUserMedia_error := Some "Permission denied";
                    new_session := demo_session 1 |} in
  let cfg := step App.handlers start (ClickStart refused) in
  status (comp cfg) = ENDED /\
  trace cfg = [ConsoleError; ContextClose (new_inputCtx (demo_env 1));
               ContextClose (new_outputCtx (demo_env 1)); SetTimeoutIdle].
Proof.
  intros refused cfg.
  destruct (@App_start_without_microphone start refused "Permission denied"
              eq_refl eq_refl eq_refl) as (Hs & Ht & _).
  split; [exact Hs|exact Ht].
Defined.

End StartProperties.

Section HangupProperties.
Import Pcm Call Demo.

Lemma existsb_last A (f : A -> bool) l x :
  f x = true -> existsb f (l ++ [x]) = true.
Proof.
  intros Hx. rewrite existsb_app. cbn. rewrite Hx. now rewrite orb_true_r.
Qed.

(** X14.  App.tsx lets the user hang up while the call is CONNECTING.  The
    teardown then finds no session to close: the contexts are closed, but
    the session being connected is not; when it opens and resolves, the
    status becomes ACTIVE and the session is stored, with both context
    refs empty. *)
Theorem App_hangup_while_connecting (cfg : Config) (env : StartEnv) :
  start_offered App.handlers (status (comp cfg)) = true ->
  getUserMedia_error env = None ->
  sessionRef (comp cfg) = None ->
  let call := {| inputCtx := new_inputCtx env; outputCtx := new_outputCtx env;
                 session := new_session env;
                 closure_isMuted := isMuted (comp cfg) |} in
  let cfg' := run App.handlers cfg
                [ClickStart env; ClickEndCall; OnOpen call;
                 ConnectResolved call] in
  status (comp cfg') = ACTIVE /\
  sessionRef (comp cfg') = Some (new_session env) /\
  inputAudioCtxRef (comp cfg') = None /\
  outputAudioCtxRef (comp cfg') = None /\
  trace cfg'
  = (trace cfg ++
     LiveConnect (new_session env)
     :: map SourceStop (sourcesRef (comp cfg))
     ++ [ContextClose (new_inputCtx env); ContextClose (new_outputCtx env);
         SetTimeoutIdle])%list.
Proof.
  intros Hs Hm Hn call cfg'. subst cfg'. cbn [run fold_left].
  (* the click on start *)
  rewrite (App_step_start _ _ Hs Hm). fold call.
  match goal with
  | |- context [{| comp := ?c; calls := _; opened := _; timers := _;
                   trace := _ |}] => set (c1 := c)
  end.
  (* the hang-up *)
  assert (Hc1 : session_close_fails c1 = false)
    by (unfold session_close_fails, c1; destruct (comp cfg); cbn in *;
        now rewrite Hn).
  assert (Hst : status c1 = CONNECTING) by (unfold c1; now destruct (comp cfg)).
  match goal with
  | |- context [step App.handlers ?x ClickEndCall] =>
      assert (E2 : step App.handlers x ClickEndCall
                   = {| comp := cleaned true c1; calls := calls cfg ++ [call];
                        opened := opened cfg;
                        timers := timers cfg
                                  + List.length
                                      (filter is_timeout
                                         (releases c1 ++ [SetTimeoutIdle]));
                        trace := (trace cfg ++ [LiveConnect (new_session env)])
                                 ++ releases c1 ++ [SetTimeoutIdle] |})
  end.
  { cbn [step comp]. rewrite Hst. cbn [end_offered App.handlers].
    unfold dispatch. cbn [h_cleanupCall App.handlers h_render comp].
    rewrite (App_cleanupCall_ok _ Hc1). reflexivity. }
  rewrite E2. clear E2.
  (* the callbacks of the call that was being connected *)
  assert (Hreg : existsb (same_call call) (calls cfg ++ [call]) = true)
    by (apply existsb_last; apply Nat.eqb_refl).
  rewrite App_step_open by exact Hreg.
  rewrite App_step_resolved by exact Hreg. cbn [comp trace].
  assert (Hrel : releases c1
                 = (map SourceStop (sourcesRef (comp cfg))
                    ++ [ContextClose (new_inputCtx env);
                        ContextClose (new_outputCtx env)])%list).
  { unfold releases, c1. destruct (comp cfg); cbn in *. now rewrite Hn. }
  assert (Hw : filter (of_session (session call))
                 (waiting (promises (set_status ACTIVE (cleaned true c1))))
               = []).
  { unfold c1. destruct (comp cfg); cbn [call session].
    apply no_callback_on_new. }
  rewrite Hw, Hrel. cbn [map].
  split; [now destruct c1|]. split; [now destruct c1|].
  split; [now destruct c1|]. split; [now destruct c1|].
  rewrite !app_nil_r, <- !app_assoc. reflexivity.
Qed.

(** An instance. *)
Lemma App_hangup_while_connecting_witness :
  let cfg := run App.handlers start
               [ClickStart (demo_env 1); ClickEndCall; OnOpen (demo_call 1);
                ConnectResolved (demo_call 1)] in
  status (comp cfg) = ACTIVE /\
  live_sessions (trace cfg) [] = [demo_session 1] /\
  outputAudioCtxRef (comp cfg) = None.
Proof.
  intros cfg.
  destruct (@App_hangup_while_connecting start (demo_env 1)
              eq_refl eq_refl eq_refl) as (Hs & _ & _ & Ho & _).
  split; [exact Hs|]. split; [reflexivity|exact Ho].
Defined.

End HangupProperties.


Ltac unfold_callbacks :=
  unfold VoiceAgent.onerror, VoiceAgent.onclose, VoiceAgent.startCall,
    VoiceAgent.connectResolved, VoiceAgent.connectRejected,
    VoiceAgent.onaudioprocess, VoiceAgent.onmessage, VoiceAgent.onopen,
    App.onerror, App.onclose, App.startCall, App.connectResolved,
    App.connectRejected, App.onaudioprocess, App.onmessage, App.onopen.

Section ErrorDisplay.
Import Pcm Call Demo.

Ltac no_error_leaf :=
  match goal with
  | c : Component |- _ =>
      destruct c; unfold keeps, no_error, session_close_fails; cbn;
      intuition (try discriminate; try congruence)
  end.

Lemma no_error_quiet_handlers ev :
  match ev with
  | ClickStart _ | ConnectResolved _ | ConnectRejected _ _ | OnError _ => False
  | _ => True
  end ->
  respects (keeps no_error) (handler App.handlers ev).
Proof.
  destruct ev; intros Hq; try contradiction;
    cbn [handler App.handlers h_onopen h_onaudioprocess h_onmessage
         h_onclose h_cleanupCall];
    unfold_handlers; frame; unfold_handlers; frame; no_error_leaf.
Qed.

Lemma no_error_step cfg ev :
  closes_quietly ev -> no_error (comp cfg) ->
  no_error (comp (step App.handlers cfg ev)).
Proof.
  intros Hq Hc.
  destruct (step_comp App.handlers cfg ev) as [->|E]; [exact Hc|].
  rewrite E. clear E. cbn [h_render App.handlers].
  pose proof Hc as (Hs & He).
  destruct ev; try (apply no_error_quiet_handlers; [exact I|exact Hc]);
    cbn [handler App.handlers h_startCall h_connectResolved
         h_connectRejected h_onerror].
  - (* startCall *)
    destruct (getUserMedia_error env) as [msg|] eqn:Em.
    + unfold final. rewrite bind_eval, (App_startCall_fails _ _ Em Hs).
      split; [reflexivity|discriminate].
    + unfold App.startCall. rewrite Em. unfold final. 
      destruct (comp cfg); cbn in *. split; [exact Hs|discriminate].
  - (* connect resolved *)
    unfold App.connectResolved, final. rewrite bind_eval. cbn [modify].
    rewrite promise_fulfil_run. cbn [fst snd].
    destruct (comp cfg); cbn in *. split; [exact Hq|exact He].
  - (* connect rejected *)
    unfold final. rewrite (@App_connectRejected_ok call message _ Hs).
    split; [reflexivity|discriminate].
  - unfold final. rewrite (App_onerror_ok _ Hs).
    split; [reflexivity|discriminate].
Qed.

(** X15.  App.tsx never shows its ERROR status.  Each of the three places
    that set it ([onerror] and the two failures of [startCall]) runs the
    teardown next, which sets ENDED; so along any run in which no stored
    session throws from [close()], ERROR is not among the statuses the
    component goes through. *)
Theorem App_never_shows_error (evs : list Event) :
  Forall closes_quietly evs ->
  ~ In ERROR (statuses App.handlers start evs).
Proof.
  assert (G : forall evs cfg, Forall closes_quietly evs ->
                no_error (comp cfg) ->
                ~ In ERROR (statuses App.handlers cfg evs)).
  { clear evs. induction evs as [|ev evs IH]; intros cfg Hq Hc.
    - cbn. intros [E|[]]. destruct Hc as (_ & Hc). now apply Hc.
    - inversion_clear Hq as [|? ? Hev Hq']. cbn [statuses].
      intros [E|Hin].
      + destruct Hc as (_ & Hc). now apply Hc.
      + revert Hin. apply IH; [exact Hq'|]. now apply no_error_step. }
  intros Hq. apply G; [exact Hq|]. split; [reflexivity|discriminate].
Qed.

(** An instance. *)
Lemma App_never_shows_error_witness :
  let refused := {| apiKey := Some "key"%string;
                    new_inputCtx := new_inputCtx (demo_env 1);
                    new_outputCtx := new_outputCtx (demo_env 1);
                    getUserMedia_error := Some "Permission denied"%string;
                    new_session := demo_session 1 |} in
  let evs := (ClickStart refused :: connect 2
              ++ [OnError (demo_call 2); ClickStart (demo_env 3);
                  ConnectRejected (demo_call 3) "unavailable"%string])%list in
  statuses App.handlers start evs
  = [IDLE; ENDED; CONNECTING; ACTIVE; ACTIVE; ENDED; CONNECTING; ENDED] /\
  ~ In ERROR (statuses App.handlers start evs).
Proof.
  intros refused evs. split; [reflexivity|].
  apply App_never_shows_error. unfold evs, connect.
  repeat constructor.
Defined.

End ErrorDisplay.

Section TranscriptProperties.
Import Pcm Call Demo.
Local Open Scope nat_scope.

Lemma Forall_slice_last A (P : A -> Prop) n l :
  Forall P l -> Forall P (slice_last n l).
Proof.
  unfold slice_last. generalize (List.length l - n). intros k Hl.
  revert k. induction Hl; intros [|k]; cbn; auto.
Qed.

Lemma texts_append_one e prev :
  truthy (text e) = true ->
  Forall (fun e => truthy (text e) = true) prev ->
  Forall (fun e => truthy (text e) = true) (VoiceAgent.append_one e prev).
Proof.
  intros He Hp. unfold VoiceAgent.append_one. apply Forall_app.
  split; [now apply Forall_slice_last|now constructor].
Qed.

Lemma texts_newEntries dateNow u mo :
  Forall (fun e => truthy (text e) = true) (App.newEntries dateNow u mo).
Proof.
  unfold App.newEntries. apply Forall_app. split.
  - destruct (truthy u) eqn:E; [now constructor|constructor].
  - destruct (truthy mo) eqn:E; [now constructor|constructor].
Qed.

Lemma texts_VoiceAgent_transcription dateNow m :
  respects (keeps texts_ok) (VoiceAgent.onmessage_transcription dateNow m).
Proof.
  intros c Hc. unfold texts_ok in *.
  rewrite VoiceAgent_transcription_final. unfold VoiceAgent.with_deltas.
  destruct (inputTranscription m) as [[t|]|];
    destruct (outputTranscription m) as [[t'|]|];
    try destruct (truthy t) eqn:Et; try destruct (truthy t') eqn:Et';
    repeat apply texts_append_one; cbn [text]; auto.
Qed.

Lemma texts_App_transcription dateNow m :
  respects (keeps texts_ok) (App.onmessage_transcription dateNow m).
Proof.
  intros c Hc. unfold texts_ok in *.
  pose proof (App_transcription_final dateNow m c) as F. cbn zeta in F.
  destruct (turnComplete m).
  - destruct F as (_ & ->).
    destruct (truthy _ || truthy _); [|exact Hc].
    unfold App.append_turn. apply Forall_slice_last, Forall_app.
    split; [exact Hc|apply texts_newEntries].
  - destruct F as (_ & ->). exact Hc.
Qed.

Ltac texts_leaf :=
  match goal with
  | c : Component |- _ =>
      destruct c; unfold keeps, texts_ok; cbn; auto
  end.

Lemma texts_handlers H ev :
  copy H -> respects (keeps texts_ok) (handler H ev).
Proof.
  intros [->| ->]; destruct ev;
    cbn [handler VoiceAgent.handlers App.handlers h_startCall
         h_connectResolved h_connectRejected h_onopen h_onaudioprocess
         h_onmessage h_onerror h_onclose h_cleanupCall];
    unfold_callbacks;
    unfold VoiceAgent.cleanupCall, App.cleanupCall, onmessage_audio,
      onmessage_interrupted, onended, createBufferSource, session_close,
      source_stop, context_close, promise_new, promise_then_send,
      promise_fulfil, promise_reject;
    repeat first [ apply texts_VoiceAgent_transcription
                 | apply texts_App_transcription | frame_step ];
    unfold VoiceAgent.cleanupCall, App.cleanupCall, session_close,
      source_stop, context_close;
    repeat first [ apply texts_VoiceAgent_transcription
                 | apply texts_App_transcription | frame_step ];
    try texts_leaf.
Qed.

(** X16.  Along any run of either copy, every entry of the transcript log
    carries a non-empty text. *)
Theorem transcript_entries_carry_text (H : Handlers) (evs : list Event) :
  copy H ->
  Forall (fun e => truthy (text e) = true)
         (transcriptions (comp (run H start evs))).
Proof.
  intros HH. apply (@run_keeps texts_ok H).
  - destruct HH as [->| ->]; intros c; destruct c; exact (fun x => x).
  - intros ev. now apply texts_handlers.
  - constructor.
Qed.

(** An instance. *)
Lemma transcript_entries_carry_text_witness :
  let evs := (connect 1
              ++ [OnMessage (demo_call 1) 0 1 (user_delta "");
                  OnMessage (demo_call 1) 0 2 (user_delta "hello");
                  OnMessage (demo_call 1) 0 3 turn_complete])%list in
  map text (transcriptions (comp (run VoiceAgent.handlers start evs)))
  = ["hello"%string] /\
  Forall (fun e => truthy (text e) = true)
         (transcriptions (comp (run VoiceAgent.handlers start evs))).
Proof.
  intros evs. split; [reflexivity|].
  exact (@transcript_entries_carry_text VoiceAgent.handlers evs
           (or_introl eq_refl)).
Defined.

Lemma truthy_append s t : truthy t = true -> truthy (s ++ t)%string = true.
Proof. destruct s; cbn; auto. Qed.

Lemma In_slice_last A n (prev es : list A) x :
  In x es -> List.length es <= n -> In x (slice_last n (prev ++ es)).
Proof.
  intros Hin Hlen. unfold slice_last. rewrite length_app, skipn_app.
  apply in_or_app. right.
  replace (List.length prev + List.length es - n - List.length prev) with 0
    by lia.
  exact Hin.
Qed.

(** X17.  A transcription object that comes without [text], in the message
    that completes the turn.  When the audio of that message, if any,
    decodes, App.tsx appends the missing text to the buffer unguarded, so
    the word "undefined" ends the user's text and the entry is written to
    the log; VoiceAgent.jsx drops the delta.  When the audio does not
    decode, neither copy writes anything. *)
Theorem App_delta_without_text (call : CallClosure) (now : Q) (dateNow : Z)
  (m : LiveServerMessage) (c : Component) :
  inputTranscription m = Some None ->
  turnComplete m = true ->
  (audio_decodes m = true ->
   In {| role := user;
         text := (buf_user (transcriptionRef c) ++ "undefined")%string;
         timestamp := dateNow |}
      (transcriptions (final (App.onmessage call now dateNow m) c)) /\
   transcriptions (final (VoiceAgent.onmessage call now dateNow m) c)
   = match outputTranscription m with
     | Some (Some t) =>
         if truthy t
         then VoiceAgent.append_one
                {| role := model; text := t; timestamp := dateNow |}
                (transcriptions c)
         else transcriptions c
     | _ => transcriptions c
     end) /\
  (audio_decodes m = false ->
   transcriptions (final (App.onmessage call now dateNow m) c)
   = transcriptions c /\
   transcriptionRef (final (App.onmessage call now dateNow m) c)
   = transcriptionRef c /\
   transcriptions (final (VoiceAgent.onmessage call now dateNow m) c)
   = transcriptions c).
Proof.
  intros Hin Htc. split.
  - intros Hd. split.
    + pose proof (@App_onmessage_transcript call now dateNow m c Hd) as F.
      cbn zeta in F. rewrite Htc in F. destruct F as (_ & ->).
      unfold App.accumulate. rewrite Hin. cbn [buf_user buf_model].
      unfold App.js_append.
      rewrite truthy_append by reflexivity. cbn [orb].
      unfold App.append_turn. apply In_slice_last.
      * unfold App.newEntries. rewrite truthy_append by reflexivity.
        now left.
      * unfold App.newEntries. rewrite truthy_append by reflexivity.
        cbn [app List.length]. destruct (truthy _); cbn; lia.
    + rewrite VoiceAgent_onmessage_transcript by exact Hd.
      unfold VoiceAgent.with_deltas. rewrite Hin. reflexivity.
  - intros Hd.
    destruct (@onmessage_skipped App.handlers call now dateNow m c
                (or_intror eq_refl) Hd) as (_ & _ & EA).
    destruct (@onmessage_skipped VoiceAgent.handlers call now dateNow m c
                (or_introl eq_refl) Hd) as (_ & _ & EV).
    cbn [h_onmessage App.handlers VoiceAgent.handlers] in EA, EV.
    rewrite EA, EV. now destruct c.
Qed.

(** An instance. *)
Lemma App_delta_without_text_witness :
  let m := {| audio := None; interrupted := false;
              inputTranscription := Some None; outputTranscription := None;
              turnComplete := true |} in
  transcriptions (final (App.onmessage (demo_call 1) 0 7 m) initial)
  = [{| role := user; text := "undefined"; timestamp := 7 |}] /\
  In {| role := user; text := "undefined"; timestamp := 7 |}
     (transcriptions (final (App.onmessage (demo_call 1) 0 7 m) initial)) /\
  transcriptions (final (VoiceAgent.onmessage (demo_call 1) 0 7 m) initial)
  = [].
Proof.
  intros m. split; [reflexivity|].
  exact (proj1 (@App_delta_without_text (demo_call 1) 0 7%Z m initial
                  eq_refl eq_refl) eq_refl).
Defined.

End TranscriptProperties.

Section SourceEndProperties.
Import Pcm Call Demo.

Lemma onended_final n c :
  onended n c
  = (Ok tt,
     match Set_delete n (sourcesRef c) with
     | [] => set_isModelSpeaking false (set_sourcesRef [] c)
     | l => set_sourcesRef l c
     end, []).
Proof.
  unfold onended, bind, modify, get, ret. cbn.
  destruct (Set_delete n (sourcesRef c)); reflexivity.
Qed.

Lemma render_playback H c :
  copy H ->
  sourcesRef (h_render H c) = sourcesRef c /\
  isModelSpeaking (h_render H c) = isModelSpeaking c.
Proof. intros [->| ->]; destruct c; split; reflexivity. Qed.

Lemma indicator_run H evs :
  copy H -> indicator_ok (comp (run H start evs)).
Proof.
  intros HH. apply (@run_keeps indicator_ok H).
  - destruct HH as [->| ->]; intros c; destruct c; exact (fun x => x).
  - intros ev. now apply indicator_handlers.
  - intros Hn. now elim Hn.
Qed.

(** X18.  Right after a source has ended, in any run of either copy: the
    indicator is on exactly when the playback set still holds a source,
    and the set has lost the nodes of the identity that ended and nothing
    else. *)
Theorem indicator_exact_after_source_end (H : Handlers) (evs : list Event)
  (n : SourceNode) :
  copy H ->
  let c := comp (run H start evs) in
  let c' := comp (run H start (evs ++ [SourceEnded n])) in
  (isModelSpeaking c' = true <-> sourcesRef c' <> []) /\
  (forall x, In x (sourcesRef c') <->
             In x (sourcesRef c) /\ node_id x <> node_id n).
Proof.
  intros HH c c'. subst c c'. rewrite run_app.
  pose proof (indicator_run evs HH) as Hinv.
  set (cfg := run H start evs) in *.
  cbn [run fold_left step]. rewrite dispatch_comp.
  destruct (render_playback (final (onended n) (comp cfg)) HH) as (-> & ->).
  unfold final. rewrite onended_final. cbn [fst snd].
  assert (Hdel : forall x, In x (Set_delete n (sourcesRef (comp cfg))) <->
                           In x (sourcesRef (comp cfg))
                           /\ node_id x <> node_id n).
  { intros x. unfold Set_delete. rewrite filter_In. unfold same_node.
    rewrite negb_true_iff, Nat.eqb_neq. intuition congruence. }
  destruct (Set_delete n (sourcesRef (comp cfg))) as [|y l] eqn:E.
  - split.
    + destruct (comp cfg); cbn. split; [discriminate|congruence].
    + intros x. rewrite <- Hdel. now destruct (comp cfg).
  - split.
    + assert (Hs : isModelSpeaking (comp cfg) = true).
      { apply Hinv. intros Hnil. rewrite Hnil in E. discriminate. }
      destruct (comp cfg); cbn in *. split; [discriminate|auto].
    + intros x. rewrite <- Hdel. now destruct (comp cfg).
Qed.

(** An instance. *)
Lemma indicator_exact_after_source_end_witness :
  let evs := (connect 1 ++ [OnMessage (demo_call 1) 2 0 (silence 8)])%list in
  let n := {| node_id := 0;
              buffer := {| numberOfChannels := 1; frames := 3;
                           sampleRate := 24000; channelData := [] |};
              stop_throws := false |} in
  isModelSpeaking (comp (run VoiceAgent.handlers start evs)) = true /\
  sourcesRef (comp (run VoiceAgent.handlers start (evs ++ [SourceEnded n])))
  = [] /\
  isModelSpeaking
    (comp (run VoiceAgent.handlers start (evs ++ [SourceEnded n])))
  <> true.
Proof.
  intros evs n. split; [reflexivity|]. split; [reflexivity|].
  intros Hs.
  apply (proj1 (proj1 (@indicator_exact_after_source_end VoiceAgent.handlers
                         evs n (or_introl eq_refl))) Hs).
  reflexivity.
Defined.

End SourceEndProperties.

Section PayloadProperties.
Import Base64 Pcm.

Lemma btoa_units_size l :
  List.length (btoa_units l) = (4 * ((List.length l + 2) / 3))%nat.
Proof.
  induction l as [|a|a b|a b c l IH] using list_ind3.
  - reflexivity.
  - reflexivity.
  - reflexivity.
  - cbn [btoa_units List.length]. rewrite IH.
    replace (S (S (S (List.length l))) + 2)%nat
      with (1 * 3 + (List.length l + 2))%nat by lia.
    rewrite Nat.div_add_l by lia. lia.
Qed.

Lemma length_string_of_list_ascii l :
  String.length (string_of_list_ascii l) = List.length l.
Proof. induction l; cbn; congruence. Qed.

Lemma encode_size bytes :
  String.length (encode bytes) = (4 * ((List.length bytes + 2) / 3))%nat.
Proof.
  unfold encode, btoa. rewrite encode_loop. cbn [String.append].
  rewrite length_string_of_list_ascii, btoa_units_size, length_map.
  rewrite list_ascii_of_string_of_list_ascii, length_map. reflexivity.
Qed.

(** X19.  The payload of [createPcmBlob] for a frame of n samples decodes
    to 2n bytes and is 4 * ceil(2n / 3) base64 characters long; the MIME
    type is audio/pcm;rate=16000. *)
Theorem createPcmBlob_payload (samples : list sample) :
  exists bytes,
    Base64.decode (data (createPcmBlob samples)) = Ok bytes /\
    List.length bytes = (2 * List.length samples)%nat /\
    String.length (data (createPcmBlob samples))
    = (4 * ((2 * List.length samples + 2) / 3))%nat /\
    mimeType (createPcmBlob samples) = "audio/pcm;rate=16000"%string.
Proof.
  unfold createPcmBlob. cbn [data mimeType]. eexists.
  split; [apply decode_encode|].
  assert (L : forall l : list Z,
             List.length (Uint8Array_of_Int16Array l)
             = (2 * List.length l)%nat).
  { induction l as [|v l IH]; [reflexivity|].
    cbn [Uint8Array_of_Int16Array flat_map app List.length].
    fold (Uint8Array_of_Int16Array l). rewrite IH. lia. }
  rewrite encode_size, L, length_map. repeat split.
Qed.

End PayloadProperties.

Section RejectionProperties.
Import Pcm Call Demo.
Local Open Scope string_scope.

(** X20.  When [ai.live.connect] rejects: VoiceAgent.jsx logs, shows ERROR
    with the message (or "Failed to connect") and releases nothing, the
    refs keep their contexts; App.tsx logs and runs the teardown, which
    releases everything the refs hold and leaves ENDED. *)
Theorem connect_rejection_paths (cfg : Config) (call : CallClosure)
  (message : string) :
  existsb (same_call call) (calls cfg) = true ->
  (let cfg' := step VoiceAgent.handlers cfg (ConnectRejected call message) in
   status (comp cfg') = ERROR /\
   error (comp cfg')
   = (if truthy message then message else "Failed to connect") /\
   trace cfg' = (trace cfg ++ [ConsoleError])%list /\
   sessionRef (comp cfg') = sessionRef (comp cfg) /\
   inputAudioCtxRef (comp cfg') = inputAudioCtxRef (comp cfg) /\
   outputAudioCtxRef (comp cfg') = outputAudioCtxRef (comp cfg) /\
   sourcesRef (comp cfg') = sourcesRef (comp cfg)) /\
  (session_close_fails (comp cfg) = false ->
   let cfg' := step App.handlers cfg (ConnectRejected call message) in
   status (comp cfg') = ENDED /\
   trace cfg'
   = (trace cfg ++ ConsoleError :: releases (comp cfg) ++ [SetTimeoutIdle])%list
   /\
   sessionRef (comp cfg') = None /\
   inputAudioCtxRef (comp cfg') = None /\
   outputAudioCtxRef (comp cfg') = None /\
   sourcesRef (comp cfg') = []).
Proof.
  intros Hreg. split.
  - cbn [step]. rewrite Hreg. unfold dispatch.
    cbn [h_connectRejected VoiceAgent.handlers h_render].
    unfold VoiceAgent.connectRejected.
    destruct cfg as [c cl op tm tr]. destruct c. cbn. repeat split.
  - intros Hc. cbn [step]. rewrite Hreg. unfold dispatch.
    cbn [h_connectRejected App.handlers h_render].
    rewrite (@App_connectRejected_ok call message _ Hc). cbn [snd comp trace].
    repeat split.
Qed.

(** An instance. *)
Lemma connect_rejection_paths_witness :
  let evs := [ClickStart (demo_env 1);
              ConnectRejected (demo_call 1) "quota"] in
  statuses VoiceAgent.handlers start evs = [IDLE; CONNECTING; ERROR] /\
  outputAudioCtxRef (comp (run VoiceAgent.handlers start evs))
  = Some (new_outputCtx (demo_env 1)) /\
  statuses App.handlers start evs = [IDLE; CONNECTING; ENDED] /\
  outputAudioCtxRef (comp (run App.handlers start evs)) = None.
Proof.
  intros evs.
  pose proof (@connect_rejection_paths
                (step VoiceAgent.handlers start (ClickStart (demo_env 1)))
                (demo_call 1) "quota" eq_refl) as (WV & _).
  pose proof (@connect_rejection_paths
                (step App.handlers start (ClickStart (demo_env 1)))
                (demo_call 1) "quota" eq_refl) as (_ & WA).
  split; [reflexivity|]. split; [exact (proj1 (proj2 (proj2 (proj2 (proj2 (proj2 WV)))))) |].
  split; [reflexivity|].
  exact (proj1 (proj2 (proj2 (proj2 (proj2 (WA eq_refl)))))).
Defined.

End RejectionProperties.

Section OverdriveProperties.
Import Pcm.
Local Open Scope Z_scope.





End OverdriveProperties.

Section StaleMuteProperties.
Import Pcm Call Demo.

(** X22.  App.tsx, a call started while the mute flag is on.  Its capture
    callback closed over [isMuted = true]; once the call is up and the user
    has unmuted (the flag is off, the status ACTIVE), a frame that arrives
    is still dropped: nothing is sent. *)
Theorem App_call_started_muted_stays_silent (cfg : Config) (env : StartEnv)
  (inputData : list sample) :
  start_offered App.handlers (status (comp cfg)) = true ->
  getUserMedia_error env = None ->
  isMuted (comp cfg) = true ->
  let call := {| inputCtx := new_inputCtx env; outputCtx := new_outputCtx env;
                 session := new_session env; closure_isMuted := true |} in
  let cfg1 := run App.handlers cfg
                [ClickStart env; OnOpen call; ConnectResolved call;
                 ClickMute] in
  In call (calls cfg1) /\ In call (opened cfg1) /\
  status (comp cfg1) = ACTIVE /\
  isMuted (comp cfg1) = false /\
  trace (step App.handlers cfg1 (AudioProcess call inputData)) = trace cfg1.
Proof.
  intros Hs Hm Hmu call cfg1. subst cfg1. cbn [run fold_left].
  rewrite (App_step_start _ _ Hs Hm), Hmu. fold call.
  match goal with
  | |- context [{| comp := ?c; calls := _; opened := _; timers := _;
                   trace := _ |}] => set (c1 := c)
  end.
  assert (Hreg : existsb (same_call call) (calls cfg ++ [call]) = true)
    by (apply existsb_last; apply Nat.eqb_refl).
  assert (Hop : existsb (same_call call) (opened cfg ++ [call]) = true)
    by (apply existsb_last; apply Nat.eqb_refl).
  rewrite App_step_open by exact Hreg.
  rewrite App_step_resolved by exact Hreg. cbn [comp calls opened trace].
  match goal with
  | |- context [{| comp := ?c; calls := _; opened := _; timers := _;
                   trace := _ |}] => set (c3 := c)
  end.
  assert (Hst : status c3 = ACTIVE) by (unfold c3; now destruct c1).
  assert (Hmu3 : isMuted c3 = true)
    by (unfold c3, c1; destruct (comp cfg); cbn in *; exact Hmu).
  rewrite App_step_mute by exact Hst. cbn [comp calls opened trace].
  split; [apply in_or_app; right; now left|].
  split; [apply in_or_app; right; now left|].
  split; [now destruct c3|].
  split; [destruct c3; cbn in *; now rewrite Hmu3|].
  cbn [step opened]. rewrite Hop, dispatch_trace.
  cbn [h_onaudioprocess App.handlers App.onaudioprocess closure_isMuted call
       trace].
  unfold effects, ret. cbn [snd]. now rewrite app_nil_r.
Qed.

(** An instance. *)
Lemma App_call_started_muted_stays_silent_witness :
  let cfg := run App.handlers start (connect 1 ++ [ClickMute; ClickEndCall]) in
  let call := {| inputCtx := new_inputCtx (demo_env 2);
                 outputCtx := new_outputCtx (demo_env 2);
                 session := demo_session 2; closure_isMuted := true |} in
  let cfg1 := run App.handlers cfg
                [ClickStart (demo_env 2); OnOpen call; ConnectResolved call;
                 ClickMute] in
  isMuted (comp cfg1) = false /\
  sends (trace (step App.handlers cfg1 (AudioProcess call [1 # 2]))) = [].
Proof.
  intros cfg call cfg1.
  destruct (@App_call_started_muted_stays_silent cfg (demo_env 2) [1 # 2]
              eq_refl eq_refl eq_refl) as (_ & _ & _ & Hm & Ht).
  split; [exact Hm|exact (f_equal sends Ht)].
Defined.

End StaleMuteProperties.

Section StatusOrderProperties.
Import Pcm Call Demo.

(** X23.  In any run of either copy from the mount, ACTIVE is shown only
    after CONNECTING has been shown; and while the status shown is
    CONNECTING or ACTIVE a click on the start control does nothing. *)
Theorem active_only_after_connecting (H : Handlers) (evs : list Event)
  (pre post : list CallStatus) :
  copy H ->
  statuses H start evs = pre ++ ACTIVE :: post ->
  In CONNECTING pre /\
  (forall cfg env,
     status (comp cfg) = CONNECTING \/ status (comp cfg) = ACTIVE ->
     step H cfg (ClickStart env) = cfg).
Proof.
  intros HH E. split.
  - revert E. apply active_after_connecting; cbn; congruence.
  - intros cfg env Hs. cbn [step].
    destruct HH as [->| ->], Hs as [->| ->]; reflexivity.
Qed.

(** An instance. *)
Lemma active_only_after_connecting_witness :
  statuses App.handlers start (connect 1) = [IDLE; CONNECTING; ACTIVE; ACTIVE]
  /\ In CONNECTING [IDLE; CONNECTING].
Proof.
  split; [reflexivity|].
  exact (proj1 (@active_only_after_connecting App.handlers (connect 1)
                  [IDLE; CONNECTING] [ACTIVE] (or_intror eq_refl) eq_refl)).
Defined.

End StatusOrderProperties.

Section DeferredSendProperties.
Import Pcm Call Demo.
Local Open Scope string_scope.

Lemma App_frame_waits cfg call inputData :
  existsb (same_call call) (opened cfg) = true ->
  closure_isMuted call = false ->
  settled (session call) (fulfilled (promises (comp cfg))) = false ->
  settled (session call) (rejected (promises (comp cfg))) = false ->
  step App.handlers cfg (AudioProcess call inputData)
  = {| comp :=
         set_promises
           {| fulfilled := fulfilled (promises (comp cfg));
              rejected := rejected (promises (comp cfg));
              waiting := waiting (promises (comp cfg))
                         ++ [(session call, createPcmBlob inputData)] |}
           (comp cfg);
       calls := calls cfg; opened := opened cfg; timers := timers cfg;
       trace := trace cfg |}.
Proof.
  intros Hop Hcl Hf Hr. cbn [step]. rewrite Hop. unfold dispatch.
  cbn [h_onaudioprocess App.handlers h_render].
  unfold App.onaudioprocess, promise_then_send. rewrite Hcl, bind_eval.
  cbn [get]. rewrite Hf, Hr. cbn [modify snd]. cbn.
  now rewrite Nat.add_0_r, app_nil_r.
Qed.

Lemma App_frames_wait call frames :
  closure_isMuted call = false ->
  forall cfg,
    existsb (same_call call) (opened cfg) = true ->
    settled (session call) (fulfilled (promises (comp cfg))) = false ->
    settled (session call) (rejected (promises (comp cfg))) = false ->
    let cfg' := run App.handlers cfg (map (AudioProcess call) frames) in
    trace cfg' = trace cfg /\ calls cfg' = calls cfg /\
    status (comp cfg') = status (comp cfg) /\
    sessionRef (comp cfg') = sessionRef (comp cfg) /\
    sourcesRef (comp cfg') = sourcesRef (comp cfg) /\
    inputAudioCtxRef (comp cfg') = inputAudioCtxRef (comp cfg) /\
    outputAudioCtxRef (comp cfg') = outputAudioCtxRef (comp cfg) /\
    fulfilled (promises (comp cfg')) = fulfilled (promises (comp cfg)) /\
    rejected (promises (comp cfg')) = rejected (promises (comp cfg)) /\
    waiting (promises (comp cfg'))
    = (waiting (promises (comp cfg))
       ++ map (fun d => (session call, createPcmBlob d)) frames)%list.
Proof.
  intros Hcl. induction frames as [|d frames IH]; intros cfg Hop Hf Hr cfg';
    subst cfg'.
  - cbn. rewrite app_nil_r. repeat split.
  - cbn [map run fold_left].
    change (fold_left (step App.handlers) (map _ frames) ?x)
      with (run App.handlers x (map (AudioProcess call) frames)).
    rewrite (App_frame_waits _ _ d Hop Hcl Hf Hr).
    match goal with
    | |- context [run App.handlers ?x _] => set (cfg1 := x)
    end.
    assert (Hop1 : existsb (same_call call) (opened cfg1) = true) by exact Hop.
    assert (Hf1 : settled (session call) (fulfilled (promises (comp cfg1)))
                  = false) by (unfold cfg1; destruct (comp cfg); exact Hf).
    assert (Hr1 : settled (session call) (rejected (promises (comp cfg1)))
                  = false) by (unfold cfg1; destruct (comp cfg); exact Hr).
    destruct (IH cfg1 Hop1 Hf1 Hr1)
      as (-> & -> & -> & -> & -> & -> & -> & -> & -> & ->).
    unfold cfg1. destruct (comp cfg); cbn. rewrite <- app_assoc.
    repeat split.
Qed.

Lemma pending_after_new s l :
  settled s (filter (fun n => negb (session_id s =? n)%nat) l) = false.
Proof.
  unfold settled. induction l as [|n l IH]; [reflexivity|]. cbn [filter].
  destruct (session_id s =? n)%nat eqn:E; cbn [negb existsb]; [exact IH|].
  now rewrite E, IH.
Qed.

Lemma filter_of_session_own s (l : list Blob) :
  filter (of_session s) (map (fun b => (s, b)) l) = map (fun b => (s, b)) l.
Proof.
  induction l as [|b l IH]; [reflexivity|]. cbn [map filter].
  unfold of_session at 1. cbn [fst]. now rewrite Nat.eqb_refl, IH.
Qed.

Lemma sends_releases c : sends (releases c ++ [SetTimeoutIdle]) = [].
Proof.
  unfold releases, sends. rewrite !flat_map_app.
  destruct (sessionRef c), (inputAudioCtxRef c), (outputAudioCtxRef c);
    cbn; rewrite ?app_nil_r;
    induction (sourcesRef c) as [|n l IH]; cbn; auto.
Qed.

(** X24.  App.tsx, capture frames that arrive before [connect] has
    settled, for a call started unmuted.  None is sent when it arrives;
    when [connect] resolves they are all sent, in the order of capture, to
    the session of the call; when [connect] rejects none of them is ever
    sent, nor is any frame that arrives later. *)
Theorem App_frames_wait_for_connect (cfg : Config) (env : StartEnv)
  (frames : list (list sample)) (message : string) :
  start_offered App.handlers (status (comp cfg)) = true ->
  getUserMedia_error env = None ->
  isMuted (comp cfg) = false ->
  let call := {| inputCtx := new_inputCtx env; outputCtx := new_outputCtx env;
                 session := new_session env; closure_isMuted := false |} in
  let cfg1 := run App.handlers cfg
                ([ClickStart env; OnOpen call]
                 ++ map (AudioProcess call) frames) in
  sends (trace cfg1) = sends (trace cfg) /\
  sends (trace (step App.handlers cfg1 (ConnectResolved call)))
  = (sends (trace cfg)
     ++ map (fun d => (new_session env, createPcmBlob d)) frames)%list /\
  (session_close_fails (comp cfg) = false ->
   let cfg2 := step App.handlers cfg1 (ConnectRejected call message) in
   sends (trace cfg2) = sends (trace cfg) /\
   forall d,
     sends (trace (step App.handlers cfg2 (AudioProcess call d)))
     = sends (trace cfg)).
Proof.
  intros Hs Hm Hmu call cfg1. subst cfg1. rewrite run_app.
  cbn [run fold_left]. rewrite (App_step_start _ _ Hs Hm), Hmu. fold call.
  match goal with
  | |- context [{| comp := ?c; calls := _; opened := _; timers := _;
                   trace := _ |}] => set (c1 := c)
  end.
  assert (Hreg : existsb (same_call call) (calls cfg ++ [call]) = true)
    by (apply existsb_last; apply Nat.eqb_refl).
  assert (Hop : existsb (same_call call) (opened cfg ++ [call]) = true)
    by (apply existsb_last; apply Nat.eqb_refl).
  rewrite App_step_open by exact Hreg. cbn [comp calls opened trace timers].
  set (cfg0 := {| comp := set_status ACTIVE c1; calls := calls cfg ++ [call];
                  opened := opened cfg ++ [call]; timers := timers cfg;
                  trace := trace cfg ++ [LiveConnect (new_session env)] |}).
  assert (Hf : settled (session call) (fulfilled (promises (comp cfg0)))
               = false)
    by (unfold cfg0, c1; destruct (comp cfg); apply pending_after_new).
  assert (Hr : settled (session call) (rejected (promises (comp cfg0)))
               = false)
    by (unfold cfg0, c1; destruct (comp cfg); apply pending_after_new).
  destruct (@App_frames_wait call frames eq_refl cfg0 Hop Hf Hr)
    as (Ht & Hc & Hst & Hse & Hso & Hi & Ho & Hfu & Hre & Hw).
  change (fold_left (step App.handlers) (map (AudioProcess call) frames) cfg0)
    with (run App.handlers cfg0 (map (AudioProcess call) frames)) in *.
  set (cfgF := run App.handlers cfg0 (map (AudioProcess call) frames)) in *.
  assert (HregF : existsb (same_call call) (calls cfgF) = true)
    by (rewrite Hc; exact Hreg).
  assert (Hs0 : sends (trace cfg0) = sends (trace cfg)).
  { unfold cfg0. cbn [trace]. rewrite sends_app. cbn. apply app_nil_r. }
  assert (HwF : filter (of_session (session call))
                       (waiting (promises (comp cfgF)))
                = map (fun d => (new_session env, createPcmBlob d)) frames).
  { rewrite Hw, filter_app.
    replace (filter (of_session (session call))
               (waiting (promises (comp cfg0)))) with (@nil (Session * Blob))
      by (unfold cfg0, c1; destruct (comp cfg); symmetry;
          apply no_callback_on_new).
    cbn [app call session].
    rewrite <- (map_map createPcmBlob (fun b => (new_session env, b))).
    apply filter_of_session_own. }
  split; [now rewrite Ht|]. split.
  - rewrite (App_step_resolved _ _ HregF). cbn [trace].
    rewrite sends_app, HwF, sends_of_sends, Ht, Hs0. reflexivity.
  - intros Hcl.
    assert (HclF : session_close_fails (comp cfgF) = false).
    { unfold session_close_fails in *. rewrite Hse. unfold cfg0, c1.
      destruct (comp cfg); exact Hcl. }
    assert (E2 : step App.handlers cfgF (ConnectRejected call message)
                 = snd (dispatch App.handlers
                          (App.connectRejected call message) cfgF))
      by (cbn [step]; now rewrite HregF).
    rewrite E2. clear E2.
    set (cfg2 := snd (dispatch App.handlers
                        (App.connectRejected call message) cfgF)).
    assert (Ht2 : sends (trace cfg2) = sends (trace cfg)).
    { unfold cfg2. rewrite dispatch_trace. unfold effects.
      rewrite (@App_connectRejected_ok call message _ HclF). cbn [snd].
      rewrite sends_app.
      change (ConsoleError :: releases (comp cfgF) ++ [SetTimeoutIdle])
        with ([ConsoleError] ++ (releases (comp cfgF) ++ [SetTimeoutIdle]))%list.
      rewrite sends_app, sends_releases, Ht, Hs0. cbn.
      now rewrite app_nil_r. }
    split; [exact Ht2|]. intros d.
    assert (Hop2 : existsb (same_call call) (opened cfg2) = true).
    { unfold cfg2, dispatch.
      destruct (App.connectRejected call message (comp cfgF)) as [[r c] t].
      cbn [snd opened]. 
      assert (Hopen : opened cfgF = opened cfg0).
      { clear. unfold cfgF. generalize cfg0.
        induction frames as [|x l IH]; intros g; [reflexivity|].
        cbn [map run fold_left].
        change (fold_left (step App.handlers) (map _ l) ?x)
          with (run App.handlers x (map (AudioProcess call) l)).
        rewrite IH. cbn [step].
        destruct (existsb _ _); [|reflexivity].
        unfold dispatch. destruct (h_onaudioprocess _ _ _ _) as [[r c] t].
        reflexivity. }
      rewrite Hopen. exact Hop. }
    cbn [step]. rewrite Hop2, dispatch_trace, sends_app, Ht2.
    assert (Hc2 : comp cfg2
                  = cleaned true
                      (set_promises
                         {| fulfilled := fulfilled (promises (comp cfgF));
                            rejected := session_id (session call)
                                        :: rejected (promises (comp cfgF));
                            waiting :=
                              filter (fun x => negb (of_session (session call) x))
                                     (waiting (promises (comp cfgF))) |}
                         (comp cfgF))).
    { unfold cfg2. rewrite dispatch_comp. unfold final.
      now rewrite (@App_connectRejected_ok call message _ HclF). }
    cbn [h_onaudioprocess App.handlers].
    unfold App.onaudioprocess, promise_then_send, effects.
    cbn [closure_isMuted call]. rewrite bind_eval. cbn [get]. rewrite Hc2.
    replace (settled (new_session env)
               (fulfilled (promises (cleaned true _)))) with false.
    2:{ symmetry. destruct (comp cfgF) eqn:EF. cbn in *. rewrite Hfu.
        exact Hf. }
    replace (settled (new_session env)
               (rejected (promises (cleaned true _)))) with true.
    2:{ symmetry. destruct (comp cfgF). cbn. unfold settled. cbn.
        now rewrite Nat.eqb_refl. }
    cbn. now rewrite app_nil_r.
Qed.

(** An instance. *)
Lemma App_frames_wait_for_connect_witness :
  let cfg1 := run App.handlers start
                [ClickStart (demo_env 1); OnOpen (demo_call 1);
                 AudioProcess (demo_call 1) [1 # 2];
                 AudioProcess (demo_call 1) [1 # 4]] in
  sends (trace cfg1) = [] /\
  sends (trace (step App.handlers cfg1 (ConnectResolved (demo_call 1))))
  = [(demo_session 1, createPcmBlob [1 # 2]);
     (demo_session 1, createPcmBlob [1 # 4])] /\
  sends (trace (step App.handlers cfg1
                  (ConnectRejected (demo_call 1) "quota"))) = [].
Proof.
  intros cfg1.
  destruct (@App_frames_wait_for_connect start (demo_env 1)
              [[1 # 2]; [1 # 4]] "quota" eq_refl eq_refl eq_refl)
    as (W1 & W2 & W3).
  split; [exact W1|]. split; [exact W2|]. exact (proj1 (W3 eq_refl)).
Defined.

End DeferredSendProperties.
